(** * twing-loader: a webpack loader for Twig templates

    A shallow embedding of [src/index.ts] (the loader's default export, its
    key derivation [getTemplateHash] and the [PathSupportingArrayLoader]
    class), followed by the properties of the two generated module shapes,
    of the loader chain installed in render mode, and of the order in which
    the loader talks to its host. *)

From Stdlib Require Import ZArith Lia String Ascii.
From stdpp Require Import base numbers option list gmap.

Local Open Scope Z_scope.

(** ** JavaScript strings

    A JavaScript string is a finite sequence of UTF-16 code units; string
    concatenation and template literals are list concatenation. *)

Abbreviation jsstring := (list Z) (only parsing).

Definition code_unit (c : Z) : Prop := 0 ≤ c < 65536.

Definition wf_jsstring (s : jsstring) : Prop := Forall code_unit s.

(** An ASCII literal of the source, as a sequence of code units. *)
Fixpoint js (s : string) : jsstring :=
  match s with
  | EmptyString => []
  | String a r => Z.of_N (N_of_ascii a) :: js r
  end.

(** [Array.prototype.join(sep)] on an array of strings. *)
Fixpoint join (sep : jsstring) (parts : list jsstring) : jsstring :=
  match parts with
  | [] => []
  | [p] => p
  | p :: rest => p ++ sep ++ join sep rest
  end.

(** A line break, and a line of a template literal: [n] blanks and [s]. *)
Definition nl : jsstring := [10].
Definition blanks (n : nat) : jsstring := replicate n 32.
Definition line (n : nat) (s : string) : jsstring := blanks n ++ js s.

(** ** Exceptions and results

    A call that can throw, and a promise once settled, yield a [result]. *)

Inductive Error := Err (message : jsstring).

Inductive result (A : Type) := Ok (a : A) | Throw (e : Error).
Arguments Ok {A} a.
Arguments Throw {A} e.

#[export] Instance result_ret : MRet result := fun A a => Ok a.
#[export] Instance result_bind : MBind result := fun A B k r =>
  match r with Ok a => k a | Throw e => Throw e end.

#[export] Instance Error_eq_dec : EqDecision Error.
Proof. solve_decision. Defined.

(** ** crypto-js: word arrays and the hex encoder

    [hex.stringify] follows crypto-js' [enc-hex]: for every significant byte
    [i], [bite = (words[i >>> 2] >>> (24 - (i % 4) * 8)) & 0xff], and two
    characters [(bite >>> 4).toString(16)], [(bite & 0x0f).toString(16)]. *)

Module hex.

Record WordArray := { words : list Z; sigBytes : nat }.

(** [ToUint32], and [x >>> n] on it. *)
Definition to_uint32 (x : Z) : Z := x mod 2 ^ 32.
Definition ushr (x n : Z) : Z := Z.shiftr (to_uint32 x) (n mod 32).

(** [Number.prototype.toString(16)] on a value below sixteen. *)
Definition toString16 (n : Z) : Z := if n <? 10 then 48 + n else 87 + n.

(** [words[i >>> 2]]; a missing word is [undefined], which [>>>] reads
    as zero. *)
Definition word_at (ws : list Z) (i : nat) : Z := default 0 (ws !! (i / 4)%nat).

Definition bite (ws : list Z) (i : nat) : Z :=
  Z.land (ushr (word_at ws i) (24 - (Z.of_nat i mod 4) * 8)) 255.

Definition hexChars (ws : list Z) (i : nat) : jsstring :=
  [toString16 (ushr (bite ws i) 4); toString16 (Z.land (bite ws i) 15)].

Definition stringify (wa : WordArray) : jsstring :=
  flat_map (hexChars (words wa)) (seq 0 (sigBytes wa)).

(** The characters [0-9a-f]. *)
Definition is_hex_digit (c : Z) : Prop := 48 ≤ c ≤ 57 ∨ 97 ≤ c ≤ 102.

End hex.

(** ** JSON.stringify on a string, and the string literals of JavaScript

    [JSON.stringify] follows QuoteJSONString of ECMA-262: the two-character
    escapes for backspace, tab, line feed, form feed, carriage return, the
    double quote and the backslash; [\uXXXX] for the other code units below
    0x20 and for a surrogate that is not part of a pair; every other code
    unit as it is. *)

Module JSON.

Definition is_high_surrogate (c : Z) : bool := (55296 <=? c) && (c <=? 56319).
Definition is_low_surrogate (c : Z) : bool := (56320 <=? c) && (c <=? 57343).

(** [\uXXXX], four lower-case hexadecimal digits. *)
Definition UnicodeEscape (c : Z) : jsstring :=
  [92; 117; hex.toString16 (c / 4096 mod 16); hex.toString16 (c / 256 mod 16);
   hex.toString16 (c / 16 mod 16); hex.toString16 (c mod 16)].

(** One code unit that is not the first half of a surrogate pair. *)
Definition quote_unit (c : Z) : jsstring :=
  if c =? 8 then [92; 98]
  else if c =? 9 then [92; 116]
  else if c =? 10 then [92; 110]
  else if c =? 12 then [92; 102]
  else if c =? 13 then [92; 114]
  else if c =? 34 then [92; 34]
  else if c =? 92 then [92; 92]
  else if (c <? 32) || is_high_surrogate c || is_low_surrogate c
       then UnicodeEscape c
  else [c].

Fixpoint quote (s : jsstring) : jsstring :=
  match s with
  | [] => []
  | c :: rest =>
      match rest with
      | d :: rest' =>
          if is_high_surrogate c && is_low_surrogate d
          then c :: d :: quote rest'
          else quote_unit c ++ quote rest
      | [] => quote_unit c
      end
  end.

Definition stringify (s : jsstring) : jsstring := [34] ++ quote s ++ [34].

End JSON.

(** Evaluation of the characters of a double-quoted string literal
    (ECMA-262, DoubleStringCharacters) up to the closing quote: the value
    and the text after the literal. [None] is a syntax error, or one of the
    escapes left out here: [\x], the octal ones and the line continuation. *)

Module StringLiteral.

Definition hex_value (c : Z) : option Z :=
  if (48 <=? c) && (c <=? 57) then Some (c - 48)
  else if (97 <=? c) && (c <=? 102) then Some (c - 87)
  else if (65 <=? c) && (c <=? 70) then Some (c - 55)
  else None.

(** The value of [\c] for a single escape character or a character that
    stands for itself. *)
Definition escape_value (c : Z) : option Z :=
  if c =? 98 then Some 8
  else if c =? 116 then Some 9
  else if c =? 110 then Some 10
  else if c =? 118 then Some 11
  else if c =? 102 then Some 12
  else if c =? 114 then Some 13
  else if (c =? 120) || ((48 <=? c) && (c <=? 57)) || (c =? 10) || (c =? 13)
            || (c =? 8232) || (c =? 8233)
       then None
  else Some c.

Fixpoint chars (s : jsstring) : option (jsstring * jsstring) :=
  match s with
  | [] => None
  | c :: rest =>
      if c =? 34 then Some ([], rest)
      else if (c =? 10) || (c =? 13) then None
      else if c =? 92 then
        match rest with
        | e :: rest1 =>
            if e =? 117 then
              match rest1 with
              | a :: b :: c' :: d :: rest2 =>
                  va ← hex_value a; vb ← hex_value b;
                  vc ← hex_value c'; vd ← hex_value d;
                  '(v, after) ← chars rest2;
                  Some ((va * 4096 + vb * 256 + vc * 16 + vd) :: v, after)
              | _ => None
              end
            else
              u ← escape_value e;
              '(v, after) ← chars rest1;
              Some (u :: v, after)
        | [] => None
        end
      else
        '(v, after) ← chars rest;
        Some (c :: v, after)
  end.

(** A whole literal: the opening quote and its characters. *)
Definition eval (s : jsstring) : option (jsstring * jsstring) :=
  match s with
  | c :: rest => if c =? 34 then chars rest else None
  | [] => None
  end.

End StringLiteral.

(** ** Template sources and loaders *)

(** [new TwingSource(code, name, resolvedPath?)]; the third argument is
    optional. *)
Record TwingSource := {
  getCode : jsstring;
  getName : jsstring;
  resolvedPath : option jsstring
}.

(** A loader of the host's own configuration: whatever
    [environment.getLoader()] returns before the loader touches it. *)
Record ConfiguredLoader := {
  configured_getSourceContext : jsstring → TwingSource → result TwingSource
}.

(** The loader objects an invocation can meet. [templates] is the [Map]
    from names to template codes an array loader is constructed with. *)
#[warnings="-register-all"]
Inductive TwingLoaderInterface :=
| Configured (impl : ConfiguredLoader)
| TwingLoaderArray (templates : gmap (list Z) (list Z))
| PathSupportingArrayLoader (templates : gmap (list Z) (list Z))
| TwingLoaderChain (loaders : list TwingLoaderInterface).

Definition not_defined (name : jsstring) : Error :=
  Err (js "Template " ++ [34] ++ name ++ [34] ++ js " is not defined.").

(** Modelled from the spec: the engine's array loader (twing is a dependency,
    not part of this repository) holds an ordered collection of entries
    from a logical name to a source; a name with an entry yields the stored
    source under that name, any other name is a failed lookup. *)
Definition TwingLoaderArray_getSourceContext
    (templates : gmap (list Z) (list Z)) (name : jsstring) : result TwingSource :=
  match templates !! name with
  | Some code => Ok {| getCode := code; getName := name; resolvedPath := None |}
  | None => Throw (not_defined name)
  end.

(** [PathSupportingArrayLoader.getSourceContext] of the source: the source
    of the super class, rebuilt with the requested name as third argument. *)
Definition PathSupportingArrayLoader_getSourceContext
    (templates : gmap (list Z) (list Z)) (name : jsstring) : result TwingSource :=
  source ← TwingLoaderArray_getSourceContext templates name;
  Ok {| getCode := getCode source; getName := getName source;
        resolvedPath := Some name |}.

(** Modelled from the spec: the engine's loader chain (a twing class, not
    part of this repository) is an ordered list of loader strategies; lookup
    tries each in order and the first successful match wins; when no earlier
    loader matches, the call is forwarded to the last one and its exact
    result, an error included, is the chain's. [lookup] is the lookup of one
    loader of the list; the loaders consulted are collected in order. *)
Definition TwingLoaderChain_getSourceContext {L : Type}
    (lookup : L → list L * result TwingSource) (name : jsstring) :
    list L → list L * result TwingSource :=
  fix chain (loaders : list L) :=
    match loaders with
    | [] => ([], Throw (not_defined name))
    | l :: rest =>
        let '(seen, r) := lookup l in
        match r, rest with
        | Ok source, _ => (seen, Ok source)
        | Throw e, [] => (seen, Throw e)
        | Throw _, _ :: _ => let '(seen', r') := chain rest in (seen ++ seen', r')
        end
    end.

(** [getSourceContext] of a loader object: the loaders whose own lookup was
    consulted, in order, and the outcome. *)
Fixpoint getSourceContext (l : TwingLoaderInterface) (name : jsstring)
    (from : TwingSource) : list TwingLoaderInterface * result TwingSource :=
  match l with
  | Configured impl => ([l], configured_getSourceContext impl name from)
  | TwingLoaderArray templates =>
      ([l], TwingLoaderArray_getSourceContext templates name)
  | PathSupportingArrayLoader templates =>
      ([l], PathSupportingArrayLoader_getSourceContext templates name)
  | TwingLoaderChain loaders =>
      TwingLoaderChain_getSourceContext
        (λ l', getSourceContext l' name from) name loaders
  end.

(** The number of loader objects in a loader. *)
Fixpoint loader_size (l : TwingLoaderInterface) : nat :=
  match l with
  | TwingLoaderChain loaders =>
      S ((fix sum (ls : list TwingLoaderInterface) : nat :=
            match ls with [] => O | l' :: rest => (loader_size l' + sum rest)%nat end)
           loaders)
  | _ => 1%nat
  end.

(** ** The engine's environment, as far as the loader changes it *)

(** The mutable part of a [TwingEnvironment]: the active loader
    ([getLoader] / [setLoader]) and the subscriptions made with [on], each
    an event name and the identity of the listener function. *)
Record TwingEnvironment := {
  getLoader : TwingLoaderInterface;
  listeners : list (jsstring * nat)
}.

Definition setLoader (environment : TwingEnvironment)
    (l : TwingLoaderInterface) : TwingEnvironment :=
  {| getLoader := l; listeners := listeners environment |}.

Definition on (environment : TwingEnvironment) (event : jsstring)
    (listener : nat) : TwingEnvironment :=
  {| getLoader := getLoader environment;
     listeners := listeners environment ++ [(event, listener)] |}.

(** The identity of a function created now: one no subscription has. *)
Definition fresh (environment : TwingEnvironment) : nat :=
  S (max_list (listeners environment).*2).

(** ** The host: webpack's loader context and the options *)

Record LoaderContext := {
  mode : jsstring;
  resourcePath : jsstring;
  query : jsstring
}.

(** The options after [getOptions]; an absent [renderContext] is
    [undefined]. *)
Record OptionObject := {
  environmentModulePath : jsstring;
  renderContext : option (gmap (list Z) (list Z))
}.

(** What the source imports and does not define: [slash], crypto-js'
    [sha256], loader-utils' [getOptions], schema-utils' [validateOptions]
    against [optionsSchema], [require] of the environment module, the
    environment's [tokenize], [parse] and [compile], and the host's
    [callback], the function [this.async()] returns. A [Throw] is the call
    throwing: [sha256] throws on a string that is not well-formed UTF-16
    (crypto-js encodes it with [encodeURIComponent]); [callback] throws
    when the host does. [environment_getLoader], [environment_setLoader]
    and [environment_on] say whether the call of that method on the
    required module throws (its effect on the environment is [setLoader]
    and [on] above). *)
Class Externals := {
  slash : jsstring → jsstring;
  sha256 : jsstring → result hex.WordArray;
  callback : result jsstring → result ();
  getOptions : LoaderContext → result OptionObject;
  validateOptions : OptionObject → result ();
  require : jsstring → result ();
  environment_getLoader : result ();
  environment_setLoader : TwingLoaderInterface → result ();
  environment_on : jsstring → result ();
  TwingTokenStream : Type;
  TwingNodeModule : Type;
  tokenize : TwingSource → result TwingTokenStream;
  parse : TwingTokenStream → result TwingNodeModule;
  compile : TwingNodeModule → result jsstring
}.

(** ** The invocation as a machine

    The default export runs synchronously up to its first promise; the
    reactions it has registered ([.then], [.catch], the ['template']
    listener) run later, when the engine settles a promise or emits a
    notification. [Action] is what the invocation does, in order; [Event]
    is what happens to it from outside. *)

Inductive Action :=
| AddDependency (path : jsstring)
| Callback (r : result jsstring)
| Require (path : jsstring)
| Push (part : jsstring)
| Tokenize (sourceContext : TwingSource)
| Parse
| GetTemplateNames
| FoundTemplateNames (r : result (list jsstring))
| Compile
| SetLoader (l : TwingLoaderInterface)
| On (event : jsstring)
| Render (name : jsstring) (context : gmap (list Z) (list Z))
| Rendered (r : result jsstring)
| PromiseAll (n : nat)
| Resolve (name : jsstring) (from : TwingSource)
| Resolved (i : nat) (r : result jsstring).

(** An element of [addDependencyTasks]: the promise
    [newLoader.resolve(name, from).then((path) => this.addDependency(path))]. *)
Inductive Task :=
| Resolving (name : jsstring) (from : TwingSource)
| Fulfilled (path : jsstring)
| Rejected (e : Error).

Inductive Event :=
| TemplateNamesSettle (r : result (list jsstring))
| RenderSettle (r : result jsstring)
| RenderReaction
| AllFulfilled
| AllRejected (i : nat)
| Emit (event : jsstring) (name : jsstring) (from : TwingSource)
| ResolveSettle (i : nat) (r : result jsstring).

(** What the host has been told, in order: the paths given to
    [this.addDependency] and the arguments of [callback]. *)
Definition dependencies (tr : list Action) : list jsstring :=
  omap (λ act, match act with AddDependency path => Some path | _ => None end) tr.

Definition callbacks (tr : list Action) : list (result jsstring) :=
  omap (λ act, match act with Callback r => Some r | _ => None end) tr.

(** The number of times the ['template'] listener has run. *)
Definition resolves (tr : list Action) : nat :=
  length (omap (λ act, match act with Resolve _ _ => Some () | _ => None end) tr).

(** [x] and, right after it, [y] are in the trace. *)
Definition adjacent (x y : Action) (tr : list Action) : Prop :=
  ∃ before after, tr = before ++ x :: y :: after.

Section Invocation.
Context {E : Externals}.

(** Where the invocation stands: done with the callback (no reaction that
    calls it is left to run; tasks of the listener may still settle),
    waiting for the visitor's names (with the variables the reaction closes
    over), waiting for the render promise, between its settling and its
    reaction, or inside [await Promise.all(addDependencyTasks)] over the
    first [n] tasks. *)
Inductive Pc :=
| Done
| AwaitTemplateNames (parts : list jsstring) (key : jsstring)
    (nodeModule : TwingNodeModule)
| AwaitRender
| RenderSettled (r : result jsstring)
| Joining (renderedTemplate : jsstring) (n : nat).

(** [listener] is the arrow function given to [environment.on], once it
    exists: its identity and the [newLoader] it closes over. *)
Record State := {
  pc : Pc;
  environment : TwingEnvironment;
  listener : option (nat * TwingLoaderInterface);
  addDependencyTasks : list Task;
  trace : list Action
}.

(** [getTemplateHash]; it throws when [sha256] does. *)
Definition getTemplateHash (this : LoaderContext) (name : jsstring) :
    result jsstring :=
  if bool_decide (mode this ≠ js "production") then Ok name
  else digest ← sha256 name; Ok (hex.stringify digest).

(** *** The parts of the generated modules *)

Definition environment_part (environmentModulePath : jsstring) : jsstring :=
  js "const env = require('" ++ slash environmentModulePath ++ js "');".

Definition templatesModule_part (precompiledTemplate : jsstring) : jsstring :=
  join nl
    [ [];
      line 20 "const templatesModule = (() => {";
      line 20 "const module = {";
      line 24 "exports: undefined";
      line 20 "};";
      [];
      blanks 20 ++ precompiledTemplate;
      [];
      line 20 "return module.exports;";
      line 20 "})();";
      blanks 16 ].

Definition require_part (foundTemplateName : jsstring) : jsstring :=
  js "require('" ++ slash foundTemplateName ++ js "');".

Definition register_part (key : jsstring) : jsstring :=
  js "env.registerTemplatesModule(templatesModule, '" ++ key ++ js "');".

Definition renderTemplate_part (key : jsstring) : jsstring :=
  join nl
    [ [];
      line 20 "const renderTemplate = (context = {}) => {";
      blanks 22 ++ js "const name = '" ++ key ++ js "';";
      line 22 "env.emit('template', name);";
      line 22 "const template = env.loadedTemplates.get(name);";
      line 22 "return template.render(context);";
      line 20 "};";
      [];
      line 20 "module.exports = renderTemplate;";
      blanks 16 ].

Definition rendered_module (renderedTemplate : jsstring) : jsstring :=
  js "module.exports = " ++ JSON.stringify renderedTemplate ++ js ";".

(** *** The synchronous part *)

(** [callback(r)] inside [handlers] nested handlers ([catch] blocks and
    [.catch] reactions), each of which calls [callback] with what it has
    caught: when the call throws and a handler is left, the handler calls
    [callback] with the exception, inside the handlers that are left; when
    the last call throws, the exception is nobody's. *)
Fixpoint calls (handlers : nat) (r : result jsstring) : list Action :=
  Callback r ::
  match handlers, callback r with
  | S handlers, Throw error => calls handlers (Throw error)
  | _, _ => []
  end.

(** The invocation ends at a [return] of the default export: [acts]
    happened, and no reaction is registered. The [callback(error)] of a
    [catch] block of the synchronous part is inside no handler: when it
    throws, the exception leaves the call. *)
Definition finish (environment : TwingEnvironment) (tr acts : list Action) : State :=
  {| pc := Done; environment := environment; listener := None;
     addDependencyTasks := []; trace := tr ++ acts |}.

(** [parts.push(part)], on the array and in the trace. *)
Definition push (st : list jsstring * list Action) (part : jsstring) :
    list jsstring * list Action :=
  (st.1 ++ [part], st.2 ++ [Push part]).

(** The branch [renderContext === undefined], up to
    [visitor.getTemplateNames(nodeModule)]. *)
Definition precompile (this : LoaderContext) (source : jsstring)
    (environment : TwingEnvironment) (environmentModulePath resourcePath : jsstring)
    (tr : list Action) : State :=
  let '(parts, tr) := push ([], tr) (environment_part environmentModulePath) in
  match getTemplateHash this resourcePath with
  | Throw error => finish environment tr [Callback (Throw error)]
  | Ok key =>
      let sourceContext :=
        {| getCode := source; getName := key; resolvedPath := None |} in
      let tr := tr ++ [Tokenize sourceContext] in
      match tokenize sourceContext with
      | Throw error => finish environment tr [Callback (Throw error)]
      | Ok tokenStream =>
          let tr := tr ++ [Parse] in
          match parse tokenStream with
          | Throw error => finish environment tr [Callback (Throw error)]
          | Ok nodeModule =>
              {| pc := AwaitTemplateNames parts key nodeModule;
                 environment := environment; listener := None;
                 addDependencyTasks := [];
                 trace := tr ++ [GetTemplateNames] |}
          end
      end
  end.

(** The other branch, up to [environment.render(resourcePath, renderContext)]. *)
Definition render (source : jsstring) (environment : TwingEnvironment)
    (resourcePath : jsstring) (renderContext : gmap (list Z) (list Z))
    (twingLoader : TwingLoaderInterface) (tr : list Action) : State :=
  let chain :=
    TwingLoaderChain
      [PathSupportingArrayLoader {[ resourcePath := source ]}; twingLoader] in
  let tr := tr ++ [SetLoader chain] in
  match environment_setLoader chain with
  | Throw error => finish environment tr [Callback (Throw error)]
  | Ok _ =>
      let environment := setLoader environment chain in
      match environment_getLoader with
      | Throw error => finish environment tr [Callback (Throw error)]
      | Ok _ =>
          let newLoader := getLoader environment in
          let tr := tr ++ [On (js "template")] in
          match environment_on (js "template") with
          | Throw error => finish environment tr [Callback (Throw error)]
          | Ok _ =>
              let id := fresh environment in
              let environment := on environment (js "template") id in
              {| pc := AwaitRender; environment := environment;
                 listener := Some (id, newLoader); addDependencyTasks := [];
                 trace := tr ++ [Render resourcePath renderContext] |}
          end
      end
  end.

(** The default export, from its first statement to its [return]. *)
Definition loader (this : LoaderContext) (source : jsstring)
    (environment : TwingEnvironment) : State :=
  match getOptions this with
  | Throw error => finish environment [] [Callback (Throw error)]
  | Ok options =>
      match validateOptions options with
      | Throw error => finish environment [] [Callback (Throw error)]
      | Ok _ =>
          let resourcePath := slash (resourcePath this) in
          let environmentModulePath := environmentModulePath options in
          let renderContext := renderContext options in
          let tr := [AddDependency (slash environmentModulePath);
                     Require (slash environmentModulePath)] in
          match require (slash environmentModulePath) with
          | Throw error => finish environment tr [Callback (Throw error)]
          | Ok _ =>
              match environment_getLoader with
              | Throw error => finish environment tr [Callback (Throw error)]
              | Ok _ =>
                  let twingLoader := getLoader environment in
                  match renderContext with
                  | None =>
                      precompile this source environment environmentModulePath
                        resourcePath tr
                  | Some renderContext =>
                      render source environment resourcePath renderContext
                        twingLoader tr
                  end
              end
          end
      end
  end.

(** *** The reactions *)

Definition goto (σ : State) (p : Pc) (acts : list Action) : State :=
  {| pc := p; environment := environment σ; listener := listener σ;
     addDependencyTasks := addDependencyTasks σ; trace := trace σ ++ acts |}.

(** [.then((foundTemplateNames) => ...)] and [.catch] of the precompile
    branch, once the visitor's promise has settled with [r]. The [.catch]
    handles what the [.then] throws, [callback(null, ...)] included; what
    its own [callback(error)] throws is nobody's. *)
Definition foundTemplateNames_reaction (σ : State) (parts : list jsstring)
    (key : jsstring) (nodeModule : TwingNodeModule)
    (r : result (list jsstring)) : State :=
  match r with
  | Throw error => goto σ Done [FoundTemplateNames r; Callback (Throw error)]
  | Ok foundTemplateNames =>
      let tr := [FoundTemplateNames r; Compile] in
      match compile nodeModule with
      | Throw error => goto σ Done (tr ++ [Callback (Throw error)])
      | Ok precompiledTemplate =>
          let st := push (parts, tr) (templatesModule_part precompiledTemplate) in
          let st :=
            foldl (λ st foundTemplateName, push st (require_part foundTemplateName))
              st foundTemplateNames in
          let st := push st (register_part key) in
          let '(parts, tr) := push st (renderTemplate_part key) in
          goto σ Done (tr ++ calls 1 (Ok (join nl parts)))
      end
  end.

(** The ['template'] listener: one more element of [addDependencyTasks]. *)
Definition template_listener (newLoader : TwingLoaderInterface)
    (name : jsstring) (from : TwingSource) (σ : State) : State :=
  {| pc := pc σ; environment := environment σ; listener := listener σ;
     addDependencyTasks := addDependencyTasks σ ++ [Resolving name from];
     trace := trace σ ++ [Resolve name from] |}.

(** [environment.emit(event, name, from)] by the engine: the listener of
    this invocation runs once for each of its subscriptions to [event]; the
    listeners of others leave the invocation as it is. *)
Definition emit (event name : jsstring) (from : TwingSource) (σ : State) : State :=
  match listener σ with
  | Some (id, newLoader) =>
      foldl
        (λ σ (sub : jsstring * nat),
           if bool_decide (sub = (event, id))
           then template_listener newLoader name from σ else σ)
        σ (listeners (environment σ))
  | None => σ
  end.

(** [newLoader.resolve(name, from)] of task [i] settles with [r]; on a path,
    [.then((path) => this.addDependency(path))] runs and fulfils the task. *)
Definition resolve_settle (σ : State) (i : nat) (r : result jsstring) : option State :=
  match addDependencyTasks σ !! i with
  | Some (Resolving _ _) =>
      match r with
      | Ok path =>
          Some {| pc := pc σ; environment := environment σ; listener := listener σ;
                  addDependencyTasks := <[i := Fulfilled path]> (addDependencyTasks σ);
                  trace := trace σ ++ [Resolved i r; AddDependency path] |}
      | Throw e =>
          Some {| pc := pc σ; environment := environment σ; listener := listener σ;
                  addDependencyTasks := <[i := Rejected e]> (addDependencyTasks σ);
                  trace := trace σ ++ [Resolved i r] |}
      end
  | _ => None
  end.

Definition is_Fulfilled (t : Task) : bool :=
  match t with Fulfilled _ => true | _ => false end.

(** One event; [None] when the event cannot happen in [σ]. The render
    promise's reaction calls [Promise.all] on the tasks collected so far;
    the [await] resumes when all of them are fulfilled, or throws the
    reason of a rejected one. [callback(null, ...)] is inside the [try]
    and the [.catch]; the [callback(error)] of the [catch] block inside
    the [.catch]; the [callback(error)] of the [.catch] itself, which a
    rejected render promise reaches, inside nothing. *)
Definition step (σ : State) (ev : Event) : option State :=
  match ev with
  | TemplateNamesSettle r =>
      match pc σ with
      | AwaitTemplateNames parts key nodeModule =>
          Some (foundTemplateNames_reaction σ parts key nodeModule r)
      | _ => None
      end
  | RenderSettle r =>
      match pc σ with
      | AwaitRender => Some (goto σ (RenderSettled r) [Rendered r])
      | _ => None
      end
  | RenderReaction =>
      match pc σ with
      | RenderSettled (Ok renderedTemplate) =>
          let n := length (addDependencyTasks σ) in
          Some (goto σ (Joining renderedTemplate n) [PromiseAll n])
      | RenderSettled (Throw error) => Some (goto σ Done [Callback (Throw error)])
      | _ => None
      end
  | AllFulfilled =>
      match pc σ with
      | Joining renderedTemplate n =>
          if forallb is_Fulfilled (take n (addDependencyTasks σ))
          then Some (goto σ Done (calls 2 (Ok (rendered_module renderedTemplate))))
          else None
      | _ => None
      end
  | AllRejected i =>
      match pc σ, addDependencyTasks σ !! i with
      | Joining _ n, Some (Rejected error) =>
          if bool_decide (i < n)%nat
          then Some (goto σ Done (calls 1 (Throw error)))
          else None
      | _, _ => None
      end
  | Emit event name from => Some (emit event name from σ)
  | ResolveSettle i r => resolve_settle σ i r
  end.

(** A sequence of events, from left to right. *)
Fixpoint run (σ : State) (evs : list Event) : option State :=
  match evs with
  | [] => Some σ
  | ev :: evs => σ' ← step σ ev; run σ' evs
  end.

(** The same steps as a relation, one constructor for each way an event
    changes the state. *)
Inductive transition (σ : State) : State → Prop :=
| names_settle parts key nodeModule r :
    pc σ = AwaitTemplateNames parts key nodeModule →
    transition σ (foundTemplateNames_reaction σ parts key nodeModule r)
| render_settle r :
    pc σ = AwaitRender →
    transition σ (goto σ (RenderSettled r) [Rendered r])
| render_fulfilled renderedTemplate :
    pc σ = RenderSettled (Ok renderedTemplate) →
    transition σ
      (goto σ (Joining renderedTemplate (length (addDependencyTasks σ)))
         [PromiseAll (length (addDependencyTasks σ))])
| render_rejected error :
    pc σ = RenderSettled (Throw error) →
    transition σ (goto σ Done [Callback (Throw error)])
| all_fulfilled renderedTemplate n :
    pc σ = Joining renderedTemplate n →
    forallb is_Fulfilled (take n (addDependencyTasks σ)) = true →
    transition σ (goto σ Done (calls 2 (Ok (rendered_module renderedTemplate))))
| all_rejected renderedTemplate n i error :
    pc σ = Joining renderedTemplate n →
    addDependencyTasks σ !! i = Some (Rejected error) →
    (i < n)%nat →
    transition σ (goto σ Done (calls 1 (Throw error)))
| emitted event name from :
    transition σ (emit event name from σ)
| resolve_fulfilled i name from path :
    addDependencyTasks σ !! i = Some (Resolving name from) →
    transition σ
      {| pc := pc σ; environment := environment σ; listener := listener σ;
         addDependencyTasks := <[i := Fulfilled path]> (addDependencyTasks σ);
         trace := trace σ ++ [Resolved i (Ok path); AddDependency path] |}
| resolve_rejected i name from e :
    addDependencyTasks σ !! i = Some (Resolving name from) →
    transition σ
      {| pc := pc σ; environment := environment σ; listener := listener σ;
         addDependencyTasks := <[i := Rejected e]> (addDependencyTasks σ);
         trace := trace σ ++ [Resolved i (Throw e)] |}.

(** What the trace before a successful callback of the render branch
    looks like: the render promise was fulfilled, then [Promise.all] was
    called on the [n] tasks the listener had created until then, and each
    of these tasks has resolved to a path and declared it. *)
Definition joined (pre : list Action) (text : jsstring) : Prop :=
  ∃ renderedTemplate n before after,
    text = rendered_module renderedTemplate
    ∧ pre = before ++ PromiseAll n :: after
    ∧ Rendered (Ok renderedTemplate) ∈ before
    ∧ resolves before = n
    ∧ ∀ i, (i < n)%nat →
        ∃ path, adjacent (Resolved i (Ok path)) (AddDependency path) pre.

(** What holds in every state of an invocation with a render context. *)
Definition render_invariant (σ : State) : Prop :=
  (∀ parts key nodeModule, pc σ ≠ AwaitTemplateNames parts key nodeModule)
  ∧ length (addDependencyTasks σ) = resolves (trace σ)
  ∧ (∀ i path, addDependencyTasks σ !! i = Some (Fulfilled path) →
       adjacent (Resolved i (Ok path)) (AddDependency path) (trace σ))
  ∧ match pc σ with
    | RenderSettled r => Rendered r ∈ trace σ
    | Joining renderedTemplate n =>
        ∃ before after,
          trace σ = before ++ PromiseAll n :: after
          ∧ Rendered (Ok renderedTemplate) ∈ before
          ∧ resolves before = n
    | _ => True
    end
  ∧ (∀ pre text post,
       trace σ = pre ++ Callback (Ok text) :: post → joined pre text).

(** The two shapes of a generated module, written out character for
    character, for a module path, a compiled fragment, the modules to
    require and a key, and for a rendered string. They are what the texts
    the code builds are compared with. *)
Definition precompile_text (environmentModulePath precompiledTemplate : jsstring)
    (requires : list jsstring) (key : jsstring) : jsstring :=
  js "const env = require('" ++ environmentModulePath ++ js "');" ++ nl
  ++ nl
  ++ line 20 "const templatesModule = (() => {" ++ nl
  ++ line 20 "const module = {" ++ nl
  ++ line 24 "exports: undefined" ++ nl
  ++ line 20 "};" ++ nl
  ++ nl
  ++ blanks 20 ++ precompiledTemplate ++ nl
  ++ nl
  ++ line 20 "return module.exports;" ++ nl
  ++ line 20 "})();" ++ nl
  ++ blanks 16 ++ nl
  ++ concat ((λ name, js "require('" ++ name ++ js "');" ++ nl) <$> requires)
  ++ js "env.registerTemplatesModule(templatesModule, '" ++ key ++ js "');" ++ nl
  ++ nl
  ++ line 20 "const renderTemplate = (context = {}) => {" ++ nl
  ++ blanks 22 ++ js "const name = '" ++ key ++ js "';" ++ nl
  ++ line 22 "env.emit('template', name);" ++ nl
  ++ line 22 "const template = env.loadedTemplates.get(name);" ++ nl
  ++ line 22 "return template.render(context);" ++ nl
  ++ line 20 "};" ++ nl
  ++ nl
  ++ line 20 "module.exports = renderTemplate;" ++ nl
  ++ blanks 16.

Definition precompile_shape (text : jsstring) : Prop :=
  ∃ environmentModulePath precompiledTemplate requires key,
    text = precompile_text environmentModulePath precompiledTemplate requires key.

Definition render_shape (text : jsstring) : Prop :=
  ∃ renderedTemplate,
    text = js "module.exports = " ++ JSON.stringify renderedTemplate ++ js ";".

(** The states an invocation of the default export can be in. *)
Definition reachable (this : LoaderContext) (source : jsstring)
    (environment : TwingEnvironment) (σ : State) : Prop :=
  ∃ evs, run (loader this source environment) evs = Some σ.

End Invocation.

(** What a module of the render branch exports when evaluated: the text
    must be [module.exports = ], a string literal and [;]. *)
Definition exported_string (text : jsstring) : option jsstring :=
  let prefix := js "module.exports = " in
  if bool_decide (take (length prefix) text = prefix) then
    '(value, after) ← StringLiteral.eval (drop (length prefix) text);
    if bool_decide (after = js ";") then Some value else None
  else None.

(** ** An instance of the externals

    SHA-256 (FIPS 180-4) on the UTF-8 bytes of a string, as crypto-js'
    [sha256] computes it (a digest of eight 32-bit words, [sigBytes] 32; a
    [URIError] for a string with a surrogate that is not part of a pair),
    the [slash] package, a small engine whose tokenizer rejects a tag left
    open, and a host whose callback returns. The general statements below
    do not depend on it; it is what the examples are evaluated with. *)

Module SHA256.

Definition add32 (a b : Z) : Z := (a + b) mod 2 ^ 32.
Definition rotr (n x : Z) : Z :=
  Z.lor (Z.shiftr x n) (Z.shiftl x (32 - n) mod 2 ^ 32).
Definition not32 (x : Z) : Z := Z.lxor x 0xffffffff.

Definition Ch (x y z : Z) : Z := Z.lxor (Z.land x y) (Z.land (not32 x) z).
Definition Maj (x y z : Z) : Z :=
  Z.lxor (Z.lxor (Z.land x y) (Z.land x z)) (Z.land y z).
Definition Sigma0 (x : Z) : Z := Z.lxor (Z.lxor (rotr 2 x) (rotr 13 x)) (rotr 22 x).
Definition Sigma1 (x : Z) : Z := Z.lxor (Z.lxor (rotr 6 x) (rotr 11 x)) (rotr 25 x).
Definition sigma0 (x : Z) : Z := Z.lxor (Z.lxor (rotr 7 x) (rotr 18 x)) (Z.shiftr x 3).
Definition sigma1 (x : Z) : Z := Z.lxor (Z.lxor (rotr 17 x) (rotr 19 x)) (Z.shiftr x 10).

(** The first sixty-four primes. *)
Definition is_prime (n : nat) : bool :=
  forallb (λ d, negb (n mod d =? 0)%nat) (seq 2 (n - 2)).
Definition primes : list Z := Z.of_nat <$> List.filter is_prime (seq 2 310).

(** The integer part of the cube root of a number below [2 ^ 120]. *)
Definition cube_root (n : Z) : Z :=
  foldl (λ r b, let c := r + 2 ^ Z.of_nat b in if c * c * c <=? n then c else r)
    0 (rev (seq 0 40)).

(** The round constants: the first thirty-two bits of the fractional parts
    of the cube roots of the primes; the initial hash value: the same of the
    square roots of the first eight. *)
Definition K : list Z := (λ p, cube_root (p * 2 ^ 96) mod 2 ^ 32) <$> primes.
Definition H0 : list Z := (λ p, Z.sqrt (p * 2 ^ 64) mod 2 ^ 32) <$> take 8 primes.

Definition at_ (l : list Z) (i : nat) : Z := default 0 (l !! i).

(** UTF-8 bytes of a string, as [unescape(encodeURIComponent(s))] gives
    them; a surrogate pair is one code point, and there are none for a
    surrogate outside a pair ([encodeURIComponent] throws). *)
Fixpoint utf8 (s : jsstring) : option (list Z) :=
  match s with
  | [] => Some []
  | c :: rest =>
      if c <? 128 then (c ::.) <$> utf8 rest
      else if c <? 2048 then
        (λ bs, (192 + c / 64) :: (128 + c mod 64) :: bs) <$> utf8 rest
      else
        let three := [224 + c / 4096; 128 + c / 64 mod 64; 128 + c mod 64] in
        match rest with
        | d :: rest' =>
            if JSON.is_high_surrogate c && JSON.is_low_surrogate d then
              let p := 65536 + (c - 55296) * 1024 + (d - 56320) in
              ([240 + p / 262144; 128 + p / 4096 mod 64;
                128 + p / 64 mod 64; 128 + p mod 64] ++.) <$> utf8 rest'
            else if JSON.is_high_surrogate c || JSON.is_low_surrogate c then None
            else (three ++.) <$> utf8 rest
        | [] =>
            if JSON.is_high_surrogate c || JSON.is_low_surrogate c then None
            else Some three
        end
  end.

(** The message, the bit 1, zeros up to 56 modulo 64, and the length in
    bits as a 64-bit big-endian number. *)
Definition pad (m : list Z) : list Z :=
  let len := length m in
  let zeros := ((119 - len mod 64) mod 64)%nat in
  m ++ [128] ++ replicate zeros 0
    ++ map (λ i, Z.of_nat (8 * len) / 2 ^ (8 * (7 - Z.of_nat i)) mod 256) (seq 0 8).

(** Big-endian words of a block of bytes. *)
Fixpoint to_words (bs : list Z) : list Z :=
  match bs with
  | a :: b :: c :: d :: rest =>
      (a * 16777216 + b * 65536 + c * 256 + d) :: to_words rest
  | _ => []
  end.

Definition schedule (block : list Z) : list Z :=
  foldl
    (λ w t,
       w ++ [add32 (add32 (sigma1 (at_ w (t - 2))) (at_ w (t - 7)))
                   (add32 (sigma0 (at_ w (t - 15))) (at_ w (t - 16)))])
    (to_words block) (seq 16 48).

Definition round (k w : list Z) (s : list Z) (t : nat) : list Z :=
  match s with
  | [a; b; c; d; e; f; g; h] =>
      let T1 :=
        add32 (add32 (add32 h (Sigma1 e)) (add32 (Ch e f g) (at_ k t))) (at_ w t) in
      let T2 := add32 (Sigma0 a) (Maj a b c) in
      [add32 T1 T2; a; b; c; add32 d T1; e; f; g]
  | _ => s
  end.

Definition compress (k h : list Z) (block : list Z) : list Z :=
  zip_with add32 h (foldl (round k (schedule block)) h (seq 0 64)).

Fixpoint blocks (n : nat) (k h : list Z) (bs : list Z) : list Z :=
  match n with
  | O => h
  | S n => blocks n k (compress k h (take 64 bs)) (drop 64 bs)
  end.

Definition digest (m : list Z) : list Z :=
  let p := pad m in blocks (length p / 64) K H0 p.

Definition sha256 (s : jsstring) : result hex.WordArray :=
  match utf8 s with
  | Some message => Ok {| hex.words := digest message; hex.sigBytes := 32 |}
  | None => Throw (Err (js "URI malformed"))
  end.

End SHA256.

Module Slash.

(** The [slash] package: backslashes become slashes, unless the path is an
    extended-length path or has a character outside ASCII. *)
Definition slash (path : jsstring) : jsstring :=
  let isExtendedLengthPath :=
    bool_decide (take 4 path = [92; 92; 63; 92]) in
  let hasNonAscii := existsb (λ c, 128 <? c) path in
  if isExtendedLengthPath || hasNonAscii then path
  else map (λ c, if c =? 92 then 47 else c) path.

End Slash.

Module Demo.

(** Whether a [{{] or [{%] is left without its closing [}}] or [%}]. *)
Fixpoint unclosed (inside : bool) (s : jsstring) : bool :=
  match s with
  | [] => inside
  | c :: rest =>
      match rest with
      | d :: _ =>
          if (c =? 123) && ((d =? 123) || (d =? 37)) then unclosed true rest
          else if ((c =? 125) || (c =? 37)) && (d =? 125) then unclosed false rest
          else unclosed inside rest
      | [] => inside
      end
  end.

Definition externals (options : OptionObject) : Externals :=
  {| slash := Slash.slash;
     sha256 := SHA256.sha256;
     callback := λ _, Ok ();
     getOptions := λ _, Ok options;
     validateOptions := λ _, Ok ();
     require := λ _, Ok ();
     environment_getLoader := Ok ();
     environment_setLoader := λ _, Ok ();
     environment_on := λ _, Ok ();
     TwingTokenStream := list Z;
     TwingNodeModule := list Z;
     tokenize := λ source,
       if unclosed false (getCode source)
       then Throw (Err (js "Unclosed tag in " ++ getName source))
       else Ok (getCode source);
     parse := λ tokenStream, Ok tokenStream;
     compile := λ nodeModule, Ok (js "module.exports = null; /* " ++ nodeModule ++ js " */") |}.

Definition configured : ConfiguredLoader :=
  {| configured_getSourceContext := λ name _,
       Ok {| getCode := js "on disk"; getName := name; resolvedPath := Some name |} |}.

Definition environment : TwingEnvironment :=
  {| getLoader := Configured configured; listeners := [] |}.

Definition this (mode : string) : LoaderContext :=
  {| mode := js mode; resourcePath := js "C:\app\index.twig"; query := [] |}.

Definition precompile_options : OptionObject :=
  {| environmentModulePath := js "/app/env.js"; renderContext := None |}.

Definition render_options : OptionObject :=
  {| environmentModulePath := js "/app/env.js"; renderContext := Some ∅ |}.

(** A text with quotes, a backslash, a line break, a tab, a character
    outside ASCII, a surrogate pair, a lone surrogate and a line separator. *)
Definition awkward : jsstring :=
  js "say " ++ [34] ++ js "hi" ++ [34; 92; 10; 9; 233; 55357; 56832; 56832; 8232].

Definition from : TwingSource :=
  {| getCode := []; getName := js "index.twig"; resolvedPath := None |}.

(** The state after [evs], or the state at [return] if they cannot happen. *)
Definition after (options : OptionObject) (mode : string) (source : jsstring)
    (evs : list Event) : State (E := externals options) :=
  let start := loader (E := externals options) (this mode) source environment in
  default start (run start evs).

(** The text of the last successful callback, if any. *)
Definition module_text (tr : list Action) : jsstring :=
  match last (callbacks tr) with
  | Some (Ok text) => text
  | _ => []
  end.

(** The visitor finds two templates. *)
Definition precompile_events : list Event :=
  [ Emit (js "template") (js "partial.twig") from;
    TemplateNamesSettle (Ok [js "C:\app\a.twig"; js "/app/b.twig"]) ].

(** Two notifications, one before and one after the render promise is
    fulfilled; the second task resolves first. *)
Definition render_events : list Event :=
  [ Emit (js "template") (js "a.twig") from;
    RenderSettle (Ok awkward);
    Emit (js "template") (js "b.twig") from;
    ResolveSettle 1 (Ok (js "/app/b.twig"));
    RenderReaction;
    ResolveSettle 0 (Ok (js "/app/a.twig"));
    AllFulfilled ].

(** The render promise is rejected while a task is pending. *)
Definition render_failure_events : list Event :=
  [ Emit (js "template") (js "a.twig") from;
    RenderSettle (Throw (Err (js "Unclosed tag")));
    RenderReaction ].

Definition source : jsstring := js "hello {{ name }}".

(** A text whose tag is not closed. *)
Definition broken : jsstring := js "hello {{ name".

Definition precompile_externals : Externals := externals precompile_options.
Definition render_externals : Externals := externals render_options.

Definition precompiled : State (E := precompile_externals) :=
  after precompile_options "production" source precompile_events.

Definition parse_failed : State (E := precompile_externals) :=
  after precompile_options "development" broken [].

Definition rendered : State (E := render_externals) :=
  after render_options "development" source render_events.

Definition render_failed : State (E := render_externals) :=
  after render_options "development" source render_failure_events.

End Demo.

(** ** An instance whose calls can fail

    The externals of the demonstration, with the outcome of reading the
    options, of validating them, of requiring the environment module, of
    [getLoader], and of [compile] given. *)

Module Failing.

Definition externals (options : result OptionObject) (valid required got : result ())
    (compiled : result jsstring) (called : result jsstring → result ()) :
    Externals :=
  {| slash := Slash.slash;
     sha256 := SHA256.sha256;
     callback := called;
     getOptions := λ _, options;
     validateOptions := λ _, valid;
     require := λ _, required;
     environment_getLoader := got;
     environment_setLoader := λ _, Ok ();
     environment_on := λ _, Ok ();
     TwingTokenStream := list Z;
     TwingNodeModule := list Z;
     tokenize := λ source,
       if Demo.unclosed false (getCode source)
       then Throw (Err (js "Unclosed tag in " ++ getName source))
       else Ok (getCode source);
     parse := λ tokenStream, Ok tokenStream;
     compile := λ _, compiled |}.

Definition error : Error := Err (js "failed").

(** The options cannot be read; they are not valid; the environment module
    cannot be required; [compile] throws. *)
Definition no_options : Externals :=
  externals (Throw error) (Ok ()) (Ok ()) (Ok ()) (Ok []) (λ _, Ok ()).
Definition invalid_options : Externals :=
  externals (Ok Demo.precompile_options) (Throw error) (Ok ()) (Ok ()) (Ok [])
    (λ _, Ok ()).
Definition no_environment : Externals :=
  externals (Ok Demo.precompile_options) (Ok ()) (Throw error) (Ok ()) (Ok [])
    (λ _, Ok ()).
Definition no_compile : Externals :=
  externals (Ok Demo.precompile_options) (Ok ()) (Ok ()) (Ok ()) (Throw error)
    (λ _, Ok ()).

(** A host whose callback throws: on a module, and again on the error it
    has thrown itself. *)
Definition host_error : Error := Err (js "host threw").
Definition host_error_again : Error := Err (js "host threw again").

Definition hostile (r : result jsstring) : result () :=
  match r with
  | Ok _ => Throw host_error
  | Throw e =>
      if bool_decide (e = host_error) then Throw host_error_again else Ok ()
  end.

Definition hostile_render : Externals :=
  externals (Ok Demo.render_options) (Ok ()) (Ok ()) (Ok ()) (Ok []) hostile.
Definition hostile_precompile : Externals :=
  externals (Ok Demo.precompile_options) (Ok ()) (Ok ()) (Ok ()) (Ok []) hostile.

(** The state after [evs], or the state at [return] if they cannot happen. *)
Definition after (E : Externals) (source : jsstring) (evs : list Event) : State :=
  let start := loader (Demo.this "development") source Demo.environment in
  default start (run start evs).

End Failing.

(** ** Kinds of actions *)

(** The actions of the precompile branch, and those of the render branch. *)
Definition precompile_only (act : Action) : bool :=
  match act with
  | Push _ | Tokenize _ | Parse | GetTemplateNames | FoundTemplateNames _
  | Compile => true
  | _ => false
  end.

Definition render_only (act : Action) : bool :=
  match act with
  | SetLoader _ | On _ | Render _ _ | Rendered _ | PromiseAll _ | Resolve _ _
  | Resolved _ _ => true
  | _ => false
  end.

(** The path a task has declared, once fulfilled. *)
Definition declared (t : Task) : option jsstring :=
  match t with Fulfilled path => Some path | _ => None end.

(** What a failure reported to the callback goes back to: the set-up, the
    rejected render, a rejected task among those joined, or the call of the
    callback just before, which has thrown it. *)
Definition failure_cause {E : Externals} (pre : list Action) (error : Error) : Prop :=
  (∀ name context, Render name context ∉ pre)
  ∨ Rendered (Throw error) ∈ pre
  ∨ (∃ renderedTemplate n i,
       Rendered (Ok renderedTemplate) ∈ pre ∧ PromiseAll n ∈ pre
       ∧ (i < n)%nat ∧ Resolved i (Throw error) ∈ pre)
  ∨ ∃ before r, pre = before ++ [Callback r] ∧ callback r = Throw error.

(** ** The literals of the precompiled module *)

(** Evaluation of the characters of a single-quoted string literal
    (ECMA-262, SingleStringCharacters) up to the closing quote, with the
    escapes of [StringLiteral]. The generated module puts the key and the
    paths between single quotes as they are. *)

Module SingleQuoted.

(** A character that stands for itself between single quotes. *)
Definition plain (c : Z) : bool :=
  negb ((c =? 39) || (c =? 92) || (c =? 10) || (c =? 13)).

Fixpoint chars (s : jsstring) : option (jsstring * jsstring) :=
  match s with
  | [] => None
  | c :: rest =>
      if c =? 39 then Some ([], rest)
      else if (c =? 10) || (c =? 13) then None
      else if c =? 92 then
        match rest with
        | e :: rest1 =>
            if e =? 117 then
              match rest1 with
              | a :: b :: c' :: d :: rest2 =>
                  va ← StringLiteral.hex_value a; vb ← StringLiteral.hex_value b;
                  vc ← StringLiteral.hex_value c'; vd ← StringLiteral.hex_value d;
                  '(v, after) ← chars rest2;
                  Some ((va * 4096 + vb * 256 + vc * 16 + vd) :: v, after)
              | _ => None
              end
            else
              u ← StringLiteral.escape_value e;
              '(v, after) ← chars rest1;
              Some (u :: v, after)
        | [] => None
        end
      else
        '(v, after) ← chars rest;
        Some (c :: v, after)
  end.

Definition eval (s : jsstring) : option (jsstring * jsstring) :=
  match s with
  | c :: rest => if c =? 39 then chars rest else None
  | [] => None
  end.

End SingleQuoted.

(** The string a statement [prefix'...'suffix] passes, when the text is
    read as the prefix, one single-quoted literal and the suffix; [None]
    says only that the text is not of this form. *)
Definition quoted_argument (prefix suffix text : jsstring) : option jsstring :=
  if bool_decide (take (length prefix) text = prefix) then
    '(value, after) ← SingleQuoted.eval (drop (length prefix) text);
    if bool_decide (after = suffix) then Some value else None
  else None.

(** The name [env.registerTemplatesModule(templatesModule, '...');]
    registers the templates under, for a statement of just this form: one
    single-quoted literal between the two texts. [None] for every other
    text, whether it is a program or not. *)
Definition registered_name (part : jsstring) : option jsstring :=
  quoted_argument (js "env.registerTemplatesModule(templatesModule, ") (js ");") part.

(** The module [require('...');] asks for. *)
Definition required_name (part : jsstring) : option jsstring :=
  quoted_argument (js "require(") (js ");") part.

(** The byte a pair of hexadecimal digits stands for. *)
Definition hex_byte (hi lo : Z) : option Z :=
  h ← StringLiteral.hex_value hi; l ← StringLiteral.hex_value lo; Some (h * 16 + l).

(** The bytes of a text of hexadecimal digits; [None] if a digit is missing
    or is none. *)
Fixpoint hex_parse (s : jsstring) : option (list Z) :=
  match s with
  | [] => Some []
  | hi :: lo :: rest => b ← hex_byte hi lo; bs ← hex_parse rest; Some (b :: bs)
  | _ => None
  end.

(** The bytes of a word array, as [hex.stringify] reads them. *)
Definition bytes (wa : hex.WordArray) : list Z :=
  hex.bite (hex.words wa) <$> seq 0 (hex.sigBytes wa).

(** ** One environment for all invocations *)

Section Builds.
Context {E : Externals}.

(** [require] caches the environment module: every invocation of a build
    gets the same object, in the state the synchronous parts of the
    invocations before it have left it in (no later step of an invocation
    touches the environment). *)
Fixpoint environment_after (env0 : TwingEnvironment)
    (invocations : list (LoaderContext * jsstring)) : TwingEnvironment :=
  match invocations with
  | [] => env0
  | (this, source) :: rest =>
      environment_after (environment (loader this source env0)) rest
  end.

(** The set-up of an invocation with a render context succeeds. *)
Definition renders (this : LoaderContext) : Prop :=
  ∃ options renderContext',
    getOptions this = Ok options ∧ validateOptions options = Ok ()
    ∧ require (slash (environmentModulePath options)) = Ok ()
    ∧ renderContext options = Some renderContext'.

End Builds.

(** ** The revision before the set-up was guarded *)

(** [part_001]: the default export without [try] around the set-up and
    without a handler for a rejected render or a rejected task. *)

Module Part001.
Section Invocation.
Context {E : Externals}.

(** What a call of the default export comes to: it returns, or an exception
    leaves it, after [tr], with the environment as it then is. *)
Inductive Outcome :=
| Returned (σ : State)
| Thrown (environment : TwingEnvironment) (tr : list Action) (error : Error).

(** The branch [renderContext === undefined], up to
    [visitor.getTemplateNames(nodeModule)]; the first part is in the array
    from the start, and the key is computed before the [try]: when
    [getTemplateHash] throws, the exception leaves the call. *)
Definition precompile (this : LoaderContext) (source : jsstring)
    (environment : TwingEnvironment) (environmentModulePath resourcePath : jsstring)
    (tr : list Action) : Outcome :=
  let parts := [environment_part environmentModulePath] in
  match getTemplateHash this resourcePath with
  | Throw error => Thrown environment tr error
  | Ok key =>
      let sourceContext :=
        {| getCode := source; getName := key; resolvedPath := None |} in
      let tr := tr ++ [Tokenize sourceContext] in
      match tokenize sourceContext with
      | Throw error => Returned (finish environment tr [Callback (Throw error)])
      | Ok tokenStream =>
          let tr := tr ++ [Parse] in
          match parse tokenStream with
          | Throw error => Returned (finish environment tr [Callback (Throw error)])
          | Ok nodeModule =>
              Returned
                {| pc := AwaitTemplateNames parts key nodeModule;
                   environment := environment; listener := None;
                   addDependencyTasks := [];
                   trace := tr ++ [GetTemplateNames] |}
          end
      end
  end.

(** The other branch, up to [environment.render(resourcePath, renderContext)]. *)
Definition render (source : jsstring) (environment : TwingEnvironment)
    (resourcePath : jsstring) (renderContext : gmap (list Z) (list Z))
    (twingLoader : TwingLoaderInterface) (tr : list Action) : Outcome :=
  let chain :=
    TwingLoaderChain
      [PathSupportingArrayLoader {[ resourcePath := source ]}; twingLoader] in
  let tr := tr ++ [SetLoader chain] in
  match environment_setLoader chain with
  | Throw error => Thrown environment tr error
  | Ok _ =>
      let environment := setLoader environment chain in
      match environment_getLoader with
      | Throw error => Thrown environment tr error
      | Ok _ =>
          let newLoader := getLoader environment in
          let tr := tr ++ [On (js "template")] in
          match environment_on (js "template") with
          | Throw error => Thrown environment tr error
          | Ok _ =>
              let id := fresh environment in
              let environment := on environment (js "template") id in
              Returned
                {| pc := AwaitRender; environment := environment;
                   listener := Some (id, newLoader); addDependencyTasks := [];
                   trace := tr ++ [Render resourcePath renderContext] |}
          end
      end
  end.

(** The default export, from its first statement to its [return]. *)
Definition loader (this : LoaderContext) (source : jsstring)
    (environment : TwingEnvironment) : Outcome :=
  match getOptions this with
  | Throw error => Thrown environment [] error
  | Ok options =>
      match validateOptions options with
      | Throw error => Thrown environment [] error
      | Ok _ =>
          let resourcePath := slash (resourcePath this) in
          let environmentModulePath := environmentModulePath options in
          let renderContext := renderContext options in
          let tr := [AddDependency (slash environmentModulePath);
                     Require (slash environmentModulePath)] in
          match require (slash environmentModulePath) with
          | Throw error => Thrown environment tr error
          | Ok _ =>
              match environment_getLoader with
              | Throw error => Thrown environment tr error
              | Ok _ =>
                  let twingLoader := getLoader environment in
                  match renderContext with
                  | None =>
                      precompile this source environment environmentModulePath
                        resourcePath tr
                  | Some renderContext =>
                      render source environment resourcePath renderContext
                        twingLoader tr
                  end
              end
          end
      end
  end.

(** One event. The reactions of the precompile branch, the listener and
    the tasks are those of the current revision. The reaction of the render
    promise has no [try] and no [.catch]: a rejected render and a rejected
    join have no reaction, and what [callback(null, ...)] throws is
    nobody's; after any of them no reaction of the invocation is left. *)
Definition step (σ : State) (ev : Event) : option State :=
  match ev with
  | RenderReaction =>
      match pc σ with
      | RenderSettled (Ok renderedTemplate) =>
          let n := length (addDependencyTasks σ) in
          Some (goto σ (Joining renderedTemplate n) [PromiseAll n])
      | RenderSettled (Throw error) => Some (goto σ Done [])
      | _ => None
      end
  | AllFulfilled =>
      match pc σ with
      | Joining renderedTemplate n =>
          if forallb is_Fulfilled (take n (addDependencyTasks σ))
          then Some (goto σ Done [Callback (Ok (rendered_module renderedTemplate))])
          else None
      | _ => None
      end
  | AllRejected i =>
      match pc σ, addDependencyTasks σ !! i with
      | Joining _ n, Some (Rejected error) =>
          if bool_decide (i < n)%nat then Some (goto σ Done []) else None
      | _, _ => None
      end
  | _ => step σ ev
  end.

Fixpoint run (σ : State) (evs : list Event) : option State :=
  match evs with
  | [] => Some σ
  | ev :: evs => σ' ← step σ ev; run σ' evs
  end.

(** The states an invocation that has returned can be in. *)
Definition reachable (this : LoaderContext) (source : jsstring)
    (environment : TwingEnvironment) (σ : State) : Prop :=
  ∃ σ0 evs, loader this source environment = Returned σ0 ∧ run σ0 evs = Some σ.

End Invocation.
End Part001.

(** The calls of [parts.push] left out of a trace. *)
Definition without_pushes (tr : list Action) : list Action :=
  List.filter (λ act, match act with Push _ => false | _ => true end) tr.

(** The results of the render promise and the sizes of the joins in a
    trace. *)
Definition rendereds (tr : list Action) : list (result jsstring) :=
  omap (λ act, match act with Rendered r => Some r | _ => None end) tr.

Definition joins (tr : list Action) : list nat :=
  omap (λ act, match act with PromiseAll n => Some n | _ => None end) tr.

Section Part001Invariant.
Context {E : Externals}.

(** What holds in every state of an invocation of [part_001] with a render
    context: a rejection is kept by its task, and the callback has been
    called only with a module, after a join of fulfilled tasks. *)
Definition part001_invariant (σ : State) : Prop :=
  (∀ i error, Resolved i (Throw error) ∈ trace σ →
     addDependencyTasks σ !! i = Some (Rejected error))
  ∧ match pc σ with
    | AwaitTemplateNames _ _ _ => False
    | AwaitRender =>
        callbacks (trace σ) = [] ∧ rendereds (trace σ) = [] ∧ joins (trace σ) = []
    | RenderSettled r =>
        callbacks (trace σ) = [] ∧ rendereds (trace σ) = [r] ∧ joins (trace σ) = []
    | Joining renderedTemplate n =>
        callbacks (trace σ) = [] ∧ rendereds (trace σ) = [Ok renderedTemplate]
        ∧ joins (trace σ) = [n] ∧ (n ≤ length (addDependencyTasks σ))%nat
    | Done =>
        callbacks (trace σ) = []
        ∨ ∃ renderedTemplate n,
            callbacks (trace σ) = [Ok (rendered_module renderedTemplate)]
            ∧ rendereds (trace σ) = [Ok renderedTemplate]
            ∧ joins (trace σ) = [n]
            ∧ ∀ i, (i < n)%nat →
                ∃ path, addDependencyTasks σ !! i = Some (Fulfilled path)
    end.

(** Two states of the precompile branch that differ in the calls of
    [parts.push] the trace has recorded, and in nothing the host or the
    reactions can see. *)
Definition precompile_alike (σ σ' : State) : Prop :=
  pc σ = pc σ'
  ∧ (pc σ = Done ∨ ∃ parts key nodeModule, pc σ = AwaitTemplateNames parts key nodeModule)
  ∧ environment σ = environment σ'
  ∧ listener σ = None ∧ listener σ' = None
  ∧ addDependencyTasks σ = [] ∧ addDependencyTasks σ' = []
  ∧ callbacks (trace σ) = callbacks (trace σ')
  ∧ dependencies (trace σ) = dependencies (trace σ')
  ∧ without_pushes (trace σ) = without_pushes (trace σ').

End Part001Invariant.

(** ** More invocations of the demonstration *)

Module Runs.

(** The visitor's promise is rejected. *)
Definition names_rejected : State (E := Demo.precompile_externals) :=
  Demo.after Demo.precompile_options "development" Demo.source
    [TemplateNamesSettle (Throw Failing.error)].

(** [compile] throws once the visitor has found no template. *)
Definition compile_failed : State (E := Failing.no_compile) :=
  Failing.after Failing.no_compile Demo.source [TemplateNamesSettle (Ok [])].

(** The options cannot be read; the environment module cannot be required. *)
Definition without_options : State (E := Failing.no_options) :=
  Failing.after Failing.no_options Demo.source [].

Definition without_environment : State (E := Failing.no_environment) :=
  Failing.after Failing.no_environment Demo.source [].

(** A render in progress: one task pending, the render promise fulfilled
    but its reaction not yet run. *)
Definition pending : State (E := Demo.render_externals) :=
  Demo.after Demo.render_options "development" Demo.source
    (take 3 Demo.render_events).

(** A notification that arrives while the join is pending. *)
Definition late_events : list Event :=
  [ RenderSettle (Ok (js "hello world")); RenderReaction;
    Emit (js "template") (js "late.twig") Demo.from; AllFulfilled ].

Definition late : State (E := Demo.render_externals) :=
  Demo.after Demo.render_options "development" Demo.source late_events.

(** The render of the demonstration for a host whose callback throws. *)
Definition hostile_rendered : State (E := Failing.hostile_render) :=
  Failing.after Failing.hostile_render Demo.source Demo.render_events.

(** Two resources rendered in one build. *)
Definition build : list (LoaderContext * jsstring) :=
  [(Demo.this "development", Demo.source); (Demo.this "production", Demo.broken)].

(** The earlier revision on the events of the demonstration. *)
Definition part001_start : State (E := Demo.render_externals) :=
  match Part001.loader (E := Demo.render_externals) (Demo.this "development")
          Demo.source Demo.environment with
  | Part001.Returned σ => σ
  | Part001.Thrown environment' tr _ => finish environment' tr []
  end.

Definition part001_after (evs : list Event) : State (E := Demo.render_externals) :=
  default part001_start (Part001.run part001_start evs).

(** The earlier revision without a render context, in production mode. *)
Definition part001_returned : State (E := Demo.precompile_externals) :=
  match Part001.loader (E := Demo.precompile_externals) (Demo.this "production")
          Demo.source Demo.environment with
  | Part001.Returned σ => σ
  | Part001.Thrown environment' tr _ => finish environment' tr []
  end.

Definition part001_precompiled : State (E := Demo.precompile_externals) :=
  default part001_returned (Part001.run part001_returned Demo.precompile_events).

End Runs.

(** ** The text of the first revision *)

(** [part_000]: the parts of the module as its template literals have them,
    at the left margin. *)

Module Part000.
Section Parts.
Context {E : Externals}.

Definition templatesModule_part (precompiledTemplate : jsstring) : jsstring :=
  join nl
    [ js "let templatesModule = (() => {";
      js "const module = {";
      js "    exports: undefined";
      js "};";
      [];
      precompiledTemplate;
      [];
      js "return module.exports;";
      js "})();";
      [] ].

Definition renderTemplate_part (key : jsstring) : jsstring :=
  join nl
    [ [];
      js "const renderTemplate = (context = {}) => {";
      js "  const name = '" ++ key ++ js "';";
      js "  env.emit('template', name);";
      js "  const template = env.loadedTemplates.get(name));";
      js "  return template.render(context);";
      js "};";
      [];
      js "module.exports = renderTemplate;";
      [] ].

(** [parts.join('\n')] once the visitor's reaction has run. *)
Definition generated (environmentModulePath precompiledTemplate : jsstring)
    (foundTemplateNames : list jsstring) (key : jsstring) : jsstring :=
  join nl
    ([environment_part environmentModulePath; templatesModule_part precompiledTemplate]
       ++ (require_part <$> foundTemplateNames)
       ++ [register_part key; renderTemplate_part key]).

End Parts.
End Part000.

(** The parentheses a text opens and does not close. *)
Definition nesting (s : jsstring) : Z :=
  foldr (λ c d, (if c =? 40 then 1 else if c =? 41 then -1 else 0) + d) 0 s.

(** * Properties *)

(** ** The hex encoder *)

Lemma bite_range ws i : 0 ≤ hex.bite ws i < 256.
Proof.
  unfold hex.bite. change 255 with (Z.ones 8). rewrite Z.land_ones by lia.
  apply Z.mod_pos_bound. lia.
Qed.

Lemma toString16_hex n : 0 ≤ n < 16 → hex.is_hex_digit (hex.toString16 n).
Proof.
  intros Hn. unfold hex.toString16, hex.is_hex_digit.
  destruct (Z.ltb_spec n 10); lia.
Qed.

Lemma high_nibble_range b : 0 ≤ b < 256 → 0 ≤ hex.ushr b 4 < 16.
Proof.
  intros Hb. unfold hex.ushr, hex.to_uint32.
  rewrite (Z.mod_small b) by lia.
  change (4 mod 32) with 4. rewrite Z.shiftr_div_pow2 by lia.
  change (2 ^ 4) with 16. split.
  - apply Z.div_pos; lia.
  - apply Z.div_lt_upper_bound; lia.
Qed.

Lemma low_nibble_range b : 0 ≤ Z.land b 15 < 16.
Proof.
  change 15 with (Z.ones 4). rewrite Z.land_ones by lia.
  apply Z.mod_pos_bound. lia.
Qed.

Lemma hexChars_hex ws i : Forall hex.is_hex_digit (hex.hexChars ws i).
Proof.
  unfold hex.hexChars. apply Forall_cons. split.
  - apply toString16_hex, high_nibble_range, bite_range.
  - apply Forall_cons. split; [|constructor].
    apply toString16_hex, low_nibble_range.
Qed.

Lemma flat_map_hexChars_length ws (l : list nat) :
  length (flat_map (hex.hexChars ws) l) = (2 * length l)%nat.
Proof. induction l as [|i l IH]; simpl; [done | lia]. Qed.

Lemma stringify_length wa :
  length (hex.stringify wa) = (2 * hex.sigBytes wa)%nat.
Proof. unfold hex.stringify. by rewrite flat_map_hexChars_length, length_seq. Qed.

Lemma stringify_hex wa : Forall hex.is_hex_digit (hex.stringify wa).
Proof.
  unfold hex.stringify. induction (seq 0 (hex.sigBytes wa)) as [|i l IH].
  - constructor.
  - cbn [flat_map]. apply Forall_app. split; [apply hexChars_hex | exact IH].
Qed.

(** ** The key *)

Section Key.
Context {E : Externals}.

Lemma getTemplateHash_development this name :
  mode this ≠ js "production" → getTemplateHash this name = Ok name.
Proof. intros Hmode. unfold getTemplateHash. by rewrite bool_decide_eq_true_2. Qed.

Lemma getTemplateHash_production this name :
  mode this = js "production" →
  getTemplateHash this name = digest ← sha256 name; Ok (hex.stringify digest).
Proof.
  intros Hmode. unfold getTemplateHash.
  rewrite bool_decide_eq_false_2; [done | by intros []].
Qed.

(** A key is the name, or made of hexadecimal digits. *)
Lemma getTemplateHash_Ok this name key :
  getTemplateHash this name = Ok key →
  (mode this ≠ js "production" ∧ key = name)
  ∨ (mode this = js "production"
     ∧ ∃ digest, sha256 name = Ok digest ∧ key = hex.stringify digest).
Proof.
  unfold getTemplateHash. case_bool_decide as Hmode.
  - intros [= <-]. by left.
  - destruct (sha256 name) as [digest|error]; [|done]. intros [= <-].
    right. split; [|by exists digest].
    destruct (decide (mode this = js "production")); [done|]. by destruct Hmode.
Qed.

(** C4, as the code has it. The key derivation depends on the build mode
    and the path alone: two loader contexts that agree on whether the mode
    is production give the same outcome for the same path. Outside
    production it returns the path itself, for every path. In production it
    returns the hex encoding of the SHA-256 digest of the path, sixty-four
    characters, each one of [0-9a-f] (the digest being thirty-two bytes
    long), when [sha256] returns a digest; when [sha256] throws, it throws
    the same: it is not total. *)
Theorem getTemplateHash_key (this : LoaderContext) (path : jsstring) :
  (∀ name digest, sha256 name = Ok digest → hex.sigBytes digest = 32%nat) →
  (∀ this', (mode this = js "production" ↔ mode this' = js "production") →
            getTemplateHash this' path = getTemplateHash this path) ∧
  (mode this ≠ js "production" → getTemplateHash this path = Ok path) ∧
  (mode this = js "production" →
     (∀ digest, sha256 path = Ok digest →
        getTemplateHash this path = Ok (hex.stringify digest) ∧
        length (hex.stringify digest) = 64%nat ∧
        Forall hex.is_hex_digit (hex.stringify digest)) ∧
     (∀ error, sha256 path = Throw error →
        getTemplateHash this path = Throw error)).
Proof.
  intros Hdigest. split; [|split].
  - intros this' Hiff. unfold getTemplateHash.
    destruct (decide (mode this = js "production")) as [Hp|Hp].
    + rewrite !bool_decide_eq_false_2; [done | | ]; intros Hn; apply Hn; tauto.
    + rewrite !bool_decide_eq_true_2; [done | tauto | tauto].
  - apply getTemplateHash_development.
  - intros Hmode. rewrite getTemplateHash_production by done. split.
    + intros digest Hsha. rewrite Hsha. split; [done|]. split.
      * by rewrite stringify_length, (Hdigest _ _ Hsha).
      * apply stringify_hex.
    + intros error Hsha. by rewrite Hsha.
Qed.

End Key.

(** The digests of the demonstration are thirty-two bytes long. *)
Lemma demo_digest_length name digest :
  SHA256.sha256 name = Ok digest → hex.sigBytes digest = 32%nat.
Proof.
  unfold SHA256.sha256. destruct (SHA256.utf8 name); [|done]. by intros [= <-].
Qed.

(** The keys of [C:\app\index.twig] in a development and in a production
    build, with SHA-256 computed. *)
Lemma getTemplateHash_key_witness :
  getTemplateHash (E := Demo.externals Demo.precompile_options)
    (Demo.this "development") (js "/app/index.twig") = Ok (js "/app/index.twig") ∧
  getTemplateHash (E := Demo.externals Demo.precompile_options)
    (Demo.this "production") (js "abc")
    = Ok (js "ba7816bf8f01cfea414140de5dae2223b00361a396177a9cb410ff61f20015ad") ∧
  getTemplateHash (E := Demo.externals Demo.precompile_options)
    (Demo.this "production") [55296] = Throw (Err (js "URI malformed")).
Proof.
  set (E := Demo.externals Demo.precompile_options).
  pose proof (getTemplateHash_key (E := E) (Demo.this "development")
                (js "/app/index.twig") demo_digest_length) as (_ & Hdev & _).
  pose proof (getTemplateHash_key (E := E) (Demo.this "production")
                (js "abc") demo_digest_length) as (_ & _ & Hprod).
  pose proof (getTemplateHash_key (E := E) (Demo.this "production")
                [55296] demo_digest_length) as (_ & _ & Hthrows).
  split; [apply Hdev; vm_compute; discriminate|].
  split.
  - destruct (Hprod eq_refl) as [Hok _].
    destruct (SHA256.sha256 (js "abc")) as [digest|] eqn:Hsha;
      [|vm_compute in Hsha; discriminate Hsha].
    destruct (Hok digest Hsha) as (-> & _). f_equal.
    apply (f_equal (λ r, match r with Ok d => hex.stringify d | Throw _ => [] end))
      in Hsha.
    rewrite <- Hsha. vm_compute. reflexivity.
  - destruct (Hthrows eq_refl) as [_ Hthrow]. apply Hthrow. vm_compute. reflexivity.
Defined.

(** C4 as stated does not hold: in a production build the key derivation
    throws on a path with a surrogate outside a pair, as crypto-js does. *)
Lemma getTemplateHash_key_counterexample :
  ¬ (∀ path, ∃ key,
       getTemplateHash (E := Demo.externals Demo.precompile_options)
         (Demo.this "production") path = Ok key).
Proof.
  intros Htotal. destruct (Htotal [55296]) as [key Hkey].
  vm_compute in Hkey. discriminate Hkey.
Qed.

(** ** The rendered module: encoding and evaluation *)

Lemma hex_value_toString16 d :
  0 ≤ d < 16 → StringLiteral.hex_value (hex.toString16 d) = Some d.
Proof.
  intros Hd. unfold hex.toString16, StringLiteral.hex_value.
  destruct (Z.ltb_spec d 10).
  - replace ((48 <=? 48 + d) && (48 + d <=? 57)) with true
      by (symmetry; apply andb_true_intro; split; apply Z.leb_le; lia).
    f_equal. lia.
  - replace ((48 <=? 87 + d) && (87 + d <=? 57)) with false
      by (symmetry; apply andb_false_intro2, Z.leb_gt; lia).
    replace ((97 <=? 87 + d) && (87 + d <=? 102)) with true
      by (symmetry; apply andb_true_intro; split; apply Z.leb_le; lia).
    f_equal. lia.
Qed.

Lemma nibbles c :
  0 ≤ c < 65536 →
  c / 4096 mod 16 * 4096 + c / 256 mod 16 * 256 + c / 16 mod 16 * 16 + c mod 16 = c.
Proof. intros Hc. Z.to_euclidean_division_equations. lia. Qed.

Lemma nibble_range c k : 0 ≤ c / k mod 16 < 16.
Proof. apply Z.mod_pos_bound. lia. Qed.

Lemma chars_UnicodeEscape c rest v after :
  code_unit c →
  StringLiteral.chars rest = Some (v, after) →
  StringLiteral.chars (JSON.UnicodeEscape c ++ rest) = Some (c :: v, after).
Proof.
  intros Hc Hrest. unfold JSON.UnicodeEscape.
  cbn [app StringLiteral.chars].
  change (92 =? 34) with false. change ((92 =? 10) || (92 =? 13)) with false.
  change (92 =? 92) with true. change (117 =? 117) with true. cbv iota.
  rewrite !hex_value_toString16
    by (apply Z.mod_pos_bound; lia).
  cbn [mbind option_bind]. rewrite Hrest. cbn [mbind option_bind].
  f_equal. f_equal. f_equal. rewrite <- (nibbles c) at 5 by exact Hc. lia.
Qed.

Lemma chars_raw c rest v after :
  c ≠ 34 → c ≠ 92 → c ≠ 10 → c ≠ 13 →
  StringLiteral.chars rest = Some (v, after) →
  StringLiteral.chars (c :: rest) = Some (c :: v, after).
Proof.
  intros H34 H92 H10 H13 Hrest. cbn [StringLiteral.chars].
  destruct (Z.eqb_spec c 34); [done|].
  destruct (Z.eqb_spec c 10); [done|].
  destruct (Z.eqb_spec c 13); [done|].
  destruct (Z.eqb_spec c 92); [done|].
  cbn [orb]. by rewrite Hrest.
Qed.

Lemma chars_escape e u rest v after :
  e ≠ 117 → StringLiteral.escape_value e = Some u →
  StringLiteral.chars rest = Some (v, after) →
  StringLiteral.chars (92 :: e :: rest) = Some (u :: v, after).
Proof.
  intros He Hu Hrest. cbn [StringLiteral.chars].
  change (92 =? 34) with false. change ((92 =? 10) || (92 =? 13)) with false.
  change (92 =? 92) with true. cbv iota.
  destruct (Z.eqb_spec e 117); [done|].
  rewrite Hu. cbn [mbind option_bind]. by rewrite Hrest.
Qed.

Lemma chars_quote_unit c rest v after :
  code_unit c →
  StringLiteral.chars rest = Some (v, after) →
  StringLiteral.chars (JSON.quote_unit c ++ rest) = Some (c :: v, after).
Proof.
  intros Hc Hrest. unfold JSON.quote_unit.
  repeat match goal with
         | |- context [if ?c =? ?k then _ else _] =>
             destruct (Z.eqb_spec c k) as [->|?];
             [by apply chars_escape|]
         end.
  destruct ((c <? 32) || JSON.is_high_surrogate c || JSON.is_low_surrogate c).
  - by apply chars_UnicodeEscape.
  - by apply chars_raw.
Qed.

Lemma surrogate_raw c :
  JSON.is_high_surrogate c || JSON.is_low_surrogate c = true →
  c ≠ 34 ∧ c ≠ 92 ∧ c ≠ 10 ∧ c ≠ 13.
Proof.
  unfold JSON.is_high_surrogate, JSON.is_low_surrogate.
  intros H. apply orb_true_iff in H.
  rewrite !andb_true_iff, !Z.leb_le in H. lia.
Qed.

Lemma quote_cons2 c d rest :
  JSON.quote (c :: d :: rest)
  = if JSON.is_high_surrogate c && JSON.is_low_surrogate d
    then c :: d :: JSON.quote rest
    else JSON.quote_unit c ++ JSON.quote (d :: rest).
Proof. reflexivity. Qed.

(** The characters [JSON.stringify] writes between the quotes evaluate to
    the string. *)
Lemma chars_quote (n : nat) : ∀ s after,
  (length s ≤ n)%nat → wf_jsstring s →
  StringLiteral.chars (JSON.quote s ++ 34 :: after) = Some (s, after).
Proof.
  induction n as [|n IH]; intros s after Hlen Hwf.
  - destruct s; [|simpl in Hlen; lia]. reflexivity.
  - destruct s as [|c [|d rest]].
    + reflexivity.
    + cbn [JSON.quote]. apply chars_quote_unit; [by inversion Hwf | reflexivity].
    + rewrite quote_cons2.
      inversion Hwf as [|? ? Hc Hwf']; subst.
      inversion Hwf' as [|? ? Hd Hwf'']; subst.
      destruct (JSON.is_high_surrogate c && JSON.is_low_surrogate d) eqn:Hpair.
      * apply andb_true_iff in Hpair as [Hhigh Hlow].
        cbn [app].
        destruct (surrogate_raw c) as (? & ? & ? & ?); [by rewrite Hhigh|].
        destruct (surrogate_raw d) as (? & ? & ? & ?);
          [by rewrite Hlow, orb_true_r|].
        apply chars_raw; try done. apply chars_raw; try done.
        apply IH; [simpl in Hlen; lia | done].
      * rewrite <- app_assoc. apply chars_quote_unit; [done|].
        apply IH; [simpl in Hlen |- *; lia | done].
Qed.

Lemma eval_stringify s after :
  wf_jsstring s →
  StringLiteral.eval (JSON.stringify s ++ after) = Some (s, after).
Proof.
  intros Hwf. unfold JSON.stringify, StringLiteral.eval. cbn [app].
  change (34 =? 34) with true. cbv iota.
  rewrite <- app_assoc. by apply (chars_quote (length s)).
Qed.

(** Code units in range, by evaluation. *)
Lemma wf_jsstring_check (s : jsstring) :
  forallb (λ c, (0 <=? c) && (c <? 65536)) s = true → wf_jsstring s.
Proof.
  intros Hall. apply Forall_forall. intros c Hc.
  rewrite forallb_forall in Hall. apply list_elem_of_In, Hall in Hc.
  apply andb_true_iff in Hc as [? ?]. unfold code_unit. lia.
Qed.

(** Evaluating the module of the render branch gives back the rendered
    string. *)
Lemma stringify_round_trip (renderedTemplate : jsstring) :
  wf_jsstring renderedTemplate →
  StringLiteral.eval (JSON.stringify renderedTemplate) = Some (renderedTemplate, [])
  ∧ exported_string (rendered_module renderedTemplate) = Some renderedTemplate.
Proof.
  intros Hwf. split.
  - rewrite <- (app_nil_r (JSON.stringify _)). by apply eval_stringify.
  - unfold exported_string, rendered_module.
    rewrite take_app_length, drop_app_length.
    rewrite bool_decide_eq_true_2 by done.
    rewrite eval_stringify by done. cbn [mbind option_bind].
    by rewrite bool_decide_eq_true_2.
Qed.

(** ** Steps of the machine *)

Lemma split_app_cases {A} (tr acts pre post : list A) (x : A) :
  tr ++ acts = pre ++ x :: post →
  (∃ post', tr = pre ++ x :: post' ∧ post = post' ++ acts)
  ∨ (∃ mid, pre = tr ++ mid ∧ acts = mid ++ x :: post).
Proof.
  revert pre. induction tr as [|a tr IH]; intros pre Heq.
  - right. exists pre. by split.
  - destruct pre as [|b pre]; simplify_eq/=.
    + left. by exists tr.
    + destruct (IH _ H0) as [(post' & -> & ->)|(mid & -> & ->)].
      * left. by exists post'.
      * right. by exists mid.
Qed.

Section Machine.
Context {E : Externals}.

Lemma step_transition σ ev σ' : step σ ev = Some σ' → transition σ σ'.
Proof.
  destruct ev as [r|r| | |i|event name from|i r]; simpl; intros Hstep.
  - destruct (pc σ) eqn:Hpc; simplify_eq. by econstructor.
  - destruct (pc σ) eqn:Hpc; simplify_eq. by constructor.
  - destruct (pc σ) as [| | |[t|e]|] eqn:Hpc; simplify_eq; by constructor.
  - destruct (pc σ) eqn:Hpc; simplify_eq.
    destruct (forallb _ _) eqn:Hall; simplify_eq. by econstructor.
  - destruct (pc σ) eqn:Hpc; simplify_eq.
    destruct (addDependencyTasks σ !! i) as [[| |e]|] eqn:Hi; simplify_eq.
    case_bool_decide; simplify_eq. by econstructor.
  - simplify_eq. constructor.
  - unfold resolve_settle in Hstep.
    destruct (addDependencyTasks σ !! i) as [[name from| |]|] eqn:Hi; simplify_eq.
    destruct r; simplify_eq; by econstructor.
Qed.

(** The calls of [callback] a reaction makes: the first with its result,
    the others with errors. *)
Lemma calls_cons handlers r :
  ∃ rest, calls handlers r = Callback r :: rest
          ∧ ∀ act, act ∈ rest → ∃ error, act = Callback (Throw error).
Proof.
  revert r. induction handlers as [|handlers IH]; intros r.
  - exists []. split; [done|]. intros act Hin. by apply elem_of_nil in Hin.
  - cbn [calls]. destruct (callback r) as [[]|error].
    + exists []. split; [done|]. intros act Hin. by apply elem_of_nil in Hin.
    + destruct (IH (Throw error)) as (rest & -> & Hrest).
      eexists. split; [done|]. intros act Hin.
      apply elem_of_cons in Hin as [->|Hin]; [by exists error | by apply Hrest].
Qed.

Lemma calls_in handlers r act :
  act ∈ calls handlers r → act = Callback r ∨ ∃ error, act = Callback (Throw error).
Proof.
  destruct (calls_cons handlers r) as (rest & -> & Hrest). intros Hin.
  apply elem_of_cons in Hin as [->|Hin]; [by left | right; by apply Hrest].
Qed.

Lemma calls_Ok handlers r text :
  Callback (Ok text) ∈ calls handlers r → r = Ok text.
Proof.
  intros Hin. destruct (calls_in _ _ _ Hin) as [Heq|[error Heq]]; by simplify_eq.
Qed.

(** A successful call among them is the first. *)
Lemma calls_cut handlers r pre text post :
  calls handlers r = pre ++ Callback (Ok text) :: post → pre = [] ∧ r = Ok text.
Proof.
  destruct (calls_cons handlers r) as (rest & -> & Hrest). intros Heq.
  destruct pre as [|act pre]; simplify_eq/=; [done|].
  destruct (Hrest (Callback (Ok text))) as [error Herr]; [|done].
  apply elem_of_app. right. by left.
Qed.

(** When the callback returns there is one call. *)
Lemma calls_returns handlers r : callback r = Ok () → calls handlers r = [Callback r].
Proof. intros Hok. destruct handlers; cbn [calls]; by rewrite ?Hok. Qed.

Lemma run_snoc σ evs ev :
  run σ (evs ++ [ev]) = run σ evs ≫= λ σ', step σ' ev.
Proof.
  revert σ. induction evs as [|ev' evs IH]; intros σ; simpl.
  - by destruct (step σ ev).
  - destruct (step σ ev'); simpl; [apply IH | done].
Qed.

(** Induction over the states an invocation reaches. *)
Lemma reachable_ind this source env0 (P : State → Prop) :
  P (loader this source env0) →
  (∀ σ σ', reachable this source env0 σ → P σ → transition σ σ' → P σ') →
  ∀ σ, reachable this source env0 σ → P σ.
Proof.
  intros Hinit Hstep σ [evs Hrun]. revert σ Hrun.
  induction evs as [|ev evs IH] using rev_ind; intros σ Hrun.
  - by simplify_eq/=.
  - rewrite run_snoc in Hrun.
    destruct (run (loader this source env0) evs) as [σ0|] eqn:Hrun0; simplify_eq/=.
    apply (Hstep σ0); [by exists evs | by apply IH | by eapply step_transition].
Qed.

Lemma reachable_init this source env0 :
  reachable this source env0 (loader this source env0).
Proof. by exists []. Qed.

(** An emitted notification runs the listener some number of times, and
    not at all when the invocation has no listener. *)
Lemma emit_effect event name from σ :
  ∃ k,
    emit event name from σ
    = {| pc := pc σ; environment := environment σ; listener := listener σ;
         addDependencyTasks := addDependencyTasks σ ++ replicate k (Resolving name from);
         trace := trace σ ++ replicate k (Resolve name from) |}
    ∧ (listener σ = None → k = 0%nat).
Proof.
  unfold emit. destruct (listener σ) as [[id newLoader]|] eqn:Hl.
  - generalize (listeners (environment σ)). intros subs.
    cut (∀ σ0 : State, ∃ k,
           foldl (λ σ (sub : jsstring * nat),
                    if bool_decide (sub = (event, id))
                    then template_listener newLoader name from σ else σ) σ0 subs
           = {| pc := pc σ0; environment := environment σ0; listener := listener σ0;
                addDependencyTasks :=
                  addDependencyTasks σ0 ++ replicate k (Resolving name from);
                trace := trace σ0 ++ replicate k (Resolve name from) |}).
    { intros Hcut. destruct (Hcut σ) as [k Hk]. exists k.
      rewrite Hk, Hl. split; [done | discriminate]. }
    induction subs as [|sub subs IH]; intros σ0.
    + exists 0%nat. destruct σ0; simpl. by rewrite !app_nil_r.
    + simpl. case_bool_decide.
      * destruct (IH (template_listener newLoader name from σ0)) as [k ->].
        exists (S k). simpl. by rewrite <- !app_assoc.
      * apply IH.
  - exists 0%nat. destruct σ; simpl in *; subst. by rewrite !app_nil_r.
Qed.

Lemma reaction_effect σ parts key nodeModule r :
  ∃ acts,
    foundTemplateNames_reaction σ parts key nodeModule r = goto σ Done acts.
Proof.
  unfold foundTemplateNames_reaction.
  destruct r as [names|e]; [|by eexists].
  destruct (compile nodeModule); [|by eexists].
  destruct (push _ _) as [parts' tr']; by eexists.
Qed.

(** No step touches the environment or the listener. *)
Lemma transition_frame σ σ' :
  transition σ σ' →
  environment σ' = environment σ ∧ listener σ' = listener σ.
Proof.
  intros [parts key nm r Hpc| | | | | |event name from| |]; try done.
  - by destruct (reaction_effect σ parts key nm r) as [acts ->].
  - by destruct (emit_effect event name from σ) as (k & -> & _).
Qed.

(** Every step appends to the trace. *)
Lemma transition_trace σ σ' :
  transition σ σ' → ∃ acts, trace σ' = trace σ ++ acts.
Proof.
  intros [parts key nm r Hpc| | | | | |event name from| |]; simpl; eauto.
  - destruct (reaction_effect σ parts key nm r) as [acts ->]. by eexists.
  - destruct (emit_effect event name from σ) as (k & -> & _). by eexists.
Qed.

End Machine.

(** ** The precompile branch *)

Lemma join_cons sep p q parts :
  join sep (p :: q :: parts) = p ++ sep ++ join sep (q :: parts).
Proof. reflexivity. Qed.

Lemma join_cons_app sep p (rs : list jsstring) d tl :
  join sep (p :: rs ++ d :: tl) = p ++ sep ++ join sep (rs ++ d :: tl).
Proof. by destruct rs. Qed.

Lemma join_app_cons sep (rs : list jsstring) d tl :
  join sep (rs ++ d :: tl)
  = concat ((λ r, r ++ sep) <$> rs) ++ join sep (d :: tl).
Proof.
  induction rs as [|r rs IH]; [done|].
  destruct rs as [|r' rs].
  - cbn [app fmap list_fmap concat]. rewrite join_cons, app_nil_r.
    by rewrite <- app_assoc.
  - change ((r :: r' :: rs) ++ d :: tl) with (r :: r' :: (rs ++ d :: tl)).
    rewrite join_cons. change (r' :: rs ++ d :: tl) with ((r' :: rs) ++ d :: tl).
    rewrite IH, (fmap_cons _ r (r' :: rs)). cbn [concat].
    by rewrite <- !app_assoc.
Qed.

Lemma lookup_after_two {A} (a b : A) (rest : list A) (i : nat) :
  ([a; b] ++ rest) !! (2 + i)%nat = rest !! i.
Proof. reflexivity. Qed.

(** Two results of one call are one result. *)
Ltac same_call :=
  simplify_eq;
  repeat match goal with
         | H1 : ?x = Ok _, H2 : ?x = _ |- _ => rewrite H1 in H2
         | H1 : ?x = Throw _, H2 : ?x = _ |- _ => rewrite H1 in H2
         end;
  simplify_eq.

(** Membership in a list whose elements around the one are written out. *)
Ltac in_disjunction :=
  match goal with
  | |- _ ∨ _ => first [left; in_disjunction | right; in_disjunction]
  | |- _ => done
  end.
Ltac in_list := rewrite ?elem_of_app, ?elem_of_cons; in_disjunction.

(** Membership in a list that is written out. *)
Ltac elem_cases H :=
  repeat (apply elem_of_cons in H as [H|H]; [try discriminate|]);
  try (by apply elem_of_nil in H).

(** Membership in a list that starts with elements of another kind. *)
Ltac elem_skip H :=
  repeat (apply elem_of_cons in H as [H|H]; [discriminate|]).

(** A written-out list that is [pre ++ act :: post]: every way to cut it. *)
Ltac cut_cases Heq pre :=
  repeat (destruct pre as [|? pre]; simplify_eq/=).

Section Precompile.
Context {E : Externals}.

Lemma foldl_push (f : jsstring → jsstring) (names : list jsstring) parts tr :
  foldl (λ st name, (st.1 ++ [f name], st.2 ++ [Push (f name)])) (parts, tr) names
  = (parts ++ (f <$> names), tr ++ ((λ name, Push (f name)) <$> names)).
Proof.
  revert parts tr. induction names as [|name names IH]; intros parts tr; simpl.
  - by rewrite !app_nil_r.
  - rewrite IH. by rewrite <- !app_assoc.
Qed.

(** A finished invocation without listener and tasks does not move. *)
Lemma done_stuck σ σ' :
  pc σ = Done → listener σ = None → addDependencyTasks σ = [] →
  transition σ σ' → σ' = σ.
Proof.
  intros Hpc Hl Ht [| | | | | |event name from|i ? ? ? Hi|i ? ? ? Hi];
    try congruence.
  - destruct (emit_effect event name from σ) as (k & -> & Hk).
    rewrite (Hk Hl). destruct σ; simpl. by rewrite !app_nil_r.
  - by rewrite Ht in Hi.
  - by rewrite Ht in Hi.
Qed.

Lemma await_names_step σ σ' parts key nodeModule :
  pc σ = AwaitTemplateNames parts key nodeModule →
  listener σ = None → addDependencyTasks σ = [] →
  transition σ σ' →
  σ' = σ ∨ ∃ r, σ' = foundTemplateNames_reaction σ parts key nodeModule r.
Proof.
  intros Hpc Hl Ht [? ? ? r Hpc'| | | | | |event name from|i ? ? ? Hi|i ? ? ? Hi];
    try congruence.
  - right. exists r. congruence.
  - left. destruct (emit_effect event name from σ) as (k & -> & Hk).
    rewrite (Hk Hl). destruct σ; simpl. by rewrite !app_nil_r.
  - by rewrite Ht in Hi.
  - by rewrite Ht in Hi.
Qed.

(** The synchronous part without a render context, case by case. *)
Ltac precompile_cases Hopt Hctx :=
  unfold loader, precompile, finish, push; rewrite Hopt; cbn [fst snd];
  destruct (validateOptions _) as [[]|?] eqn:Hvalidate;
  [destruct (require _) as [[]|?] eqn:Hrequire;
   [destruct environment_getLoader as [[]|?] eqn:HgetLoader;
    [rewrite Hctx;
     destruct (getTemplateHash _ _) as [key|?] eqn:Hkey;
     [destruct (tokenize _) as [tokenStream|?] eqn:Htokenize;
      [destruct (parse tokenStream) as [nodeModule|?] eqn:Hparse|]|]|]|]|];
  cbn [pc listener addDependencyTasks trace environment app].

Lemma loader_precompile this source env0 options :
  getOptions this = Ok options → renderContext options = None →
  listener (loader this source env0) = None
  ∧ addDependencyTasks (loader this source env0) = []
  ∧ environment (loader this source env0) = env0
  ∧ (pc (loader this source env0) = Done
     ∨ ∃ parts key nodeModule,
         pc (loader this source env0) = AwaitTemplateNames parts key nodeModule).
Proof.
  intros Hopt Hctx. precompile_cases Hopt Hctx; repeat split; eauto.
Qed.

(** Without a render context the invocation is in its state at [return],
    or in the state the visitor's reaction leaves. *)
Lemma precompile_states this source env0 options σ :
  getOptions this = Ok options → renderContext options = None →
  reachable this source env0 σ →
  σ = loader this source env0
  ∨ ∃ parts key nodeModule r,
      pc (loader this source env0) = AwaitTemplateNames parts key nodeModule
      ∧ σ = foundTemplateNames_reaction (loader this source env0) parts key nodeModule r.
Proof.
  intros Hopt Hctx.
  destruct (loader_precompile this source env0 options Hopt Hctx)
    as (Hl & Ht & _ & Hpc).
  revert σ. apply reachable_ind; [by left|].
  intros σ σ' _ [->|(parts & key & nm & r & Hawait & ->)] Hstep.
  - destruct Hpc as [Hdone|(parts & key & nm & Hawait)].
    + left. by eapply done_stuck.
    + destruct (await_names_step _ _ _ _ _ Hawait Hl Ht Hstep) as [->|[r ->]];
        [by left | right; eauto 10].
  - right. exists parts, key, nm, r. split; [done|].
    destruct (reaction_effect (loader this source env0) parts key nm r) as [acts Hacts].
    rewrite Hacts in Hstep |- *. by eapply done_stuck.
Qed.

(** The whole trace of an invocation without render context that hands a
    module to the host: the last actions are the call of the callback with
    the module and, if that call throws, the call with what it has
    thrown. *)
Lemma precompile_success this source env0 options σ text :
  getOptions this = Ok options → renderContext options = None →
  reachable this source env0 σ → Callback (Ok text) ∈ trace σ →
  ∃ foundTemplateNames key tokenStream nodeModule precompiledTemplate,
    let envp := environmentModulePath options in
    let sourceContext :=
      {| getCode := source; getName := key; resolvedPath := None |} in
    let parts :=
      [environment_part envp; templatesModule_part precompiledTemplate]
        ++ (require_part <$> foundTemplateNames)
        ++ [register_part key; renderTemplate_part key] in
    getTemplateHash this (slash (resourcePath this)) = Ok key
    ∧ tokenize sourceContext = Ok tokenStream
    ∧ parse tokenStream = Ok nodeModule
    ∧ compile nodeModule = Ok precompiledTemplate
    ∧ text = join nl parts
    ∧ trace σ
      = [AddDependency (slash envp); Require (slash envp);
         Push (environment_part envp); Tokenize sourceContext; Parse;
         GetTemplateNames; FoundTemplateNames (Ok foundTemplateNames); Compile]
        ++ (Push <$> drop 1 parts) ++ calls 1 (Ok text).
Proof.
  intros Hopt Hctx Hreach Hin.
  destruct (precompile_states _ _ _ _ _ Hopt Hctx Hreach)
    as [->|(parts & key' & nm & r & Hawait & ->)].
  - revert Hin. precompile_cases Hopt Hctx; intros Hin; elem_cases Hin.
  - revert Hawait Hin. unfold foundTemplateNames_reaction.
    precompile_cases Hopt Hctx; intros Hawait; try discriminate.
    injection Hawait as <- <- <-.
    destruct r as [names|e]; [|intros Hin; elem_cases Hin].
    destruct (compile nodeModule) as [precompiled|e] eqn:Hcompile;
      [|intros Hin; elem_cases Hin].
    rewrite (foldl_push require_part). cbn [fst snd goto trace app].
    intros Hin. exists names, key, tokenStream, nodeModule, precompiled.
    cbn zeta. split; [done|]. split; [done|]. split; [done|]. split; [done|].
    assert (text = join nl
              ([environment_part (environmentModulePath options);
                templatesModule_part precompiled]
                 ++ (require_part <$> names)
                 ++ [register_part key; renderTemplate_part key])) as ->.
    { rewrite <- !app_assoc in Hin. elem_skip Hin.
      apply elem_of_app in Hin as [Hin|Hin].
      - apply list_elem_of_fmap in Hin as (? & ? & _). discriminate.
      - cbn [app] in Hin. elem_skip Hin. apply calls_Ok in Hin. by simplify_eq. }
    split; [done|].
    cbn [app drop].
    rewrite fmap_cons, fmap_app, <- list_fmap_compose, !fmap_cons, fmap_nil.
    cbn [app]. rewrite <- !app_assoc. reflexivity.
Qed.

(** The text of the parts joined is the precompile shape. *)
Lemma precompile_text_parts envp precompiledTemplate (names : list jsstring) key :
  join nl
    ([environment_part envp; templatesModule_part precompiledTemplate]
       ++ (require_part <$> names)
       ++ [register_part key; renderTemplate_part key])
  = precompile_text (slash envp) precompiledTemplate (slash <$> names) key.
Proof.
  cbn [app]. rewrite join_cons, join_cons_app, join_app_cons, join_cons.
  rewrite <- !list_fmap_compose.
  unfold precompile_text, environment_part, templatesModule_part, register_part,
    renderTemplate_part.
  rewrite !join_cons. cbn [join].
  rewrite <- !app_assoc.
  assert (concat ((λ r, r ++ nl) ∘ require_part <$> names)
          = concat ((λ name, js "require('" ++ name ++ js "');" ++ nl)
                      <$> (slash <$> names))) as ->; [|reflexivity].
  f_equal. rewrite <- list_fmap_compose. apply list_fmap_ext.
  intros i name _. cbn. unfold require_part. by rewrite <- !app_assoc.
Qed.

(** C1. Without a render context, the module handed to the host is made
    from what [compile] returns for the parsed template and from the names
    the visitor found: it is the parts joined by line breaks, in this
    order: the require of the environment module path; the compiled
    fragment inside the function expression that is called at once, whose
    value [templatesModule] takes; one require for each name the visitor
    found, in the visitor's order; the registration of [templatesModule]
    under the key; the render function and its export. Each part is given
    character for character. With N names there are N requires, at the
    positions 2 to N + 1, all before the registration at position N + 2. *)
Theorem precompile_module_parts this source env0 options σ text :
  getOptions this = Ok options → renderContext options = None →
  reachable this source env0 σ → Callback (Ok text) ∈ trace σ →
  ∃ foundTemplateNames key tokenStream nodeModule precompiledTemplate parts,
    let envp := environmentModulePath options in
    let N := length foundTemplateNames in
    getTemplateHash this (slash (resourcePath this)) = Ok key
    ∧ tokenize {| getCode := source; getName := key; resolvedPath := None |}
      = Ok tokenStream
    ∧ parse tokenStream = Ok nodeModule
    ∧ compile nodeModule = Ok precompiledTemplate
    ∧ FoundTemplateNames (Ok foundTemplateNames) ∈ trace σ
    ∧ text = join nl parts
    ∧ text
      = precompile_text (slash envp) precompiledTemplate
          (slash <$> foundTemplateNames) key
    ∧ length parts = (N + 4)%nat
    ∧ parts !! 0%nat = Some (js "const env = require('" ++ slash envp ++ js "');")
    ∧ parts !! 1%nat
      = Some (nl ++ line 20 "const templatesModule = (() => {" ++ nl
              ++ line 20 "const module = {" ++ nl
              ++ line 24 "exports: undefined" ++ nl
              ++ line 20 "};" ++ nl ++ nl
              ++ blanks 20 ++ precompiledTemplate ++ nl ++ nl
              ++ line 20 "return module.exports;" ++ nl
              ++ line 20 "})();" ++ nl ++ blanks 16)
    ∧ (∀ i name, foundTemplateNames !! i = Some name →
         parts !! (2 + i)%nat = Some (js "require('" ++ slash name ++ js "');"))
    ∧ parts !! (2 + N)%nat
      = Some (js "env.registerTemplatesModule(templatesModule, '" ++ key ++ js "');")
    ∧ parts !! (3 + N)%nat
      = Some (nl ++ line 20 "const renderTemplate = (context = {}) => {" ++ nl
              ++ blanks 22 ++ js "const name = '" ++ key ++ js "';" ++ nl
              ++ line 22 "env.emit('template', name);" ++ nl
              ++ line 22 "const template = env.loadedTemplates.get(name);" ++ nl
              ++ line 22 "return template.render(context);" ++ nl
              ++ line 20 "};" ++ nl ++ nl
              ++ line 20 "module.exports = renderTemplate;" ++ nl ++ blanks 16).
Proof.
  intros Hopt Hctx Hreach Hin.
  destruct (precompile_success _ _ _ _ _ _ Hopt Hctx Hreach Hin)
    as (names & key & ts & nm & precompiled & Hkey & Htok & Hparse & Hcompile
        & Htext & Htrace).
  exists names, key, ts, nm, precompiled. eexists. cbn zeta.
  split; [done|]. split; [done|]. split; [done|]. split; [done|].
  split; [rewrite Htrace; in_list|]. split; [exact Htext|].
  split; [rewrite Htext; apply precompile_text_parts|].
  split; [rewrite !length_app, length_fmap; simpl; lia|].
  split; [done|].
  split; [reflexivity|].
  split; [|split].
  - intros i name Hi. rewrite lookup_after_two.
    rewrite lookup_app_l by (rewrite length_fmap; by eapply lookup_lt_Some).
    by rewrite list_lookup_fmap, Hi.
  - rewrite lookup_after_two.
    rewrite lookup_app_r by (rewrite length_fmap; lia).
    by rewrite length_fmap, Nat.sub_diag.
  - change (3 + length names)%nat with (2 + S (length names))%nat.
    rewrite lookup_after_two.
    rewrite lookup_app_r by (rewrite length_fmap; lia).
    rewrite length_fmap.
    replace (S (length names) - length names)%nat with 1%nat by lia.
    cbn [lookup list_lookup]. f_equal. unfold renderTemplate_part.
    rewrite !join_cons. cbn [join app]. by rewrite <- !app_assoc.
Qed.

(** C3. Without a render context nothing is generated before the visitor
    has finished: in the trace of every reachable state, [compile] and
    every [parts.push] after the first (the require of the environment)
    come after the call of [getTemplateNames] and after its promise has
    been fulfilled with the list of names. *)
Theorem generation_after_visitor this source env0 options σ pre act post :
  getOptions this = Ok options → renderContext options = None →
  reachable this source env0 σ →
  trace σ = pre ++ act :: post →
  act = Compile ∨ (∃ part, act = Push part ∧ ∃ part0, Push part0 ∈ pre) →
  ∃ foundTemplateNames,
    GetTemplateNames ∈ pre ∧ FoundTemplateNames (Ok foundTemplateNames) ∈ pre.
Proof.
  intros Hopt Hctx Hreach Heq Hact.
  destruct (precompile_states _ _ _ _ _ Hopt Hctx Hreach)
    as [->|(parts & key' & nm & r & Hawait & ->)].
  - revert Heq. precompile_cases Hopt Hctx; intros Heq; cut_cases Heq pre;
      destruct Hact as [?|(? & ? & ? & Hin)]; simplify_eq; elem_cases Hin.
  - revert Hawait Heq. unfold foundTemplateNames_reaction.
    precompile_cases Hopt Hctx; intros Hawait; try discriminate.
    injection Hawait as <- <- <-.
    destruct r as [names|e].
    2:{ cbn [goto trace app]. intros Heq. cut_cases Heq pre;
          destruct Hact as [?|(? & ? & ? & Hin)]; simplify_eq; elem_cases Hin. }
    destruct (compile nodeModule) as [precompiled|e] eqn:Hcompile.
    2:{ cbn [goto trace app]. intros Heq. cut_cases Heq pre;
          destruct Hact as [?|(? & ? & ? & Hin)]; simplify_eq; elem_cases Hin.
        exists names. split; in_list. }
    rewrite (foldl_push require_part). cbn [fst snd goto trace app]. intros Heq.
    match type of Heq with ?l = _ => rewrite <- (take_drop 7 l) in Heq end.
    cbn [take drop] in Heq.
    apply split_app_cases in Heq as [(post' & Heq & _)|(mid & -> & _)].
    + cut_cases Heq pre;
        destruct Hact as [?|(? & ? & ? & Hin)]; simplify_eq; elem_cases Hin.
    + exists names. split; in_list.
Qed.

(** C8, as the code has it. Without a render context, when the template
    text does not tokenize or does not parse, the host gets one call of the
    callback, with the error — never a module text — and one dependency:
    the environment module path, declared before the template is looked at.
    No template dependency is declared. *)
Theorem parse_failure_reports this source env0 options key error σ :
  getOptions this = Ok options → validateOptions options = Ok () →
  require (slash (environmentModulePath options)) = Ok () →
  environment_getLoader = Ok () →
  renderContext options = None →
  getTemplateHash this (slash (resourcePath this)) = Ok key →
  (tokenize {| getCode := source; getName := key; resolvedPath := None |}
   = Throw error
   ∨ ∃ tokenStream,
       tokenize {| getCode := source; getName := key; resolvedPath := None |}
       = Ok tokenStream
       ∧ parse tokenStream = Throw error) →
  reachable this source env0 σ →
  pc σ = Done
  ∧ callbacks (trace σ) = [Throw error]
  ∧ dependencies (trace σ) = [slash (environmentModulePath options)].
Proof.
  intros Hopt Hvalid Hreq Hget Hctx Hhash Hfail Hreach.
  assert (pc (loader this source env0) = Done
          ∧ callbacks (trace (loader this source env0)) = [Throw error]
          ∧ dependencies (trace (loader this source env0))
            = [slash (environmentModulePath options)]) as Hinit.
  { unfold loader, precompile, finish, push.
    rewrite Hopt, Hvalid, Hreq, Hget, Hctx. cbn [fst snd]. rewrite Hhash.
    destruct Hfail as [->|(tokenStream & -> & ->)]; repeat split; reflexivity. }
  destruct (precompile_states _ _ _ _ _ Hopt Hctx Hreach)
    as [->|(parts & key' & nm & r & Hawait & ->)]; [done|].
  destruct Hinit as [Hdone _]. congruence.
Qed.

(** C9. One key, [getTemplateHash(resourcePath)], is in the three places:
    it is the name of the only source given to [tokenize], the key of the
    registration statement, and the name the render function emits and
    looks up; the module text ends with these two statements. The call of
    the callback with the module follows the two pushes at once; it is the
    end of the trace, but for the call with the error when it throws. *)
Theorem key_consistency this source env0 options σ text :
  getOptions this = Ok options → renderContext options = None →
  reachable this source env0 σ → Callback (Ok text) ∈ trace σ →
  ∃ key,
    getTemplateHash this (slash (resourcePath this)) = Ok key
    ∧ (∃ before after,
         trace σ
         = before
             ++ Tokenize {| getCode := source; getName := key; resolvedPath := None |}
             :: after
             ++ [Push (register_part key); Push (renderTemplate_part key);
                 Callback (Ok text)]
             ++ match callback (Ok text) with
                | Ok _ => []
                | Throw error => [Callback (Throw error)]
                end
         ∧ ∀ sourceContext, Tokenize sourceContext ∉ before ++ after)
    ∧ (∃ before, text = before ++ register_part key ++ nl ++ renderTemplate_part key)
    ∧ register_part key
      = js "env.registerTemplatesModule(templatesModule, '" ++ key ++ js "');"
    ∧ renderTemplate_part key
      = nl ++ line 20 "const renderTemplate = (context = {}) => {" ++ nl
        ++ blanks 22 ++ js "const name = '" ++ key ++ js "';" ++ nl
        ++ line 22 "env.emit('template', name);" ++ nl
        ++ line 22 "const template = env.loadedTemplates.get(name);" ++ nl
        ++ line 22 "return template.render(context);" ++ nl
        ++ line 20 "};" ++ nl ++ nl
        ++ line 20 "module.exports = renderTemplate;" ++ nl ++ blanks 16.
Proof.
  intros Hopt Hctx Hreach Hin.
  destruct (precompile_success _ _ _ _ _ _ Hopt Hctx Hreach Hin)
    as (names & key & ts & nm & precompiled & Hkey & _ & _ & _ & Htext & Htrace).
  exists key. split; [done|]. split; [|split; [|split]].
  - eexists [_; _; _], (_ :: _ :: _ :: _ :: _ :: (Push <$> (require_part <$> names))).
    split.
    + rewrite Htrace. cbn [app drop calls].
      rewrite !fmap_cons, fmap_app, !fmap_cons, fmap_nil.
      cbn [app]. rewrite <- !app_assoc. reflexivity.
    + intros sourceContext Hs. apply elem_of_app in Hs as [Hs|Hs]; elem_cases Hs.
      apply list_elem_of_fmap in Hs as (? & ? & _). discriminate.
  - rewrite Htext. cbn [app]. rewrite join_cons, join_cons_app, join_app_cons, join_cons.
    eexists. rewrite !app_assoc. reflexivity.
  - reflexivity.
  - unfold renderTemplate_part. rewrite !join_cons. cbn [join app].
    rewrite <- !app_assoc. reflexivity.
Qed.

End Precompile.

(** ** The loaders of the render branch *)

Lemma loader_size_chain override fallback :
  loader_size (TwingLoaderChain [override; fallback])
  = S (loader_size override + (loader_size fallback + 0))%nat.
Proof. reflexivity. Qed.

(** The chain is a new object: it is not the loader it wraps. *)
Lemma chain_fresh override fallback :
  TwingLoaderChain [override; fallback] ≠ fallback.
Proof.
  intros Heq. apply (f_equal loader_size) in Heq.
  rewrite loader_size_chain in Heq. lia.
Qed.

Lemma chain_override_hit templates fallback name from code :
  templates !! name = Some code →
  getSourceContext
    (TwingLoaderChain [PathSupportingArrayLoader templates; fallback]) name from
  = ([PathSupportingArrayLoader templates],
     Ok {| getCode := code; getName := name; resolvedPath := Some name |}).
Proof.
  intros Hhit. cbn [getSourceContext TwingLoaderChain_getSourceContext].
  unfold PathSupportingArrayLoader_getSourceContext, TwingLoaderArray_getSourceContext.
  by rewrite Hhit.
Qed.

Lemma chain_override_miss templates fallback name from :
  templates !! name = None →
  getSourceContext
    (TwingLoaderChain [PathSupportingArrayLoader templates; fallback]) name from
  = (PathSupportingArrayLoader templates :: (getSourceContext fallback name from).1,
     (getSourceContext fallback name from).2).
Proof.
  intros Hmiss. cbn [getSourceContext TwingLoaderChain_getSourceContext].
  unfold PathSupportingArrayLoader_getSourceContext, TwingLoaderArray_getSourceContext.
  rewrite Hmiss. cbn [mbind result_bind].
  destruct (getSourceContext fallback name from) as [seen [source|e]]; reflexivity.
Qed.



(** ** The render branch *)

Lemma resolves_app tr acts : resolves (tr ++ acts) = (resolves tr + resolves acts)%nat.
Proof. unfold resolves. by rewrite omap_app, length_app. Qed.

Lemma resolves_replicate k name from :
  resolves (replicate k (Resolve name from)) = k.
Proof.
  induction k as [|k IH]; [done|].
  change (replicate (S k) (Resolve name from))
    with ([Resolve name from] ++ replicate k (Resolve name from)).
  by rewrite resolves_app, IH.
Qed.

Lemma adjacent_app x y tr acts : adjacent x y tr → adjacent x y (tr ++ acts).
Proof.
  intros (before & after & ->). exists before, (after ++ acts).
  by rewrite <- app_assoc.
Qed.

Lemma adjacent_end x y tr : adjacent x y (tr ++ [x; y]).
Proof. by exists tr, []. Qed.

Section Render.
Context {E : Externals}.

Lemma resolves_calls handlers r : resolves (calls handlers r) = 0%nat.
Proof.
  unfold resolves. revert r. induction handlers as [|handlers IH]; intros r; [done|].
  cbn [calls omap list_omap]. destruct (callback r) as [[]|error]; [done|].
  apply IH.
Qed.

(** The synchronous part with a render context, case by case. *)
Ltac render_cases Hopt Hctx :=
  unfold loader, render, finish; rewrite Hopt;
  destruct (validateOptions _) as [[]|?] eqn:Hvalidate;
  [destruct (require _) as [[]|?] eqn:Hrequire;
   [destruct environment_getLoader as [[]|?] eqn:HgetLoader;
    [rewrite Hctx;
     destruct (environment_setLoader _) as [[]|?] eqn:HsetLoader;
     [destruct (environment_on _) as [[]|?] eqn:Hon|]|]|]|];
  cbn [pc listener addDependencyTasks trace environment app].

(** A step that appends [acts], none of them a successful callback, keeps
    what is known of the successful callbacks. *)
Lemma joined_kept (tr acts : list Action) :
  (∀ text, Callback (Ok text) ∉ acts) →
  (∀ pre text post, tr = pre ++ Callback (Ok text) :: post → joined pre text) →
  ∀ pre text post, tr ++ acts = pre ++ Callback (Ok text) :: post → joined pre text.
Proof.
  intros Hacts Hcb pre text post Heq.
  apply split_app_cases in Heq as [(post' & Heq & _)|(mid & _ & Heq)].
  - by eapply Hcb.
  - destruct (Hacts text). rewrite Heq. in_list.
Qed.

Lemma render_invariant_init this source env0 options renderContext' :
  getOptions this = Ok options → renderContext options = Some renderContext' →
  render_invariant (loader this source env0).
Proof.
  intros Hopt Hctx. unfold render_invariant.
  render_cases Hopt Hctx;
    (split; [done|]); (split; [done|]); (split; [by intros [] ?|]);
    (split; [done|]);
    intros pre text post Heq; cut_cases Heq pre.
Qed.

Lemma render_invariant_step σ σ' :
  render_invariant σ → transition σ σ' → render_invariant σ'.
Proof.
  intros (Hpc & Hlen & Hful & Hat & Hcb) Hstep.
  destruct Hstep as [parts key nm r Hp|r Hp|t Hp|e Hp|t n Hp Hall|t n i e Hp Hi Hlt
                    |event name from|i name from path Hi|i name from e Hi].
  - by destruct (Hpc _ _ _ Hp).
  - (* the render promise settles *)
    unfold render_invariant, goto; cbn [pc addDependencyTasks trace].
    split; [done|]. split; [by rewrite resolves_app, Hlen, Nat.add_0_r|].
    split; [intros; by apply adjacent_app, Hful|].
    split; [in_list|].
    apply joined_kept; [|done]. intros text Hin. elem_cases Hin.
  - (* its reaction calls Promise.all *)
    unfold render_invariant, goto; cbn [pc addDependencyTasks trace].
    rewrite Hp in Hat.
    split; [done|]. split; [by rewrite resolves_app, Hlen, Nat.add_0_r|].
    split; [intros; by apply adjacent_app, Hful|].
    split; [by exists (trace σ), []|].
    apply joined_kept; [|done]. intros text Hin. elem_cases Hin.
  - (* its rejection goes to the callback *)
    unfold render_invariant, goto; cbn [pc addDependencyTasks trace].
    split; [done|]. split; [by rewrite resolves_app, Hlen, Nat.add_0_r|].
    split; [intros; by apply adjacent_app, Hful|].
    split; [done|].
    apply joined_kept; [|done]. intros text Hin. elem_cases Hin.
  - (* all tasks fulfilled: the module goes to the callback *)
    unfold render_invariant, goto; cbn [pc addDependencyTasks trace].
    rewrite Hp in Hat. destruct Hat as (before & after & Htr & Hrendered & Hn).
    split; [done|]. split; [by rewrite resolves_app, resolves_calls, Hlen, Nat.add_0_r|].
    split; [intros; by apply adjacent_app, Hful|].
    split; [done|].
    intros pre text post Heq.
    apply split_app_cases in Heq as [(post' & Heq & _)|(mid & -> & Heq)];
      [by eapply Hcb|].
    apply calls_cut in Heq as [-> [= <-]]. subst n.
    rewrite app_nil_r. exists t, (resolves before), before, after.
    split; [done|]. split; [done|]. split; [done|]. split; [done|].
    intros i Hi.
    assert (resolves before ≤ length (addDependencyTasks σ))%nat as Hle.
    { rewrite Hlen, Htr, resolves_app. lia. }
    destruct (lookup_lt_is_Some_2 (addDependencyTasks σ) i) as [task Htask]; [lia|].
    assert (is_Fulfilled task = true) as Htrue.
    { rewrite forallb_forall in Hall. apply Hall, list_elem_of_In.
      apply (list_elem_of_lookup_2 _ i). by rewrite lookup_take_lt. }
    destruct task as [| path |]; try discriminate.
    exists path. by apply Hful.
  - (* a rejected task: its reason goes to the callback *)
    unfold render_invariant, goto; cbn [pc addDependencyTasks trace].
    split; [done|]. split; [by rewrite resolves_app, resolves_calls, Hlen, Nat.add_0_r|].
    split; [intros; by apply adjacent_app, Hful|].
    split; [done|].
    apply joined_kept; [|done]. intros text Hin. by apply calls_Ok in Hin.
  - (* a notification: the listener adds tasks *)
    destruct (emit_effect event name from σ) as (k & -> & _).
    unfold render_invariant; cbn [pc addDependencyTasks trace].
    split; [done|].
    split; [by rewrite length_app, length_replicate, resolves_app,
              resolves_replicate, Hlen|].
    split.
    { intros i path Hi. apply adjacent_app, Hful.
      apply lookup_app_Some in Hi as [Hi|[_ Hi]]; [done|].
      apply lookup_replicate in Hi as [? _]. discriminate. }
    split.
    { destruct (pc σ); try done; [apply elem_of_app; by left|].
      destruct Hat as (before & after & -> & ? & ?).
      exists before, (after ++ replicate k (Resolve name from)).
      by rewrite <- app_assoc. }
    apply joined_kept; [|done]. intros text Hin.
    apply elem_of_replicate in Hin as [? _]. discriminate.
  - (* a task resolves to a path and declares it *)
    unfold render_invariant; cbn [pc addDependencyTasks trace].
    split; [done|].
    split; [by rewrite length_insert, resolves_app, Hlen, Nat.add_0_r|].
    split.
    { intros j path' Hj. destruct (decide (i = j)) as [->|Hne].
      - rewrite list_lookup_insert_eq in Hj by (by eapply lookup_lt_Some).
        simplify_eq. apply adjacent_end.
      - rewrite list_lookup_insert_ne in Hj by done. by apply adjacent_app, Hful. }
    split.
    { destruct (pc σ); try done; [apply elem_of_app; by left|].
      destruct Hat as (before & after & -> & ? & ?).
      eexists before, (after ++ _). by rewrite <- app_assoc. }
    apply joined_kept; [|done]. intros text Hin. elem_cases Hin.
  - (* a task is rejected *)
    unfold render_invariant; cbn [pc addDependencyTasks trace].
    split; [done|].
    split; [by rewrite length_insert, resolves_app, Hlen, Nat.add_0_r|].
    split.
    { intros j path' Hj. destruct (decide (i = j)) as [->|Hne].
      - rewrite list_lookup_insert_eq in Hj by (by eapply lookup_lt_Some).
        discriminate.
      - rewrite list_lookup_insert_ne in Hj by done. by apply adjacent_app, Hful. }
    split.
    { destruct (pc σ); try done; [apply elem_of_app; by left|].
      destruct Hat as (before & after & -> & ? & ?).
      eexists before, (after ++ _). by rewrite <- app_assoc. }
    apply joined_kept; [|done]. intros text Hin. elem_cases Hin.
Qed.

Lemma render_invariant_reachable this source env0 options renderContext' σ :
  getOptions this = Ok options → renderContext options = Some renderContext' →
  reachable this source env0 σ → render_invariant σ.
Proof.
  intros Hopt Hctx. revert σ. apply reachable_ind.
  - by eapply render_invariant_init.
  - intros σ σ' _. apply render_invariant_step.
Qed.

(** C2. With a render context, the module goes to the callback only after
    the render promise has been fulfilled, [Promise.all] has been called on
    the tasks the listener had created by then, and every one of these
    tasks has resolved to a path and passed it to [addDependency]: all of
    this is in the trace before the callback. When the listener does not
    run between the call of [Promise.all] and the callback, these are all
    the tasks there are. *)
Theorem callback_after_join this source env0 options renderContext' σ pre text post :
  getOptions this = Ok options → renderContext options = Some renderContext' →
  reachable this source env0 σ →
  trace σ = pre ++ Callback (Ok text) :: post →
  ∃ renderedTemplate n before after,
    text = rendered_module renderedTemplate
    ∧ pre = before ++ PromiseAll n :: after
    ∧ Rendered (Ok renderedTemplate) ∈ before
    ∧ resolves before = n
    ∧ (∀ i, (i < n)%nat →
         ∃ path, adjacent (Resolved i (Ok path)) (AddDependency path) pre)
    ∧ (resolves after = 0%nat → resolves pre = n).
Proof.
  intros Hopt Hctx Hreach Heq.
  destruct (render_invariant_reachable _ _ _ _ _ _ Hopt Hctx Hreach)
    as (_ & _ & _ & _ & Hcb).
  destruct (Hcb pre text post Heq) as (t & n & before & after & ? & -> & ? & ? & ?).
  exists t, n, before, after. repeat (split; [done|]).
  intros Hnone.
  change (PromiseAll n :: after) with ([PromiseAll n] ++ after).
  rewrite !resolves_app, Hnone. cbn. lia.
Qed.

(** While a collected task is not fulfilled the join does not complete. *)
Lemma join_waits σ renderedTemplate n i :
  pc σ = Joining renderedTemplate n → (i < n)%nat →
  (∀ path, addDependencyTasks σ !! i ≠ Some (Fulfilled path)) →
  is_Some (addDependencyTasks σ !! i) →
  step σ AllFulfilled = None.
Proof.
  intros Hpc Hi Hnot [task Htask]. simpl. rewrite Hpc.
  destruct (forallb _ _) eqn:Hall; [|done].
  rewrite forallb_forall in Hall.
  assert (is_Fulfilled task = true) as Htrue.
  { apply Hall, list_elem_of_In, (list_elem_of_lookup_2 _ i).
    by rewrite lookup_take_lt. }
  destruct task; try discriminate. by destruct (Hnot path).
Qed.

(** A successful callback of the render branch carries the module of a
    rendered string. *)
Lemma render_callback this source env0 options renderContext' σ text :
  getOptions this = Ok options → renderContext options = Some renderContext' →
  reachable this source env0 σ → Callback (Ok text) ∈ trace σ →
  ∃ renderedTemplate,
    Rendered (Ok renderedTemplate) ∈ trace σ
    ∧ text = rendered_module renderedTemplate.
Proof.
  intros Hopt Hctx Hreach Hin.
  destruct (render_invariant_reachable _ _ _ _ _ _ Hopt Hctx Hreach)
    as (_ & _ & _ & _ & Hcb).
  apply list_elem_of_split in Hin as (pre & post & Heq).
  destruct (Hcb pre text post Heq) as (t & n & before & after & -> & -> & Hin & _).
  exists t. split; [|done]. rewrite Heq, <- app_assoc. apply elem_of_app. by left.
Qed.

(** C7. With a render context, the text given to the callback is the one
    statement [module.exports = <literal>;] whose literal is
    [JSON.stringify] of the string the render promise was fulfilled with;
    evaluating the literal gives that string back, code unit for code unit:
    quotes, backslashes, line breaks and control characters through their
    escapes, a lone surrogate through [\uXXXX], every other character and
    every surrogate pair as it is. *)
Theorem rendered_module_round_trip this source env0 options renderContext' σ text :
  getOptions this = Ok options → renderContext options = Some renderContext' →
  reachable this source env0 σ → Callback (Ok text) ∈ trace σ →
  ∃ renderedTemplate,
    Rendered (Ok renderedTemplate) ∈ trace σ
    ∧ text = js "module.exports = " ++ JSON.stringify renderedTemplate ++ js ";"
    ∧ (wf_jsstring renderedTemplate →
       StringLiteral.eval (JSON.stringify renderedTemplate)
       = Some (renderedTemplate, [])
       ∧ exported_string text = Some renderedTemplate).
Proof.
  intros Hopt Hctx Hreach Hin.
  destruct (render_callback _ _ _ _ _ _ _ Hopt Hctx Hreach Hin) as (t & Ht & ->).
  exists t. split; [done|]. split; [done|].
  apply stringify_round_trip.
Qed.

(** The ids of the subscriptions are below the fresh one. *)
Lemma fresh_not_subscribed environment event :
  (event, fresh environment) ∉ listeners environment.
Proof.
  intros Hin. unfold fresh in Hin.
  assert (S (max_list (listeners environment).*2) ∈ (listeners environment).*2) as Hid.
  { apply list_elem_of_fmap. by exists (event, S (max_list (listeners environment).*2)). }
  apply max_list_elem_of_le in Hid. lia.
Qed.

(** What the synchronous part with a render context leaves in the
    environment. *)
Lemma loader_render_setup this source env0 options renderContext' :
  getOptions this = Ok options → validateOptions options = Ok () →
  require (slash (environmentModulePath options)) = Ok () →
  environment_getLoader = Ok () →
  renderContext options = Some renderContext' →
  environment_setLoader
    (TwingLoaderChain
       [PathSupportingArrayLoader {[ slash (resourcePath this) := source ]};
        getLoader env0]) = Ok () →
  getLoader (environment (loader this source env0))
  = TwingLoaderChain
      [PathSupportingArrayLoader {[ slash (resourcePath this) := source ]};
       getLoader env0]
  ∧ (environment_on (js "template") = Ok () →
     listeners (environment (loader this source env0))
     = listeners env0 ++ [(js "template", fresh env0)]
     ∧ listener (loader this source env0)
       = Some (fresh env0,
               TwingLoaderChain
                 [PathSupportingArrayLoader {[ slash (resourcePath this) := source ]};
                  getLoader env0])).
Proof.
  intros Hopt Hvalid Hreq Hget Hctx Hset.
  render_cases Hopt Hctx; same_call; (split; [done|]); intros; same_call; done.
Qed.

Lemma reachable_frame this source env0 σ :
  reachable this source env0 σ →
  environment σ = environment (loader this source env0)
  ∧ listener σ = listener (loader this source env0).
Proof.
  revert σ. apply reachable_ind; [done|].
  intros σ σ' _ [Henv Hl] Hstep.
  destruct (transition_frame _ _ Hstep) as [-> ->]. done.
Qed.

(** C10. With a render context, once [setLoader] has returned, the
    environment's loader is the new chain — not the loader that was there —
    in every state the invocation reaches, after the successful callback
    and after a failing one alike; and once [on] has returned, the
    subscription of the ['template'] listener, which the environment did
    not have, is in the environment's list in every such state. Nothing
    restores the loader or removes the listener. *)
Theorem render_mutations_persist this source env0 options renderContext' σ :
  getOptions this = Ok options → validateOptions options = Ok () →
  require (slash (environmentModulePath options)) = Ok () →
  environment_getLoader = Ok () →
  renderContext options = Some renderContext' →
  environment_setLoader
    (TwingLoaderChain
       [PathSupportingArrayLoader {[ slash (resourcePath this) := source ]};
        getLoader env0]) = Ok () →
  reachable this source env0 σ →
  getLoader (environment σ)
  = TwingLoaderChain
      [PathSupportingArrayLoader {[ slash (resourcePath this) := source ]};
       getLoader env0]
  ∧ getLoader (environment σ) ≠ getLoader env0
  ∧ (environment_on (js "template") = Ok () →
     listeners (environment σ) = listeners env0 ++ [(js "template", fresh env0)]
     ∧ (js "template", fresh env0) ∈ listeners (environment σ)
     ∧ ((js "template", fresh env0) ∉ listeners env0)
     ∧ listener σ
       = Some (fresh env0,
               TwingLoaderChain
                 [PathSupportingArrayLoader {[ slash (resourcePath this) := source ]};
                  getLoader env0])).
Proof.
  intros Hopt Hvalid Hreq Hget Hctx Hset Hreach.
  destruct (reachable_frame _ _ _ _ Hreach) as [-> ->].
  destruct (loader_render_setup _ source env0 _ _ Hopt Hvalid Hreq Hget Hctx Hset)
    as [-> Hon].
  split; [done|]. split; [apply chain_fresh|].
  intros Hok. destruct (Hon Hok) as [-> ->].
  split; [done|]. split; [in_list|]. split; [apply fresh_not_subscribed|done].
Qed.

End Render.

(** ** The mode *)

Section Mode.
Context {E : Externals}.

(** A module of the precompile branch starts with [const], one of the
    render branch with [module]. *)
Lemma shapes_disjoint text : precompile_shape text → render_shape text → False.
Proof.
  intros (envp & precompiled & names & key & ->) (t & Heq).
  apply (f_equal head) in Heq. discriminate.
Qed.

(** Without options there is one call of the callback, with the error. *)
Lemma loader_without_options this source env0 error σ :
  getOptions this = Throw error →
  reachable this source env0 σ → trace σ = [Callback (Throw error)].
Proof.
  intros Hopt Hreach.
  assert (σ = loader this source env0) as ->.
  { revert σ Hreach. apply reachable_ind; [done|].
    intros σ σ' _ -> Hstep. eapply done_stuck; [..|done];
      unfold loader; by rewrite Hopt. }
  unfold loader. by rewrite Hopt.
Qed.

(** C5. The presence of [renderContext] alone selects the shape of the
    module: whenever a module text goes to the callback, the options were
    read, and the text is, character for character, the precompile shape
    (and not the render shape) if [renderContext] is absent, the render
    shape (and not the precompile shape) if it is present, whatever it
    holds. The precompile shape is that of the required environment path,
    the names the visitor found and the key; the render shape that of the
    string the render promise was fulfilled with. *)
Theorem mode_selection this source env0 σ text :
  reachable this source env0 σ → Callback (Ok text) ∈ trace σ →
  ∃ options,
    getOptions this = Ok options
    ∧ match renderContext options with
      | None =>
          (∃ precompiledTemplate foundTemplateNames key,
             FoundTemplateNames (Ok foundTemplateNames) ∈ trace σ
             ∧ getTemplateHash this (slash (resourcePath this)) = Ok key
             ∧ text = precompile_text (slash (environmentModulePath options))
                        precompiledTemplate (slash <$> foundTemplateNames) key)
          ∧ precompile_shape text ∧ ¬ render_shape text
      | Some _ =>
          (∃ renderedTemplate,
             Rendered (Ok renderedTemplate) ∈ trace σ
             ∧ text = js "module.exports = " ++ JSON.stringify renderedTemplate
                        ++ js ";")
          ∧ render_shape text ∧ ¬ precompile_shape text
      end.
Proof.
  intros Hreach Hin.
  destruct (getOptions this) as [options|error] eqn:Hopt.
  - exists options. split; [done|].
    destruct (renderContext options) as [renderContext'|] eqn:Hctx.
    + destruct (render_callback _ _ _ _ _ _ _ Hopt Hctx Hreach Hin) as (t & Ht & ->).
      assert (render_shape (rendered_module t)) as Hshape by by exists t.
      split; [by exists t|]. split; [done|]. intros Hpre. by eapply shapes_disjoint.
    + destruct (precompile_success _ _ _ _ _ _ Hopt Hctx Hreach Hin)
        as (names & key & ts & nm & precompiled & Hkey & _ & _ & _ & -> & Htrace).
      rewrite precompile_text_parts.
      match goal with
      | |- _ ∧ precompile_shape ?t ∧ _ => assert (precompile_shape t) as Hshape
      end.
      { by eexists _, _, _, _. }
      split; [|split; [done|]; intros Hrender; by eapply shapes_disjoint].
      exists precompiled, names, key. split; [rewrite Htrace; in_list|done].
  - rewrite (loader_without_options _ _ _ _ _ Hopt Hreach) in Hin.
    elem_cases Hin.
Qed.

End Mode.

(** ** The invocations of the demonstration *)

(** Membership in a list that evaluates. *)
Ltac in_evaluated :=
  apply list_elem_of_In; vm_compute;
  repeat match goal with |- _ ∨ _ => first [left; reflexivity | right] end.

Lemma run_default `{Externals} (σ : State) (evs : list Event) :
  match run σ evs with Some _ => true | None => false end = true →
  run σ evs = Some (default σ (run σ evs)).
Proof. by destruct (run σ evs). Qed.

Lemma precompiled_reachable :
  reachable (E := Demo.precompile_externals) (Demo.this "production") Demo.source
    Demo.environment Demo.precompiled.
Proof.
  exists Demo.precompile_events. apply @run_default. vm_compute. reflexivity.
Qed.

Lemma parse_failed_reachable :
  reachable (E := Demo.precompile_externals) (Demo.this "development") Demo.broken
    Demo.environment Demo.parse_failed.
Proof. exists []. apply @run_default. vm_compute. reflexivity. Qed.

Lemma rendered_reachable :
  reachable (E := Demo.render_externals) (Demo.this "development") Demo.source
    Demo.environment Demo.rendered.
Proof.
  exists Demo.render_events. apply @run_default. vm_compute. reflexivity.
Qed.

Lemma render_failed_reachable :
  reachable (E := Demo.render_externals) (Demo.this "development") Demo.source
    Demo.environment Demo.render_failed.
Proof.
  exists Demo.render_failure_events. apply @run_default. vm_compute. reflexivity.
Qed.

Lemma precompiled_callback :
  Callback (Ok (Demo.module_text (trace Demo.precompiled))) ∈ trace Demo.precompiled.
Proof. in_evaluated. Qed.

Lemma rendered_callback :
  Callback (Ok (Demo.module_text (trace Demo.rendered))) ∈ trace Demo.rendered.
Proof. in_evaluated. Qed.

Lemma production_key :
  getTemplateHash (E := Demo.precompile_externals) (Demo.this "production")
    (@slash Demo.precompile_externals (resourcePath (Demo.this "production")))
  = Ok (js "8ca3338923d32bb5389c84154cbf6ee6d42098fa45e536dd751bd55c1282ab6d").
Proof. vm_compute. reflexivity. Qed.

(** With the join pending on the first task, the module is not handed over. *)
Example join_blocks :
  match run (E := Demo.render_externals)
          (loader (E := Demo.render_externals) (Demo.this "development")
             Demo.source Demo.environment)
          (take 5 Demo.render_events ++ [AllFulfilled])
  with Some _ => true | None => false end = false.
Proof. vm_compute. reflexivity. Qed.

(** A notification that arrives after [Promise.all] was called adds a task
    the join does not wait for. *)
Example late_task_outside_join :
  (λ σ, (callbacks (trace σ), addDependencyTasks σ))
    <$> run (E := Demo.render_externals)
          (loader (E := Demo.render_externals) (Demo.this "development")
             Demo.source Demo.environment)
          [ RenderSettle (Ok (js "hello world")); RenderReaction;
            Emit (js "template") (js "late.twig") Demo.from; AllFulfilled ]
  = Some ([Ok (js "module.exports = " ++ [34] ++ js "hello world" ++ [34; 59])],
          [Resolving (js "late.twig") Demo.from]).
Proof. vm_compute. reflexivity. Qed.

(** The production build of [C:\app\index.twig] whose visitor finds two
    templates. *)
Lemma precompile_module_parts_witness :
  reachable (E := Demo.precompile_externals) (Demo.this "production") Demo.source
    Demo.environment Demo.precompiled
  ∧ Callback (Ok (Demo.module_text (trace Demo.precompiled))) ∈ trace Demo.precompiled
  ∧ ∃ foundTemplateNames nodeModule precompiledTemplate,
      compile (Externals := Demo.precompile_externals) nodeModule
      = Ok precompiledTemplate
      ∧ FoundTemplateNames (Ok foundTemplateNames) ∈ trace Demo.precompiled
      ∧ Demo.module_text (trace Demo.precompiled)
        = precompile_text (js "/app/env.js") precompiledTemplate
            (Slash.slash <$> foundTemplateNames)
            (js "8ca3338923d32bb5389c84154cbf6ee6d42098fa45e536dd751bd55c1282ab6d").
Proof.
  split; [exact precompiled_reachable|]. split; [exact precompiled_callback|].
  destruct (precompile_module_parts (E := Demo.precompile_externals)
              (Demo.this "production") Demo.source Demo.environment
              Demo.precompile_options Demo.precompiled
              (Demo.module_text (trace Demo.precompiled))
              eq_refl eq_refl precompiled_reachable precompiled_callback)
    as (names & key & ts & nm & precompiled & parts & Hkey & _ & _ & Hcompile
        & Hnames & _ & Htext & _).
  exists names, nm, precompiled. split; [exact Hcompile|]. split; [exact Hnames|].
  rewrite production_key in Hkey. injection Hkey as <-. exact Htext.
Defined.

(** In that build, [compile] is the eighth action, after the visitor's
    names. *)
Lemma generation_after_visitor_witness :
  trace Demo.precompiled
  = take 7 (trace Demo.precompiled) ++ Compile :: drop 8 (trace Demo.precompiled)
  ∧ ∃ foundTemplateNames,
      GetTemplateNames ∈ take 7 (trace Demo.precompiled)
      ∧ FoundTemplateNames (Ok foundTemplateNames) ∈ take 7 (trace Demo.precompiled).
Proof.
  assert (trace Demo.precompiled
          = take 7 (trace Demo.precompiled)
              ++ Compile :: drop 8 (trace Demo.precompiled)) as Hcut
    by (vm_compute; reflexivity).
  split; [exact Hcut|].
  exact (generation_after_visitor (E := Demo.precompile_externals)
           (Demo.this "production") Demo.source Demo.environment
           Demo.precompile_options Demo.precompiled _ _ _
           eq_refl eq_refl precompiled_reachable Hcut (or_introl eq_refl)).
Defined.

(** The same build: the key in the three places is the digest of the
    resource path. *)
Lemma key_consistency_witness :
  ∃ before,
    Demo.module_text (trace Demo.precompiled)
    = before
        ++ register_part
             (js "8ca3338923d32bb5389c84154cbf6ee6d42098fa45e536dd751bd55c1282ab6d")
        ++ nl
        ++ renderTemplate_part
             (js "8ca3338923d32bb5389c84154cbf6ee6d42098fa45e536dd751bd55c1282ab6d").
Proof.
  destruct (key_consistency (E := Demo.precompile_externals)
              (Demo.this "production") Demo.source Demo.environment
              Demo.precompile_options Demo.precompiled
              (Demo.module_text (trace Demo.precompiled))
              eq_refl eq_refl precompiled_reachable precompiled_callback)
    as (key & Hkey & _ & (before & Htext) & _).
  exists before. rewrite production_key in Hkey. injection Hkey as <-. exact Htext.
Defined.

(** A text whose tag is left open: the callback gets the tokenizer's error,
    and the environment module is the one declared dependency. *)
Lemma parse_failure_reports_witness :
  pc Demo.parse_failed = Done
  ∧ callbacks (trace Demo.parse_failed)
    = [Throw (Err (js "Unclosed tag in C:/app/index.twig"))]
  ∧ dependencies (trace Demo.parse_failed) = [js "/app/env.js"].
Proof.
  exact (parse_failure_reports (E := Demo.precompile_externals)
           (Demo.this "development") Demo.broken Demo.environment
           Demo.precompile_options (js "C:/app/index.twig")
           (Err (js "Unclosed tag in C:/app/index.twig"))
           Demo.parse_failed eq_refl eq_refl eq_refl eq_refl eq_refl eq_refl
           (or_introl eq_refl) parse_failed_reachable).
Defined.

(** C8 as stated does not hold: an invocation whose template does not
    tokenize has declared a dependency, the environment module, before the
    template is looked at. *)
Lemma parse_failure_zero_dependencies_counterexample :
  ¬ (∀ (E : Externals) this source env0 key error σ,
       getTemplateHash this (slash (resourcePath this)) = Ok key →
       tokenize {| getCode := source; getName := key; resolvedPath := None |}
       = Throw error →
       reachable this source env0 σ →
       dependencies (trace σ) = []).
Proof.
  intros Hclaim.
  specialize (Hclaim Demo.precompile_externals (Demo.this "development")
                Demo.broken Demo.environment (js "C:/app/index.twig")
                (Err (js "Unclosed tag in C:/app/index.twig"))
                Demo.parse_failed eq_refl eq_refl parse_failed_reachable).
  vm_compute in Hclaim. discriminate Hclaim.
Qed.

(** The render of the demonstration: two tasks, the module after both. *)
Lemma callback_after_join_witness :
  trace Demo.rendered
  = take 13 (trace Demo.rendered)
      ++ Callback (Ok (Demo.module_text (trace Demo.rendered))) :: []
  ∧ joined (take 13 (trace Demo.rendered)) (Demo.module_text (trace Demo.rendered)).
Proof.
  assert (trace Demo.rendered
          = take 13 (trace Demo.rendered)
              ++ Callback (Ok (Demo.module_text (trace Demo.rendered))) :: [])
    as Hcut by (vm_compute; reflexivity).
  split; [exact Hcut|].
  destruct (callback_after_join (E := Demo.render_externals)
              (Demo.this "development") Demo.source Demo.environment
              Demo.render_options ∅ Demo.rendered _ _ _
              eq_refl eq_refl rendered_reachable Hcut)
    as (t & n & before & after & Hjoined).
  exists t, n, before, after. tauto.
Defined.

(** C2 as stated does not hold: the join is over the tasks there are when
    [Promise.all] is called. A notification that arrives later, while the
    join is pending, registers a task the success callback does not wait
    for: here the module goes to the callback although the task of
    [late.twig], registered before, has not settled. *)
Lemma callback_after_join_counterexample :
  ¬ (∀ (E : Externals) this source env0 options renderContext' σ pre text post,
       getOptions this = Ok options → renderContext options = Some renderContext' →
       reachable this source env0 σ →
       trace σ = pre ++ Callback (Ok text) :: post →
       ∀ i, (i < resolves pre)%nat → ∃ r, Resolved i r ∈ pre).
Proof.
  intros Hclaim.
  assert (reachable (E := Demo.render_externals) (Demo.this "development")
            Demo.source Demo.environment Runs.late) as Hreach.
  { exists Runs.late_events. apply @run_default. vm_compute. reflexivity. }
  assert (trace Runs.late
          = take 8 (trace Runs.late)
              ++ Callback (Ok (Demo.module_text (trace Runs.late))) :: [])
    as Hcut by (vm_compute; reflexivity).
  destruct (Hclaim Demo.render_externals (Demo.this "development") Demo.source
              Demo.environment Demo.render_options ∅ Runs.late _ _ _
              eq_refl eq_refl Hreach Hcut 0%nat) as [r Hin].
  - vm_compute. lia.
  - apply list_elem_of_In in Hin. vm_compute in Hin.
    repeat (destruct Hin as [Hin|Hin]; [discriminate Hin|]). destruct Hin.
Qed.

(** The rendered text of the demonstration comes back from its module. *)
Lemma rendered_module_round_trip_witness :
  wf_jsstring Demo.awkward
  ∧ exported_string (Demo.module_text (trace Demo.rendered)) = Some Demo.awkward.
Proof.
  assert (wf_jsstring Demo.awkward) as Hwf.
  { apply wf_jsstring_check. vm_compute. reflexivity. }
  split; [exact Hwf|].
  destruct (rendered_module_round_trip (E := Demo.render_externals)
              (Demo.this "development") Demo.source Demo.environment
              Demo.render_options ∅ Demo.rendered
              (Demo.module_text (trace Demo.rendered))
              eq_refl eq_refl rendered_reachable rendered_callback)
    as (t & Hin & _ & Heval).
  assert (t = Demo.awkward) as ->.
  { apply list_elem_of_In in Hin. vm_compute in Hin.
    repeat (destruct Hin as [Hin|Hin]; [try discriminate Hin|]);
      [|destruct Hin].
    injection Hin as <-. reflexivity. }
  exact (proj2 (Heval Hwf)).
Defined.

(** Both shapes, from the same source: no render context, and an empty
    one. *)
Lemma mode_selection_witness :
  (renderContext Demo.precompile_options = None
   ∧ precompile_shape (Demo.module_text (trace Demo.precompiled)))
  ∧ (renderContext Demo.render_options = Some ∅
     ∧ render_shape (Demo.module_text (trace Demo.rendered))).
Proof.
  split; (split; [reflexivity|]).
  - destruct (mode_selection (E := Demo.precompile_externals)
                (Demo.this "production") Demo.source Demo.environment
                Demo.precompiled (Demo.module_text (trace Demo.precompiled))
                precompiled_reachable precompiled_callback)
      as (options & Hopt & Hshape).
    injection Hopt as <-. exact (proj1 (proj2 Hshape)).
  - destruct (mode_selection (E := Demo.render_externals)
                (Demo.this "development") Demo.source Demo.environment
                Demo.rendered (Demo.module_text (trace Demo.rendered))
                rendered_reachable rendered_callback)
      as (options & Hopt & Hshape).
    injection Hopt as <-. exact (proj1 (proj2 Hshape)).
Defined.

(** After the successful callback and after the failing one, the
    environment has the chain and the listener. *)
Lemma render_mutations_persist_witness :
  (callbacks (trace Demo.rendered)
   = [Ok (Demo.module_text (trace Demo.rendered))]
   ∧ getLoader (environment Demo.rendered) ≠ getLoader Demo.environment
   ∧ (js "template", 1%nat) ∈ listeners (environment Demo.rendered))
  ∧ (callbacks (trace Demo.render_failed) = [Throw (Err (js "Unclosed tag"))]
     ∧ getLoader (environment Demo.render_failed) ≠ getLoader Demo.environment
     ∧ (js "template", 1%nat) ∈ listeners (environment Demo.render_failed)).
Proof.
  split.
  - split; [vm_compute; reflexivity|].
    destruct (render_mutations_persist (E := Demo.render_externals)
                (Demo.this "development") Demo.source Demo.environment
                Demo.render_options ∅ Demo.rendered
                eq_refl eq_refl eq_refl eq_refl eq_refl eq_refl rendered_reachable)
      as (_ & Hne & Hon).
    split; [exact Hne|]. exact (proj1 (proj2 (Hon eq_refl))).
  - split; [vm_compute; reflexivity|].
    destruct (render_mutations_persist (E := Demo.render_externals)
                (Demo.this "development") Demo.source Demo.environment
                Demo.render_options ∅ Demo.render_failed
                eq_refl eq_refl eq_refl eq_refl eq_refl eq_refl render_failed_reachable)
      as (_ & Hne & Hon).
    split; [exact Hne|]. exact (proj1 (proj2 (Hon eq_refl))).
Defined.

(** * Further properties of the invocation *)

(** The synchronous part, case by case. *)
Ltac loader_cases :=
  unfold loader, precompile, render, finish, push;
  repeat match goal with
         | |- context [match ?x with _ => _ end] => destruct x eqn:?
         end;
  repeat match goal with u : () |- _ => destruct u end;
  cbn [pc listener addDependencyTasks trace environment app fst snd].

Section Outcome.
Context {E : Externals}.

Lemma callbacks_app tr acts : callbacks (tr ++ acts) = callbacks tr ++ callbacks acts.
Proof. apply omap_app. Qed.

Lemma dependencies_app tr acts :
  dependencies (tr ++ acts) = dependencies tr ++ dependencies acts.
Proof. apply omap_app. Qed.

Lemma callbacks_pushes (names : list jsstring) :
  callbacks ((λ name, Push (require_part name)) <$> names) = [].
Proof. by induction names. Qed.

Lemma dependencies_pushes (names : list jsstring) :
  dependencies ((λ name, Push (require_part name)) <$> names) = [].
Proof. by induction names. Qed.

Lemma callbacks_resolves k name from :
  callbacks (replicate k (Resolve name from)) = [].
Proof. by induction k. Qed.

Lemma dependencies_resolves k name from :
  dependencies (replicate k (Resolve name from)) = [].
Proof. by induction k. Qed.

(** The actions of the visitor's reaction, written out. *)
Lemma reaction_explicit σ parts key nodeModule r :
  foundTemplateNames_reaction σ parts key nodeModule r
  = goto σ Done
      match r with
      | Throw error => [FoundTemplateNames r; Callback (Throw error)]
      | Ok names =>
          match compile nodeModule with
          | Throw error => [FoundTemplateNames r; Compile; Callback (Throw error)]
          | Ok precompiledTemplate =>
              [FoundTemplateNames r; Compile;
               Push (templatesModule_part precompiledTemplate)]
                ++ ((λ name, Push (require_part name)) <$> names)
                ++ [Push (register_part key); Push (renderTemplate_part key)]
                ++ calls 1
                     (Ok (join nl
                            (parts ++ [templatesModule_part precompiledTemplate]
                               ++ (require_part <$> names)
                               ++ [register_part key; renderTemplate_part key])))
          end
      end.
Proof.
  unfold foundTemplateNames_reaction. destruct r as [names|e]; [|done].
  destruct (compile nodeModule) as [p|e]; [|done].
  unfold push. cbn [fst snd]. rewrite (foldl_push require_part).
  cbn [fst snd]. f_equal. rewrite <- !app_assoc. reflexivity.
Qed.

Lemma dependencies_calls handlers r : dependencies (calls handlers r) = [].
Proof.
  revert r. induction handlers as [|handlers IH]; intros r; [done|].
  cbn [calls dependencies omap list_omap]. destruct (callback r) as [[]|error]; [done|].
  apply IH.
Qed.

(** The results the callback is called with by a reaction: each one after
    the first is what the call before has thrown. *)
Lemma callbacks_calls_head handlers r :
  ∃ rest, callbacks (calls handlers r) = r :: rest ∧ (length rest ≤ handlers)%nat.
Proof.
  revert r. induction handlers as [|handlers IH]; intros r.
  - exists []. by split.
  - cbn [calls callbacks omap list_omap]. destruct (callback r) as [[]|error].
    + exists []. split; [done|]. simpl; lia.
    + destruct (IH (Throw error)) as (rest & Heq & Hlen).
      exists (Throw error :: rest). split.
      * cbn [mbind option_bind]. unfold callbacks in Heq. by rewrite Heq.
      * simpl; lia.
Qed.

Lemma callbacks_calls_chain handlers r i a b :
  callbacks (calls handlers r) !! i = Some a →
  callbacks (calls handlers r) !! S i = Some b →
  ∃ error, callback a = Throw error ∧ b = Throw error.
Proof.
  revert r i. induction handlers as [|handlers IH]; intros r i Ha Hb; [done|].
  cbn [calls] in Ha, Hb.
  destruct (callback r) as [[]|error] eqn:Hr; [done|].
  change (callbacks (Callback r :: calls handlers (Throw error)))
    with (r :: callbacks (calls handlers (Throw error))) in Ha, Hb.
  destruct i as [|i].
  - cbn in Ha. simplify_eq. exists error. split; [done|].
    destruct (callbacks_calls_head handlers (Throw error)) as (rest & Heq & _).
    rewrite Heq in Hb. by simplify_eq/=.
  - by apply (IH (Throw error) i).
Qed.

(** An invocation that has finished at [return], without a listener, stays
    as it is. *)
Lemma finished_at_return this source env0 σ :
  pc (loader this source env0) = Done →
  listener (loader this source env0) = None →
  addDependencyTasks (loader this source env0) = [] →
  reachable this source env0 σ → σ = loader this source env0.
Proof.
  intros Hpc Hl Ht. revert σ. apply reachable_ind; [done|].
  intros σ σ' _ -> Hstep. by eapply done_stuck.
Qed.

(** The callback has been called when no reaction that calls it is left,
    by one reaction, and not before. *)
Lemma callbacks_by_pc this source env0 σ :
  reachable this source env0 σ →
  (pc σ = Done
   ∧ ∃ handlers r,
       (handlers ≤ 2)%nat ∧ callbacks (trace σ) = callbacks (calls handlers r))
  ∨ (pc σ ≠ Done ∧ callbacks (trace σ) = []).
Proof.
  revert σ. apply reachable_ind.
  - loader_cases; first [by right | left; split; [done|]; eexists 0%nat, _; split; [lia|done]].
  - intros σ σ' _ IH Hstep.
    destruct Hstep as [parts key nm r Hp|r Hp|t Hp|e Hp|t n Hp Hall|t n i e Hp Hi Hlt
                      |event name from|i name from path Hi|i name from e Hi].
    + destruct IH as [[Hd _]|[_ Hnone]]; [congruence|].
      left. rewrite reaction_explicit. cbn [goto pc trace]. split; [done|].
      rewrite callbacks_app, Hnone.
      destruct r as [names|e]; [destruct (compile nm)|].
      * eexists 1%nat, _. split; [lia|].
        by rewrite !callbacks_app, callbacks_pushes.
      * eexists 0%nat, _; split; [lia|done].
      * eexists 0%nat, _; split; [lia|done].
    + destruct IH as [[Hd _]|[_ Hnone]]; [congruence|].
      right. cbn [goto pc trace]. split; [done|]. by rewrite callbacks_app, Hnone.
    + destruct IH as [[Hd _]|[_ Hnone]]; [congruence|].
      right. cbn [goto pc trace]. split; [done|]. by rewrite callbacks_app, Hnone.
    + destruct IH as [[Hd _]|[_ Hnone]]; [congruence|].
      left. cbn [goto pc trace]. split; [done|]. rewrite callbacks_app, Hnone.
      eexists 0%nat, _; split; [lia|done].
    + destruct IH as [[Hd _]|[_ Hnone]]; [congruence|].
      left. cbn [goto pc trace]. split; [done|]. rewrite callbacks_app, Hnone.
      eexists 2%nat, _; split; [lia|done].
    + destruct IH as [[Hd _]|[_ Hnone]]; [congruence|].
      left. cbn [goto pc trace]. split; [done|]. rewrite callbacks_app, Hnone.
      eexists 1%nat, _. split; [lia|done].
    + destruct (emit_effect event name from σ) as (k & -> & _).
      cbn [pc trace]. rewrite callbacks_app, callbacks_resolves, app_nil_r. done.
    + cbn [pc trace]. rewrite callbacks_app. cbn. by rewrite app_nil_r.
    + cbn [pc trace]. rewrite callbacks_app. cbn. by rewrite app_nil_r.
Qed.

(** When the first call returns it is the only one. *)
Lemma callbacks_first_returns this source env0 σ r :
  reachable this source env0 σ →
  head (callbacks (trace σ)) = Some r → callback r = Ok () →
  callbacks (trace σ) = [r].
Proof.
  intros Hreach.
  destruct (callbacks_by_pc _ _ _ _ Hreach)
    as [(_ & handlers & r0 & _ & ->)|[_ ->]]; [|done].
  destruct (callbacks_calls_head handlers r0) as (rest & Heq & _).
  rewrite Heq. intros [= <-] Hok. rewrite (calls_returns _ _ Hok) in Heq.
  cbn in Heq. by simplify_eq.
Qed.

Lemma Forall_calls (P : Action → Prop) handlers r :
  (∀ r', P (Callback r')) → Forall P (calls handlers r).
Proof.
  intros HP. apply Forall_forall. intros act Hin.
  apply calls_in in Hin as [->|(error & ->)]; apply HP.
Qed.

(** X1. The callback has been called exactly when no reaction that calls
    it is left to run ([pc] is [Done]; tasks of the listener may still
    settle then). It is called once, and again only with what the call
    before has thrown, by the handler that has caught it: at most three
    times in all. When the first call returns, it is the only one. *)
Theorem callback_once this source env0 σ :
  reachable this source env0 σ →
  (pc σ = Done ↔ callbacks (trace σ) ≠ [])
  ∧ (length (callbacks (trace σ)) ≤ 3)%nat
  ∧ (∀ i r r', callbacks (trace σ) !! i = Some r →
       callbacks (trace σ) !! S i = Some r' →
       ∃ error, callback r = Throw error ∧ r' = Throw error)
  ∧ (∀ r, head (callbacks (trace σ)) = Some r → callback r = Ok () →
       callbacks (trace σ) = [r]).
Proof.
  intros Hreach.
  destruct (callbacks_by_pc _ _ _ _ Hreach)
    as [(Hpc & handlers & r & Hle & Hcalls)|[Hpc Hnone]].
  - rewrite Hcalls.
    destruct (callbacks_calls_head handlers r) as (rest & Heq & Hlen).
    split; [by rewrite Heq|]. split; [rewrite Heq; simpl; lia|].
    split; [intros i a b; apply callbacks_calls_chain|].
    rewrite Heq. intros r0 [= <-] Hok. rewrite (calls_returns _ _ Hok) in Heq.
    cbn in Heq. by simplify_eq.
  - rewrite Hnone. split; [done|]. split; [simpl; lia|]. split; [|done].
    intros i r r' Hi. by rewrite lookup_nil in Hi.
Qed.

(** X2. When the options cannot be read or are not valid, the callback gets
    that error and nothing else happens: no dependency is declared, the
    environment module is not required, and the environment is as it was. *)
Theorem options_failure this source env0 error σ :
  (getOptions this = Throw error
   ∨ ∃ options, getOptions this = Ok options ∧ validateOptions options = Throw error) →
  reachable this source env0 σ →
  trace σ = [Callback (Throw error)] ∧ pc σ = Done ∧ environment σ = env0.
Proof.
  intros Hfail Hreach.
  assert (loader this source env0 = finish env0 [] [Callback (Throw error)]) as Hinit.
  { unfold loader. by destruct Hfail as [->|(options & -> & ->)]. }
  assert (σ = loader this source env0) as ->.
  { apply finished_at_return; [by rewrite Hinit..|done]. }
  by rewrite Hinit.
Qed.

(** X3. When the environment module cannot be required, or its [getLoader]
    throws, the callback gets that error, and the module path has already
    been declared as a dependency: it is the one dependency of the
    invocation. The environment is as it was. *)
Theorem environment_failure this source env0 options error σ :
  getOptions this = Ok options → validateOptions options = Ok () →
  (require (slash (environmentModulePath options)) = Throw error
   ∨ (require (slash (environmentModulePath options)) = Ok ()
      ∧ environment_getLoader = Throw error)) →
  reachable this source env0 σ →
  trace σ
  = [AddDependency (slash (environmentModulePath options));
     Require (slash (environmentModulePath options)); Callback (Throw error)]
  ∧ dependencies (trace σ) = [slash (environmentModulePath options)]
  ∧ environment σ = env0.
Proof.
  intros Hopt Hvalid Hfail Hreach.
  assert (loader this source env0
          = finish env0
              [AddDependency (slash (environmentModulePath options));
               Require (slash (environmentModulePath options))]
              [Callback (Throw error)]) as Hinit.
  { unfold loader. rewrite Hopt, Hvalid. by destruct Hfail as [->|[-> ->]]. }
  assert (σ = loader this source env0) as ->.
  { apply finished_at_return; [by rewrite Hinit..|done]. }
  by rewrite Hinit.
Qed.

End Outcome.

Section PrecompileOutcome.
Context {E : Externals}.

(** What the synchronous part has done when it waits for the visitor. *)
Lemma precompile_awaiting this source env0 options parts key nodeModule :
  getOptions this = Ok options → renderContext options = None →
  pc (loader this source env0) = AwaitTemplateNames parts key nodeModule →
  validateOptions options = Ok ()
  ∧ parts = [environment_part (environmentModulePath options)]
  ∧ getTemplateHash this (slash (resourcePath this)) = Ok key
  ∧ (∃ tokenStream,
       tokenize {| getCode := source; getName := key; resolvedPath := None |}
       = Ok tokenStream
       ∧ parse tokenStream = Ok nodeModule)
  ∧ trace (loader this source env0)
    = [AddDependency (slash (environmentModulePath options));
       Require (slash (environmentModulePath options));
       Push (environment_part (environmentModulePath options));
       Tokenize {| getCode := source; getName := key; resolvedPath := None |};
       Parse; GetTemplateNames].
Proof.
  intros Hopt Hctx. loader_cases; intros Hpc; simplify_eq.
  repeat (split; [done|]). split; [eauto|done].
Qed.

(** X4. Without a render context and with valid options, the invocation
    declares one dependency, the environment module path, whatever happens
    afterwards (a failing require, a template that does not parse, a
    rejected visitor, a failing compile, or a module handed over); and it
    leaves the environment as it was and creates no listener and no task. *)
Theorem precompile_declares_environment_only this source env0 options σ :
  getOptions this = Ok options → validateOptions options = Ok () →
  renderContext options = None →
  reachable this source env0 σ →
  dependencies (trace σ) = [slash (environmentModulePath options)]
  ∧ environment σ = env0 ∧ listener σ = None ∧ addDependencyTasks σ = [].
Proof.
  intros Hopt Hvalid Hctx Hreach.
  destruct (precompile_states _ _ _ _ _ Hopt Hctx Hreach)
    as [->|(parts & key & nm & r & Hawait & ->)].
  - loader_cases; same_call; repeat split; reflexivity.
  - destruct (precompile_awaiting _ _ _ _ _ _ _ Hopt Hctx Hawait)
      as (_ & -> & _ & _ & Htrace).
    destruct (loader_precompile this source env0 options Hopt Hctx)
      as (Hl & Ht & Henv & _).
    rewrite reaction_explicit. cbn [goto trace environment listener addDependencyTasks].
    rewrite dependencies_app, Htrace.
    split; [|done].
    destruct r as [names|e]; [destruct (compile nm)|];
      rewrite ?dependencies_app, ?dependencies_pushes, ?dependencies_calls; done.
Qed.

(** X5. When the visitor's promise is rejected, the callback gets the
    reason, [compile] is never called, and nothing is added to the parts
    after the require of the environment. *)
Theorem visitor_rejected this source env0 options error σ :
  getOptions this = Ok options → renderContext options = None →
  reachable this source env0 σ →
  FoundTemplateNames (Throw error) ∈ trace σ →
  pc σ = Done
  ∧ callbacks (trace σ) = [Throw error]
  ∧ (Compile ∉ trace σ)
  ∧ ∀ part, Push part ∈ trace σ →
      part = environment_part (environmentModulePath options).
Proof.
  intros Hopt Hctx Hreach Hin.
  destruct (precompile_states _ _ _ _ _ Hopt Hctx Hreach)
    as [->|(parts & key & nm & r & Hawait & ->)].
  - revert Hin. loader_cases; intros Hin; elem_cases Hin.
  - destruct (precompile_awaiting _ _ _ _ _ _ _ Hopt Hctx Hawait)
      as (_ & -> & _ & _ & Htrace).
    revert Hin. rewrite reaction_explicit. cbn [goto trace pc]. rewrite Htrace.
    destruct r as [names|e].
    + intros Hin. exfalso. destruct (compile nm); cbn [app] in Hin; elem_cases Hin.
      apply elem_of_app in Hin as [Hin|Hin].
      * apply list_elem_of_fmap in Hin as (? & ? & _). discriminate.
      * elem_skip Hin. destruct (callback _); elem_cases Hin.
    + cbn [app]. intros Hin. elem_cases Hin. simplify_eq.
      split; [done|]. split; [done|]. split.
      * intros Hc. elem_cases Hc.
      * intros part Hp. elem_cases Hp. by simplify_eq.
Qed.

(** X6. When [compile] throws on the parsed template, the callback gets the
    error once the visitor has delivered its names; no module text is handed
    over and nothing is added to the parts after the require of the
    environment. *)
Theorem compile_failure this source env0 options key tokenStream nodeModule error
    names σ :
  getOptions this = Ok options → renderContext options = None →
  getTemplateHash this (slash (resourcePath this)) = Ok key →
  tokenize {| getCode := source; getName := key; resolvedPath := None |}
  = Ok tokenStream →
  parse tokenStream = Ok nodeModule →
  compile nodeModule = Throw error →
  reachable this source env0 σ →
  FoundTemplateNames (Ok names) ∈ trace σ →
  pc σ = Done
  ∧ callbacks (trace σ) = [Throw error]
  ∧ ∀ part, Push part ∈ trace σ →
      part = environment_part (environmentModulePath options).
Proof.
  intros Hopt Hctx Hkey Htok Hparse Hcompile Hreach Hin.
  destruct (precompile_states _ _ _ _ _ Hopt Hctx Hreach)
    as [->|(parts & key' & nm & r & Hawait & ->)].
  - revert Hin. loader_cases; intros Hin; elem_cases Hin.
  - destruct (precompile_awaiting _ _ _ _ _ _ _ Hopt Hctx Hawait)
      as (_ & -> & Hkey' & (ts & Htok' & Hparse') & Htrace).
    rewrite Hkey in Hkey'. injection Hkey' as <-.
    rewrite Htok in Htok'. injection Htok' as <-.
    rewrite Hparse in Hparse'. injection Hparse' as <-.
    revert Hin. rewrite reaction_explicit. cbn [goto trace pc]. rewrite Htrace.
    destruct r as [names'|e]; [|cbn [app]; intros Hin; elem_cases Hin].
    rewrite Hcompile. cbn [app]. intros _.
    split; [done|]. split; [done|].
    intros part Hp. elem_cases Hp. by simplify_eq.
Qed.

End PrecompileOutcome.

Section RenderOutcome.
Context {E : Externals}.

Lemma run_app σ evs evs' :
  run σ (evs ++ evs') = run σ evs ≫= λ σ', run σ' evs'.
Proof.
  revert σ. induction evs as [|ev evs IH]; intros σ; simpl; [done|].
  destruct (step σ ev); simpl; [apply IH | done].
Qed.

Lemma reachable_run this source env0 σ evs σ' :
  reachable this source env0 σ → run σ evs = Some σ' →
  reachable this source env0 σ'.
Proof.
  intros [evs0 Hrun0] Hrun. exists (evs0 ++ evs). by rewrite run_app, Hrun0.
Qed.

Lemma declared_replicate k name from :
  omap declared (replicate k (Resolving name from)) = [].
Proof. by induction k. Qed.

(** A task that had declared nothing is replaced. *)
Lemma declared_insert (tasks : list Task) i old new :
  tasks !! i = Some old → declared old = None →
  omap declared (<[i := new]> tasks)
  ≡ₚ match declared new with
     | Some path => path :: omap declared tasks
     | None => omap declared tasks
     end.
Proof.
  intros Hi Hold.
  rewrite insert_take_drop by (by eapply lookup_lt_Some).
  assert (omap declared tasks
          = omap declared (take i tasks) ++ omap declared (drop (S i) tasks)) as ->.
  { rewrite <- (take_drop_middle tasks i old Hi) at 1.
    rewrite omap_app. cbn [omap list_omap]. by rewrite Hold. }
  rewrite omap_app. cbn [omap list_omap].
  destruct (declared new) as [path|]; [|done].
  by rewrite Permutation_middle.
Qed.

(** With a render context nothing waits for the visitor of template names. *)
Lemma render_never_awaits_names this source env0 options renderContext' σ :
  getOptions this = Ok options → renderContext options = Some renderContext' →
  reachable this source env0 σ →
  ∀ parts key nodeModule, pc σ ≠ AwaitTemplateNames parts key nodeModule.
Proof.
  intros Hopt Hctx Hreach.
  by destruct (render_invariant_reachable _ _ _ _ _ _ Hopt Hctx Hreach) as (? & _).
Qed.

(** X7. With a render context and valid options, the dependencies declared
    are the environment module path and, for each task that has been
    fulfilled, the path it resolved to, once for each task: a path requested
    twice is declared twice, a task still resolving or rejected declares
    nothing. *)
Theorem dependencies_of_tasks this source env0 options renderContext' σ :
  getOptions this = Ok options → validateOptions options = Ok () →
  renderContext options = Some renderContext' →
  reachable this source env0 σ →
  dependencies (trace σ)
  ≡ₚ slash (environmentModulePath options) :: omap declared (addDependencyTasks σ).
Proof.
  intros Hopt Hvalid Hctx. revert σ. apply reachable_ind.
  - loader_cases; same_call; reflexivity.
  - intros σ σ' Hreach IH Hstep.
    pose proof (render_never_awaits_names _ _ _ _ _ _ Hopt Hctx Hreach) as Hawait.
    destruct Hstep as [parts key nm r Hp|r Hp|t Hp|e Hp|t n Hp Hall|t n i e Hp Hi Hlt
                      |event name from|i name from path Hi|i name from e Hi];
      try (cbn [goto trace addDependencyTasks];
           rewrite dependencies_app, ?dependencies_calls; cbn; by rewrite app_nil_r).
    + by destruct (Hawait _ _ _ Hp).
    + destruct (emit_effect event name from σ) as (k & -> & _).
      cbn [trace addDependencyTasks].
      by rewrite dependencies_app, dependencies_resolves, omap_app,
        declared_replicate, !app_nil_r.
    + cbn [trace addDependencyTasks]. rewrite dependencies_app.
      rewrite (declared_insert _ _ _ _ Hi eq_refl). cbn.
      rewrite IH. by rewrite <- Permutation_cons_append, Permutation_swap.
    + cbn [trace addDependencyTasks]. rewrite dependencies_app.
      rewrite (declared_insert _ _ _ _ Hi eq_refl). cbn. by rewrite app_nil_r.
Qed.

Lemma failure_kept tr acts :
  (∀ error, Callback (Throw error) ∉ acts) →
  (∀ pre error post, tr = pre ++ Callback (Throw error) :: post →
     failure_cause pre error) →
  ∀ pre error post, tr ++ acts = pre ++ Callback (Throw error) :: post →
    failure_cause pre error.
Proof.
  intros Hnone Hold pre error post Heq.
  destruct (split_app_cases _ _ _ _ _ Heq) as [(post' & -> & ->)|(pre' & -> & Hacts)].
  - by eapply Hold.
  - destruct (Hnone error). rewrite Hacts. in_list.
Qed.

Lemma failure_one tr r :
  (∀ error, r = Throw error → failure_cause tr error) →
  (∀ pre error post, tr = pre ++ Callback (Throw error) :: post →
     failure_cause pre error) →
  ∀ pre error post, tr ++ [Callback r] = pre ++ Callback (Throw error) :: post →
    failure_cause pre error.
Proof.
  intros Hnew Hold pre error post Heq.
  destruct (split_app_cases _ _ _ _ _ Heq) as [(post' & -> & ->)|(pre' & -> & Hacts)].
  - by eapply Hold.
  - destruct pre' as [|? pre']; simplify_eq/=.
    + rewrite app_nil_r. by apply Hnew.
    + by destruct pre'.
Qed.

(** The calls of a reaction: the first one has the reaction's cause, each
    later one reports what the call before has thrown. *)
Lemma failure_calls handlers tr r :
  (∀ error, r = Throw error → failure_cause tr error) →
  (∀ pre error post, tr = pre ++ Callback (Throw error) :: post →
     failure_cause pre error) →
  ∀ pre error post, tr ++ calls handlers r = pre ++ Callback (Throw error) :: post →
    failure_cause pre error.
Proof.
  revert tr r. induction handlers as [|handlers IH]; intros tr r Hnew Hold.
  - by apply failure_one.
  - cbn [calls]. destruct (callback r) as [[]|thrown] eqn:Hr.
    + by apply failure_one.
    + intros pre error post.
      rewrite (cons_middle (Callback r)), app_assoc.
      apply IH; [|by apply failure_one].
      intros ? [= <-]. right; right; right. by exists tr, r.
Qed.

(** A rejected task has left its rejection in the trace. *)
Lemma rejected_recorded this source env0 σ :
  reachable this source env0 σ →
  ∀ i error, addDependencyTasks σ !! i = Some (Rejected error) →
    Resolved i (Throw error) ∈ trace σ.
Proof.
  revert σ. apply (reachable_ind this source env0 (λ σ, ∀ i error,
    addDependencyTasks σ !! i = Some (Rejected error) →
    Resolved i (Throw error) ∈ trace σ)).
  - loader_cases; intros i error Hi; by rewrite lookup_nil in Hi.
  - intros σ σ' _ IH Hstep.
    destruct Hstep as [parts key nm r Hp|r Hp|t Hp|e Hp|t n Hp Hall|t n i e Hp Hi Hlt
                      |event name from|i name from path Hi|i name from e Hi];
      try (intros j error Hj; cbn [goto trace addDependencyTasks] in *;
           apply elem_of_app; left; by apply IH).
    + destruct (reaction_effect σ parts key nm r) as (acts & ->). intros j error Hj.
      cbn [goto trace addDependencyTasks] in *.
      apply elem_of_app; left; by apply IH.
    + destruct (emit_effect event name from σ) as (k & -> & _). intros j error Hj.
      cbn [trace addDependencyTasks] in *. apply elem_of_app; left.
      apply lookup_app_Some in Hj as [Hj|[_ Hj]]; [by apply IH|].
      apply lookup_replicate in Hj as [? _]. done.
    + intros j error Hj. cbn [trace addDependencyTasks] in *.
      apply elem_of_app; left.
      destruct (decide (i = j)) as [->|Hne].
      * rewrite list_lookup_insert_eq in Hj by (by eapply lookup_lt_Some). done.
      * rewrite list_lookup_insert_ne in Hj by done. by apply IH.
    + intros j error Hj. cbn [trace addDependencyTasks] in *.
      destruct (decide (i = j)) as [->|Hne].
      * rewrite list_lookup_insert_eq in Hj by (by eapply lookup_lt_Some).
        simplify_eq. apply elem_of_app; right. in_list.
      * rewrite list_lookup_insert_ne in Hj by done.
        apply elem_of_app; left. by apply IH.
Qed.

(** X8. With a render context, an error passed to the callback has one of
    four origins, and the trace up to the call shows which: nothing was
    rendered yet (the options, the environment module or the set-up of the
    loader failed); or the render was rejected with this very error; or the
    render was fulfilled and one of the tasks joined by Promise.all was
    rejected with this very error; or the call of the callback just before
    has thrown this very error, which the handler around it has caught. *)
Theorem render_failure_cause this source env0 options renderContext' σ pre error post :
  getOptions this = Ok options → renderContext options = Some renderContext' →
  reachable this source env0 σ →
  trace σ = pre ++ Callback (Throw error) :: post →
  (∀ name context, Render name context ∉ pre)
  ∨ Rendered (Throw error) ∈ pre
  ∨ (∃ renderedTemplate n i,
       Rendered (Ok renderedTemplate) ∈ pre ∧ PromiseAll n ∈ pre
       ∧ (i < n)%nat ∧ Resolved i (Throw error) ∈ pre)
  ∨ ∃ before r, pre = before ++ [Callback r] ∧ callback r = Throw error.
Proof.
  intros Hopt Hctx Hreach. revert pre error post. change (∀ pre error post,
    trace σ = pre ++ Callback (Throw error) :: post → failure_cause pre error).
  revert σ Hreach. apply (reachable_ind this source env0 (λ σ, ∀ pre error post,
    trace σ = pre ++ Callback (Throw error) :: post → failure_cause pre error)).
  - loader_cases; same_call; intros pre error post Heq; cut_cases Heq pre;
      left; intros name context Hin; elem_cases Hin.
  - intros σ σ' Hreach IH Hstep.
    pose proof (render_invariant_reachable _ _ _ _ _ _ Hopt Hctx Hreach)
      as (Hawait & _ & _ & Hpc & _).
    pose proof (rejected_recorded _ _ _ _ Hreach) as Hrejected.
    destruct Hstep as [parts key nm r Hp|r Hp|t Hp|e Hp|t n Hp Hall|t n i e Hp Hi Hlt
                      |event name from|i name from path Hi|i name from e Hi].
    + by destruct (Hawait _ _ _ Hp).
    + cbn [goto trace]. apply failure_kept; [|done]. intros ? Hin; elem_cases Hin.
    + cbn [goto trace]. apply failure_kept; [|done]. intros ? Hin; elem_cases Hin.
    + cbn [goto trace]. apply failure_one; [|done].
      intros ? [= <-]. right; left. by rewrite Hp in Hpc.
    + cbn [goto trace]. by apply failure_calls.
    + cbn [goto trace]. apply failure_calls; [|done].
      intros ? [= <-]. right; right; left. rewrite Hp in Hpc.
      destruct Hpc as (before & after & Heq & Hin & _).
      exists t, n, i. repeat split; [| |done|by apply Hrejected].
      * rewrite Heq. apply elem_of_app; by left.
      * rewrite Heq. in_list.
    + destruct (emit_effect event name from σ) as (k & -> & _). cbn [trace].
      apply failure_kept; [|done]. intros ? Hin.
      by apply elem_of_replicate in Hin as [? _].
    + cbn [trace]. apply failure_kept; [|done]. intros ? Hin; elem_cases Hin.
    + cbn [trace]. apply failure_kept; [|done]. intros ? Hin; elem_cases Hin.
Qed.

End RenderOutcome.

Section Branches.
Context {E : Externals}.

Ltac all_actions :=
  repeat first
    [ apply Forall_nil_2
    | apply Forall_calls; intros ?; done
    | apply Forall_cons; split; [done|]
    | apply Forall_app; split
    | apply Forall_fmap, Forall_true; intros ?; done
    | apply Forall_replicate; done ].

Lemma precompile_actions this source env0 options σ :
  getOptions this = Ok options → renderContext options = None →
  reachable this source env0 σ →
  Forall (λ act, render_only act = false) (trace σ).
Proof.
  intros Hopt Hctx Hreach.
  assert (Forall (λ act, render_only act = false) (trace (loader this source env0)))
    as Hinit by (loader_cases; same_call; all_actions).
  destruct (precompile_states _ _ _ _ _ Hopt Hctx Hreach)
    as [->|(parts & key & nm & r & Hawait & ->)]; [done|].
  rewrite reaction_explicit. cbn [goto trace]. apply Forall_app; split; [done|].
  destruct r; [destruct (compile nm)|]; all_actions.
Qed.

Lemma render_actions this source env0 options renderContext' σ :
  getOptions this = Ok options → renderContext options = Some renderContext' →
  reachable this source env0 σ →
  Forall (λ act, precompile_only act = false) (trace σ).
Proof.
  intros Hopt Hctx. revert σ. apply reachable_ind.
  - loader_cases; same_call; all_actions.
  - intros σ σ' Hreach IH Hstep.
    destruct Hstep as [parts key nm r Hp|r Hp|t Hp|e Hp|t n Hp Hall|t n i e Hp Hi Hlt
                      |event name from|i name from path Hi|i name from e Hi];
      try (cbn [goto trace]; apply Forall_app; split; [done|]; by all_actions).
    + by destruct (render_never_awaits_names _ _ _ _ _ _ Hopt Hctx Hreach _ _ _ Hp).
    + destruct (emit_effect event name from σ) as (k & -> & Hk). cbn [trace].
      apply Forall_app; split; [done|]. by all_actions.
Qed.

(** X9. The two branches share no work: with a render context the invocation
    never tokenizes, parses, visits, compiles or pushes a part of a module;
    without one it never replaces the loader, subscribes, renders, joins or
    resolves a template. What both do is declare dependencies, require the
    environment module and call the callback. *)
Theorem branch_actions this source env0 options σ act :
  getOptions this = Ok options →
  reachable this source env0 σ →
  act ∈ trace σ →
  match renderContext options with
  | Some _ => precompile_only act = false
  | None => render_only act = false
  end.
Proof.
  intros Hopt Hreach Hin. destruct (renderContext options) eqn:Hctx.
  - pose proof (render_actions _ _ _ _ _ _ Hopt Hctx Hreach) as Hall.
    by apply (proj1 (Forall_forall _ _) Hall).
  - pose proof (precompile_actions _ _ _ _ _ Hopt Hctx Hreach) as Hall.
    by apply (proj1 (Forall_forall _ _) Hall).
Qed.

(** Every task can settle: some events leave no task resolving among the
    first [k], and nothing else changed. *)
Lemma tasks_settle (k : nat) (σ : State) :
  ∃ evs σ',
    run σ evs = Some σ' ∧ pc σ' = pc σ
    ∧ length (addDependencyTasks σ') = length (addDependencyTasks σ)
    ∧ ∀ i name from, (i < k)%nat →
        addDependencyTasks σ' !! i ≠ Some (Resolving name from).
Proof.
  induction k as [|k (evs & σ1 & Hrun & Hpc & Hlen & Hsettled)].
  - exists [], σ. repeat split; [done..|]. intros; lia.
  - destruct (addDependencyTasks σ1 !! k) as [[name from|path|e]|] eqn:Hk.
    + exists (evs ++ [ResolveSettle k (Ok [])]).
      eexists. rewrite run_snoc, Hrun. cbn [mbind option_bind step].
      unfold resolve_settle. rewrite Hk.
      split; [reflexivity|]. cbn [pc addDependencyTasks].
      split; [done|]. split; [by rewrite length_insert|].
      intros i name' from' Hi.
      destruct (decide (i = k)) as [->|Hne].
      * rewrite list_lookup_insert_eq by (by eapply lookup_lt_Some). done.
      * rewrite list_lookup_insert_ne by done. apply Hsettled. lia.
    + exists evs, σ1. repeat split; [done..|]. intros i name from Hi.
      destruct (decide (i = k)) as [->|Hne]; [by rewrite Hk|apply Hsettled; lia].
    + exists evs, σ1. repeat split; [done..|]. intros i name from Hi.
      destruct (decide (i = k)) as [->|Hne]; [by rewrite Hk|apply Hsettled; lia].
    + exists evs, σ1. repeat split; [done..|]. intros i name from Hi.
      destruct (decide (i = k)) as [->|Hne]; [by rewrite Hk|apply Hsettled; lia].
Qed.

Lemma not_all_fulfilled (tasks : list Task) :
  forallb is_Fulfilled tasks = false →
  ∃ i t, tasks !! i = Some t ∧ is_Fulfilled t = false.
Proof.
  induction tasks as [|t tasks IH]; [done|]. cbn [forallb].
  destruct (is_Fulfilled t) eqn:Ht.
  - intros Hrest. destruct (IH Hrest) as (i & t' & Hi & Ht'). by exists (S i), t'.
  - intros _. by exists 0%nat, t.
Qed.

(** A join whose tasks settle comes to its end. *)
Lemma join_finishes (σ : State) renderedTemplate n :
  pc σ = Joining renderedTemplate n →
  ∃ evs σ', run σ evs = Some σ' ∧ pc σ' = Done.
Proof.
  intros Hpc.
  destruct (tasks_settle (length (addDependencyTasks σ)) σ)
    as (evs & σ1 & Hrun & Hpc1 & Hlen & Hsettled).
  rewrite Hpc in Hpc1.
  destruct (forallb is_Fulfilled (take n (addDependencyTasks σ1))) eqn:Hall.
  - exists (evs ++ [AllFulfilled]). eexists. rewrite run_snoc, Hrun.
    cbn [mbind option_bind step]. rewrite Hpc1, Hall. done.
  - destruct (not_all_fulfilled _ Hall) as (i & t & Hi & Ht).
    apply lookup_take_Some in Hi as [Hi Hlt].
    destruct t as [name from|path|e]; [|done|].
    + destruct (Hsettled i name from); [|done].
      rewrite <- Hlen. by eapply lookup_lt_Some.
    + exists (evs ++ [AllRejected i]). eexists. rewrite run_snoc, Hrun.
      cbn [mbind option_bind step]. rewrite Hpc1, Hi.
      rewrite bool_decide_true by done. done.
Qed.

(** X10. No invocation is stuck for good: from every reachable state some
    sequence of events (the pending promises settling) brings the invocation
    to its end, with the callback called; it has then been called exactly
    once if its first call has returned (a call that throws is followed by
    another one, see [callback_once]). *)
Theorem can_finish this source env0 σ :
  reachable this source env0 σ →
  ∃ evs σ',
    run σ evs = Some σ' ∧ pc σ' = Done
    ∧ callbacks (trace σ') ≠ []
    ∧ (∀ r, head (callbacks (trace σ')) = Some r → callback r = Ok () →
         length (callbacks (trace σ')) = 1%nat).
Proof.
  intros Hreach.
  assert (∃ evs σ', run σ evs = Some σ' ∧ pc σ' = Done) as (evs & σ' & Hrun & Hpc).
  { destruct (pc σ) as [|parts key nm| |[t|e]|t n] eqn:Hpc.
    - by exists [], σ.
    - exists [TemplateNamesSettle (Throw (Err []))],
        (foundTemplateNames_reaction σ parts key nm (Throw (Err []))).
      cbn [run mbind option_bind step]. rewrite Hpc.
      split; [done|]. by rewrite reaction_explicit.
    - exists [RenderSettle (Throw (Err [])); RenderReaction]. eexists.
      cbn [run mbind option_bind step]. rewrite Hpc. cbn. done.
    - set (σ1 := goto σ (Joining t (length (addDependencyTasks σ)))
                   [PromiseAll (length (addDependencyTasks σ))]).
      destruct (join_finishes σ1 t _ eq_refl) as (evs & σ' & Hrun & Hdone).
      exists (RenderReaction :: evs), σ'. cbn [run mbind option_bind step].
      rewrite Hpc. cbn. done.
    - exists [RenderReaction]. eexists.
      cbn [run mbind option_bind step]. rewrite Hpc. cbn. done.
    - by eapply join_finishes. }
  exists evs, σ'. split; [done|]. split; [done|].
  pose proof (reachable_run _ _ _ _ _ _ Hreach Hrun) as Hreach'. split.
  - destruct (callbacks_by_pc _ _ _ _ Hreach')
      as [(_ & handlers & r & _ & ->)|[Hne _]]; [|done].
    by destruct (callbacks_calls_head handlers r) as (rest & -> & _).
  - intros r Hhead Hok.
    by rewrite (callbacks_first_returns _ _ _ _ _ Hreach' Hhead Hok).
Qed.

End Branches.

(** * The text of the generated modules *)

Section Literals.
Context {E : Externals}.

Lemma chars_plain key after :
  forallb SingleQuoted.plain key = true →
  SingleQuoted.chars (key ++ 39 :: after) = Some (key, after).
Proof.
  induction key as [|c key IH]; [done|]. cbn [forallb app]. intros Hall.
  apply andb_true_iff in Hall as [Hc Hall]. unfold SingleQuoted.plain in Hc.
  apply negb_true_iff in Hc.
  apply orb_false_iff in Hc as [Hc H13]. apply orb_false_iff in Hc as [Hc H10].
  apply orb_false_iff in Hc as [H39 H92].
  cbn [SingleQuoted.chars]. rewrite H39, H10, H13, H92. cbn [orb].
  by rewrite (IH Hall).
Qed.

Lemma hex_digit_plain key :
  Forall hex.is_hex_digit key → forallb SingleQuoted.plain key = true.
Proof.
  induction 1 as [|c key Hc _ IH]; [done|]. cbn [forallb]. rewrite IH, andb_true_r.
  unfold SingleQuoted.plain, hex.is_hex_digit in *.
  apply negb_true_iff. repeat (apply orb_false_iff; split); lia.
Qed.

Lemma quoted_argument_plain (prefix suffix key : jsstring) :
  forallb SingleQuoted.plain key = true →
  quoted_argument prefix suffix (prefix ++ 39 :: key ++ 39 :: suffix) = Some key.
Proof.
  intros Hplain. unfold quoted_argument.
  rewrite take_app_length, drop_app_length, bool_decide_eq_true_2 by done.
  cbn [SingleQuoted.eval]. change (39 =? 39) with true. cbv iota.
  rewrite (chars_plain _ _ Hplain). cbn [mbind option_bind].
  by rewrite bool_decide_eq_true_2.
Qed.

(** A literal that holds a quote ends there. *)
Lemma eval_cut (prefix suffix pre post : jsstring) :
  forallb SingleQuoted.plain pre = true →
  SingleQuoted.eval
    (drop (length prefix) (prefix ++ 39 :: (pre ++ 39 :: post) ++ 39 :: suffix))
  = Some (pre, post ++ 39 :: suffix).
Proof.
  intros Hplain. rewrite drop_app_length.
  cbn [SingleQuoted.eval]. change (39 =? 39) with true. cbv iota.
  rewrite <- app_assoc. cbn [app]. apply (chars_plain _ _ Hplain).
Qed.

Lemma register_part_text key :
  register_part key
  = js "env.registerTemplatesModule(templatesModule, " ++ 39 :: key ++ 39 :: js ");".
Proof. reflexivity. Qed.

(** X11. In production mode the statement that registers the templates
    always names the key, whatever the path of the resource is: the key is
    made of hexadecimal digits, which need no escape between the single
    quotes the statement puts around it. *)
Theorem production_registered_name this name key :
  mode this = js "production" →
  getTemplateHash this name = Ok key →
  registered_name (register_part key) = Some key.
Proof.
  intros Hmode Hkey.
  destruct (getTemplateHash_Ok _ _ _ Hkey) as [[Hne _]|(_ & digest & _ & ->)];
    [by destruct Hne|].
  rewrite register_part_text. apply quoted_argument_plain, hex_digit_plain.
  apply stringify_hex.
Qed.

(** X12. Outside production mode the key is the path as it is, and the
    statement that registers the templates puts it between single quotes
    without escaping it. A path without quote, backslash and line break is
    the name registered. In a path with a single quote after such
    characters, the string literal the statement opens ends at that quote:
    it holds only the part of the path before the quote, and the rest of
    the path follows the literal as text of the program. *)
Theorem development_registered_name this name :
  mode this ≠ js "production" →
  getTemplateHash this name = Ok name
  ∧ register_part name
    = js "env.registerTemplatesModule(templatesModule, " ++ 39 :: name ++ js "');"
  ∧ (forallb SingleQuoted.plain name = true →
     registered_name (register_part name) = Some name)
  ∧ (∀ pre post, name = pre ++ 39 :: post → forallb SingleQuoted.plain pre = true →
     SingleQuoted.eval
       (drop (length (js "env.registerTemplatesModule(templatesModule, "))
          (register_part name))
     = Some (pre, post ++ js "');")).
Proof.
  intros Hmode. split; [by apply getTemplateHash_development|].
  split; [apply register_part_text|]. rewrite register_part_text. split.
  - apply quoted_argument_plain.
  - intros pre post -> Hplain. by apply eval_cut.
Qed.

Lemma hex_byte_hexChars ws i rest :
  hex_parse (hex.hexChars ws i ++ rest)
  = bs ← hex_parse rest; Some (hex.bite ws i :: bs).
Proof.
  unfold hex.hexChars. cbn [app hex_parse]. unfold hex_byte.
  pose proof (bite_range ws i) as Hb.
  rewrite (hex_value_toString16 _ (high_nibble_range _ Hb)).
  rewrite (hex_value_toString16 _ (low_nibble_range _)). cbn [mbind option_bind].
  replace (hex.ushr (hex.bite ws i) 4 * 16 + Z.land (hex.bite ws i) 15)
    with (hex.bite ws i); [done|].
  unfold hex.ushr, hex.to_uint32. rewrite (Z.mod_small (hex.bite ws i)) by lia.
  change (4 mod 32) with 4. rewrite Z.shiftr_div_pow2 by lia.
  change 15 with (Z.ones 4). rewrite Z.land_ones by lia.
  change (2 ^ 4) with 16. pose proof (Z.div_mod (hex.bite ws i) 16). lia.
Qed.

Lemma hex_parse_stringify wa : hex_parse (hex.stringify wa) = Some (bytes wa).
Proof.
  unfold hex.stringify, bytes. induction (seq 0 (hex.sigBytes wa)) as [|i l IH].
  - done.
  - cbn [flat_map fmap list_fmap]. rewrite hex_byte_hexChars, IH. done.
Qed.

(** X13. In production mode the key is a faithful writing of the digest:
    the bytes of the digest are read back from the key's pairs of digits,
    so two names get one key only if their digests have the same bytes. *)
Theorem production_key_decodes this name key :
  mode this = js "production" →
  getTemplateHash this name = Ok key →
  ∃ digest,
    sha256 name = Ok digest
    ∧ hex_parse key = Some (bytes digest)
    ∧ ∀ name' digest', sha256 name' = Ok digest' →
        getTemplateHash this name' = Ok key →
        bytes digest' = bytes digest.
Proof.
  intros Hmode Hkey.
  destruct (getTemplateHash_Ok _ _ _ Hkey) as [[Hne _]|(_ & digest & Hsha & ->)];
    [by destruct Hne|].
  exists digest. split; [done|]. split; [apply hex_parse_stringify|].
  intros name' digest' Hsha' Hkey'.
  rewrite (getTemplateHash_production _ _ Hmode), Hsha' in Hkey'.
  injection Hkey' as Heq. apply (f_equal hex_parse) in Heq.
  rewrite !hex_parse_stringify in Heq. by simplify_eq.
Qed.

Lemma UnicodeEscape_printable c :
  0 ≤ c < 65536 → Forall (λ u, 32 ≤ u < 127) (JSON.UnicodeEscape c).
Proof.
  intros Hc. unfold JSON.UnicodeEscape.
  assert (∀ n, 0 ≤ n < 16 → 32 ≤ hex.toString16 n < 127) as Hdigit.
  { intros n Hn. unfold hex.toString16. destruct (Z.ltb_spec n 10); lia. }
  repeat (apply Forall_cons; split); try apply Forall_nil_2; try lia;
    apply Hdigit, Z.mod_pos_bound; lia.
Qed.

Lemma quote_unit_printable c :
  code_unit c → Forall (λ u, 32 ≤ u < 65536) (JSON.quote_unit c).
Proof.
  intros Hc. unfold code_unit in Hc. unfold JSON.quote_unit.
  repeat match goal with
         | |- context [if ?c =? ?k then _ else _] =>
             destruct (Z.eqb_spec c k) as [->|?];
             [repeat (apply Forall_cons; split; [lia|]); apply Forall_nil_2|]
         end.
  destruct (Z.ltb_spec c 32); cbn [orb].
  - eapply Forall_impl; [by apply UnicodeEscape_printable|]. intros u Hu; cbn beta in Hu |- *; lia.
  - destruct (JSON.is_high_surrogate c || JSON.is_low_surrogate c).
    + eapply Forall_impl; [by apply UnicodeEscape_printable|]. intros u Hu; cbn beta in Hu |- *; lia.
    + apply Forall_cons; split; [lia|]. apply Forall_nil_2.
Qed.

Lemma quote_printable (n : nat) : ∀ s,
  (length s ≤ n)%nat → wf_jsstring s →
  Forall (λ u, 32 ≤ u < 65536) (JSON.quote s).
Proof.
  induction n as [|n IH]; intros s Hlen Hwf.
  - destruct s; [constructor | simpl in Hlen; lia].
  - destruct s as [|c [|d rest]].
    + constructor.
    + cbn [JSON.quote]. apply quote_unit_printable. by inversion Hwf.
    + rewrite quote_cons2.
      inversion Hwf as [|? ? Hc Hwf']; subst.
      inversion Hwf' as [|? ? Hd Hwf'']; subst.
      destruct (JSON.is_high_surrogate c && JSON.is_low_surrogate d) eqn:Hpair.
      * apply andb_true_iff in Hpair as [Hh Hl].
        apply andb_true_iff in Hh as [?%Z.leb_le ?%Z.leb_le].
        apply andb_true_iff in Hl as [?%Z.leb_le ?%Z.leb_le].
        apply Forall_cons; split; [cbn beta; lia|].
        apply Forall_cons; split; [cbn beta; lia|].
        apply IH; [simpl in Hlen; lia | done].
      * apply Forall_app; split; [by apply quote_unit_printable|].
        apply IH; [simpl in Hlen |- *; lia | done].
Qed.

Lemma quote_unit_kept c :
  32 ≤ c → c ≠ 34 → c ≠ 92 →
  JSON.is_high_surrogate c = false → JSON.is_low_surrogate c = false →
  JSON.quote_unit c = [c].
Proof.
  intros Hc H34 H92 Hh Hl. unfold JSON.quote_unit.
  repeat match goal with
         | |- context [if ?c =? ?k then _ else _] =>
             destruct (Z.eqb_spec c k) as [->|?]; [lia|]
         end.
  rewrite Hh, Hl. by destruct (Z.ltb_spec c 32); [lia|].
Qed.

Lemma quote_keeps (n : nat) : ∀ s c,
  (length s ≤ n)%nat → c ∈ s →
  32 ≤ c → c ≠ 34 → c ≠ 92 →
  JSON.is_high_surrogate c = false → JSON.is_low_surrogate c = false →
  c ∈ JSON.quote s.
Proof.
  induction n as [|n IH]; intros s c Hlen Hin Hc H34 H92 Hh Hl.
  - destruct s; [by apply elem_of_nil in Hin | simpl in Hlen; lia].
  - destruct s as [|c0 [|d rest]].
    + by apply elem_of_nil in Hin.
    + apply list_elem_of_singleton in Hin as ->. cbn [JSON.quote].
      rewrite quote_unit_kept by done. apply list_elem_of_here.
    + rewrite quote_cons2.
      destruct (JSON.is_high_surrogate c0 && JSON.is_low_surrogate d) eqn:Hpair.
      * apply andb_true_iff in Hpair as [Hh0 Hl0].
        apply elem_of_cons in Hin as [->|Hin]; [congruence|].
        apply elem_of_cons in Hin as [->|Hin]; [congruence|].
        do 2 apply list_elem_of_further.
        apply IH; [simpl in Hlen; lia | done..].
      * apply elem_of_app. apply elem_of_cons in Hin as [->|Hin].
        -- left. rewrite quote_unit_kept by done. apply list_elem_of_here.
        -- right. apply IH; [simpl in Hlen |- *; lia | done..].
Qed.

(** X14. The module of the render branch is one line of text: whatever the
    rendered template holds (line breaks, control characters, quotes), no
    code unit of the module is below U+0020, so the module holds no line
    feed, no carriage return and no other C0 control character. What
    [JSON.stringify] does not escape is still there: a code unit of the
    template from U+0020 on that is neither the double quote, the backslash
    nor a surrogate (so also U+007F, U+0085 and the line separators U+2028
    and U+2029) is a code unit of the module. *)
Theorem rendered_module_one_line renderedTemplate :
  wf_jsstring renderedTemplate →
  Forall (λ u, 32 ≤ u < 65536) (rendered_module renderedTemplate)
  ∧ (10 ∉ rendered_module renderedTemplate)
  ∧ (13 ∉ rendered_module renderedTemplate)
  ∧ ∀ c, c ∈ renderedTemplate → 32 ≤ c → c ≠ 34 → c ≠ 92 →
      JSON.is_high_surrogate c = false → JSON.is_low_surrogate c = false →
      c ∈ rendered_module renderedTemplate.
Proof.
  intros Hwf.
  assert (Forall (λ u, 32 ≤ u < 65536) (rendered_module renderedTemplate)) as Hall.
  { unfold rendered_module, JSON.stringify.
    repeat (apply Forall_app; split).
    - cbn. repeat (apply Forall_cons; split; [cbn beta; lia|]). apply Forall_nil_2.
    - apply Forall_cons; split; [cbn beta; lia|]. apply Forall_nil_2.
    - by apply (quote_printable (length renderedTemplate)).
    - apply Forall_cons; split; [cbn beta; lia|]. apply Forall_nil_2.
    - cbn. apply Forall_cons; split; [cbn beta; lia|]. apply Forall_nil_2. }
  split; [done|].
  split; [intros Hin; apply (proj1 (Forall_forall _ _) Hall) in Hin; cbn beta in Hin; lia|].
  split; [intros Hin; apply (proj1 (Forall_forall _ _) Hall) in Hin; cbn beta in Hin; lia|].
  intros c Hin Hc H34 H92 Hh Hl. unfold rendered_module, JSON.stringify.
  apply elem_of_app; right. apply elem_of_app; left.
  apply elem_of_app; right. apply elem_of_app; left.
  by apply (quote_keeps (length renderedTemplate)).
Qed.

(** X15. Two rendered templates give one module only if they are the same
    string. *)
Theorem rendered_module_injective renderedTemplate renderedTemplate' :
  wf_jsstring renderedTemplate → wf_jsstring renderedTemplate' →
  rendered_module renderedTemplate = rendered_module renderedTemplate' →
  renderedTemplate = renderedTemplate'.
Proof.
  intros Hwf Hwf' Heq.
  destruct (stringify_round_trip _ Hwf) as [_ Hexp].
  destruct (stringify_round_trip _ Hwf') as [_ Hexp'].
  rewrite Heq in Hexp. by simplify_eq.
Qed.

End Literals.

(** * The environment over a build *)

Section SharedEnvironment.
Context {E : Externals}.

(** X16. The invocations with a render context pile up in the shared
    environment: each wraps the loader it finds in a new chain with a new
    array loader, and subscribes one more listener, so after [n] of them the
    loader holds [2 * n] more loader objects and the environment [n] more
    listeners, those that were there coming first. *)
Theorem shared_environment_grows env0 (invocations : list (LoaderContext * jsstring)) :
  (∀ this source, (this, source) ∈ invocations → renders this) →
  environment_getLoader = Ok () →
  (∀ newLoader, environment_setLoader newLoader = Ok ()) →
  environment_on (js "template") = Ok () →
  loader_size (getLoader (environment_after env0 invocations))
  = (loader_size (getLoader env0) + 2 * length invocations)%nat
  ∧ length (listeners (environment_after env0 invocations))
    = (length (listeners env0) + length invocations)%nat
  ∧ listeners env0 `prefix_of` listeners (environment_after env0 invocations).
Proof.
  intros Hrenders Hget Hset Hon. revert env0.
  induction invocations as [|[this source] rest IH]; intros env0.
  - cbn [environment_after length]. rewrite !Nat.add_0_r. done.
  - destruct (Hrenders this source) as (options & ctx & Hopt & Hvalid & Hreq & Hctx);
      [apply list_elem_of_here|].
    destruct (loader_render_setup this source env0 options ctx
                Hopt Hvalid Hreq Hget Hctx (Hset _)) as [Hloader Hlisteners].
    destruct (Hlisteners Hon) as [Hl _].
    cbn [environment_after].
    destruct (IH (λ this' source' Hin, Hrenders this' source'
                    (list_elem_of_further _ _ _ Hin))
                 (environment (loader this source env0))) as (Hsize & Hlen & Hpre).
    rewrite Hsize, Hlen, Hloader, Hl, loader_size_chain, length_app.
    cbn [loader_size length]. repeat split; [lia..|].
    etrans; [|exact Hpre]. rewrite Hl. by apply prefix_app_r.
Qed.

End SharedEnvironment.

(** * The revision before the set-up was guarded *)

Section Part001.
Context {E : Externals}.

(** X17. What the guard around the set-up changed: where the earlier
    revision lets an exception leave the call, the current one calls the
    callback with the error, with the environment in the same state and
    after the same actions, but for the first part when it is the key that
    could not be computed: the current revision has pushed it by then.
    Where the earlier one returns, the current one returns in the same
    state, with the same actions but for the first part, which it pushes. *)
Theorem setup_guarded this source env0 :
  match Part001.loader this source env0 with
  | Part001.Thrown environment' tr error =>
      ∃ pushed,
        loader this source env0
        = finish environment' (tr ++ pushed) [Callback (Throw error)]
        ∧ (pushed = []
           ∨ ∃ options,
               getOptions this = Ok options ∧ renderContext options = None
               ∧ getTemplateHash this (slash (resourcePath this)) = Throw error
               ∧ pushed = [Push (environment_part (environmentModulePath options))])
  | Part001.Returned σ =>
      pc (loader this source env0) = pc σ
      ∧ environment (loader this source env0) = environment σ
      ∧ listener (loader this source env0) = listener σ
      ∧ addDependencyTasks (loader this source env0) = addDependencyTasks σ
      ∧ without_pushes (trace (loader this source env0)) = trace σ
  end.
Proof.
  unfold Part001.loader, Part001.render, Part001.precompile, loader, render,
    precompile, finish, push.
  destruct (getOptions this) as [options|?]; [|by exists []; split; [|left]].
  destruct (validateOptions options) as [[]|?]; [|by exists []; split; [|left]].
  destruct (require _) as [[]|?]; [|by exists []; split; [|left]].
  destruct environment_getLoader as [[]|?]; [|by exists []; split; [|left]].
  destruct (renderContext options) as [renderContext'|] eqn:Hctx.
  - destruct (environment_setLoader _) as [[]|?];
      [|exists []; rewrite app_nil_r; by split; [|left]].
    destruct (environment_on _) as [[]|?];
      [done|exists []; rewrite app_nil_r; by split; [|left]].
  - cbn [fst snd].
    destruct (getTemplateHash this (slash (resourcePath this))) as [key|error] eqn:Hkey.
    + destruct (tokenize _) as [tokenStream|?]; [|done].
      destruct (parse tokenStream) as [nodeModule|?]; done.
    + eexists. split; [reflexivity|]. right. by exists options.
Qed.

Lemma rendereds_app tr acts : rendereds (tr ++ acts) = rendereds tr ++ rendereds acts.
Proof. apply omap_app. Qed.

Lemma joins_app tr acts : joins (tr ++ acts) = joins tr ++ joins acts.
Proof. apply omap_app. Qed.

Lemma rendereds_resolves k name from :
  rendereds (replicate k (Resolve name from)) = [].
Proof. by induction k. Qed.

Lemma joins_resolves k name from : joins (replicate k (Resolve name from)) = [].
Proof. by induction k. Qed.

(** The steps that leave the program counter alone keep what the invariant
    says at it, if they keep the tasks that are fulfilled. *)
Lemma part001_invariant_frame σ tasks acts :
  callbacks acts = [] → rendereds acts = [] → joins acts = [] →
  (length (addDependencyTasks σ) ≤ length tasks)%nat →
  (∀ i path, addDependencyTasks σ !! i = Some (Fulfilled path) →
     tasks !! i = Some (Fulfilled path)) →
  (∀ i error, Resolved i (Throw error) ∈ trace σ ++ acts →
     tasks !! i = Some (Rejected error)) →
  part001_invariant σ →
  part001_invariant
    {| pc := pc σ; environment := environment σ; listener := listener σ;
       addDependencyTasks := tasks; trace := trace σ ++ acts |}.
Proof.
  intros Hc Hr Hj Hlen Hkept Hrej [_ Hpc]. split; [done|].
  cbn [pc trace addDependencyTasks].
  rewrite callbacks_app, rendereds_app, joins_app, Hc, Hr, Hj, !app_nil_r.
  destruct (pc σ) as [| | | |t n]; try done.
  - destruct Hpc as [Hnone|(t & n & Hcb & Hrd & Hjn & Hful)]; [by left|].
    right. exists t, n. repeat split; [done..|].
    intros i Hi. destruct (Hful i Hi) as [path Hpath]. exists path. by apply Hkept.
  - destruct Hpc as (? & ? & ? & ?). repeat split; [done..|lia].
Qed.

Lemma part001_invariant_init this source env0 options renderContext' σ0 :
  getOptions this = Ok options → renderContext options = Some renderContext' →
  Part001.loader this source env0 = Part001.Returned σ0 →
  part001_invariant σ0 ∧ loader this source env0 = σ0.
Proof.
  intros Hopt Hctx. unfold Part001.loader, Part001.render, loader, render, finish.
  rewrite Hopt, Hctx.
  destruct (validateOptions options) as [[]|?]; [|done].
  destruct (require _) as [[]|?]; [|done].
  destruct environment_getLoader as [[]|?]; [|done].
  destruct (environment_setLoader _) as [[]|?]; [|done].
  destruct (environment_on _) as [[]|?]; [|done].
  intros [= <-]. split; [|done]. split.
  - intros i error Hin. cbn [trace app] in Hin. elem_cases Hin.
  - cbn [pc trace]. done.
Qed.

Lemma fulfilled_prefix (tasks : list Task) n :
  forallb is_Fulfilled (take n tasks) = true → (n ≤ length tasks)%nat →
  ∀ i, (i < n)%nat → ∃ path, tasks !! i = Some (Fulfilled path).
Proof.
  intros Hall Hn i Hi.
  destruct (lookup_lt_is_Some_2 tasks i) as [t Ht]; [lia|].
  rewrite forallb_forall in Hall.
  assert (is_Fulfilled t = true) as Hf.
  { apply Hall, list_elem_of_In, (list_elem_of_lookup_2 _ i).
    by rewrite lookup_take_lt. }
  destruct t; try done. by eexists.
Qed.

Lemma part001_invariant_step σ ev σ' :
  part001_invariant σ → Part001.step σ ev = Some σ' → part001_invariant σ'.
Proof.
  intros Hinv Hstep. pose proof Hinv as [Hrej Hpc].
  destruct ev as [r|r| | |i|event name from|i r]; cbn [Part001.step step] in Hstep.
  - destruct (pc σ); try done.
  - destruct (pc σ) eqn:Hp; try done. simplify_eq.
    split.
    + intros i error Hin. cbn [goto trace addDependencyTasks] in *.
      apply elem_of_app in Hin as [Hin|Hin]; [by apply Hrej|elem_cases Hin].
    + cbn [goto pc trace addDependencyTasks].
      rewrite callbacks_app, rendereds_app, joins_app.
      destruct Hpc as (-> & -> & ->). done.
  - destruct (pc σ) as [| | |[t|e]|] eqn:Hp; try done; simplify_eq.
    + split.
      * intros i error Hin. cbn [goto trace addDependencyTasks] in *.
        apply elem_of_app in Hin as [Hin|Hin]; [by apply Hrej|elem_cases Hin].
      * cbn [goto pc trace addDependencyTasks].
        rewrite callbacks_app, rendereds_app, joins_app.
        destruct Hpc as (-> & -> & ->). done.
    + split.
      * intros i error Hin. cbn [goto trace addDependencyTasks] in *.
        rewrite app_nil_r in Hin. by apply Hrej.
      * cbn [goto pc trace addDependencyTasks]. rewrite app_nil_r.
        left. by destruct Hpc as (-> & _).
  - destruct (pc σ) as [| | | |t n] eqn:Hp; try done.
    destruct (forallb _ _) eqn:Hall; simplify_eq.
    destruct Hpc as (Hcb & Hrd & Hjn & Hn). split.
    + intros i error Hin. cbn [goto trace addDependencyTasks] in *.
      apply elem_of_app in Hin as [Hin|Hin]; [by apply Hrej|elem_cases Hin].
    + cbn [goto pc trace addDependencyTasks].
      rewrite callbacks_app, rendereds_app, joins_app, Hcb, Hrd, Hjn.
      right. exists t, n. repeat split; [done..|]. by apply fulfilled_prefix.
  - destruct (pc σ) as [| | | |t n] eqn:Hp; try done.
    destruct (addDependencyTasks σ !! i) as [[| |e]|] eqn:Hi; try done.
    case_bool_decide; simplify_eq. split.
    + intros j error Hin. cbn [goto trace addDependencyTasks] in *.
      rewrite app_nil_r in Hin. by apply Hrej.
    + cbn [goto pc trace addDependencyTasks]. rewrite app_nil_r.
      left. by destruct Hpc as (-> & _).
  - simplify_eq. destruct (emit_effect event name from σ) as (k & -> & _).
    apply part001_invariant_frame;
      [apply callbacks_resolves|apply rendereds_resolves|apply joins_resolves
      | | | |done].
    + rewrite length_app. lia.
    + intros i path Hi. by apply lookup_app_l_Some.
    + intros i error Hin. apply lookup_app_l_Some, Hrej.
      apply elem_of_app in Hin as [Hin|Hin]; [done|].
      by apply elem_of_replicate in Hin as [? _].
  - unfold resolve_settle in Hstep.
    destruct (addDependencyTasks σ !! i) as [[name from| |]|] eqn:Hi; try done.
    destruct r as [path|e]; simplify_eq.
    + apply part001_invariant_frame; [done..| | | |done].
      * by rewrite length_insert.
      * intros j path' Hj. destruct (decide (i = j)) as [->|Hne]; [congruence|].
        by rewrite list_lookup_insert_ne.
      * intros j error Hin.
        apply elem_of_app in Hin as [Hin|Hin]; [|elem_cases Hin].
        destruct (decide (i = j)) as [->|Hne].
        -- apply Hrej in Hin. congruence.
        -- rewrite list_lookup_insert_ne by done. by apply Hrej.
    + apply part001_invariant_frame; [done..| | | |done].
      * by rewrite length_insert.
      * intros j path' Hj. destruct (decide (i = j)) as [->|Hne]; [congruence|].
        by rewrite list_lookup_insert_ne.
      * intros j error Hin.
        apply elem_of_app in Hin as [Hin|Hin].
        -- destruct (decide (i = j)) as [->|Hne].
           ++ apply Hrej in Hin. congruence.
           ++ rewrite list_lookup_insert_ne by done. by apply Hrej.
        -- elem_cases Hin. simplify_eq.
           apply list_lookup_insert_eq. by eapply lookup_lt_Some.
Qed.

Lemma part001_invariant_run σ evs σ' :
  part001_invariant σ → Part001.run σ evs = Some σ' → part001_invariant σ'.
Proof.
  revert σ. induction evs as [|ev evs IH]; intros σ Hinv Hrun.
  - by simplify_eq/=.
  - cbn [Part001.run] in Hrun.
    destruct (Part001.step σ ev) as [σ1|] eqn:Hstep; [|done].
    eapply IH; [|exact Hrun]. by eapply part001_invariant_step.
Qed.

(** X18. In the earlier revision a failure after the set-up is lost: with a
    render context the callback is only ever called with a module; once the
    render has been rejected, or a task of the join has, the callback has
    not been called and will not be, in any state the invocation reaches. *)
Theorem part001_failures_lost this source env0 options renderContext' σ :
  getOptions this = Ok options → renderContext options = Some renderContext' →
  Part001.reachable this source env0 σ →
  (∀ r, r ∈ callbacks (trace σ) →
     ∃ renderedTemplate, r = Ok (rendered_module renderedTemplate))
  ∧ (∀ error, Rendered (Throw error) ∈ trace σ → callbacks (trace σ) = [])
  ∧ (∀ n i error, PromiseAll n ∈ trace σ → (i < n)%nat →
       Resolved i (Throw error) ∈ trace σ → callbacks (trace σ) = []).
Proof.
  intros Hopt Hctx (σ0 & evs & Hinit & Hrun).
  destruct (part001_invariant_init _ _ _ _ _ _ Hopt Hctx Hinit) as [Hinv0 _].
  destruct (part001_invariant_run _ _ _ Hinv0 Hrun) as [Hrej Hpc].
  assert (∀ error, Rendered (Throw error) ∈ trace σ →
            Throw error ∈ rendereds (trace σ)) as Hrd.
  { intros error Hin. apply list_elem_of_omap. by exists (Rendered (Throw error)). }
  assert (∀ n, PromiseAll n ∈ trace σ → n ∈ joins (trace σ)) as Hjn.
  { intros n Hin. apply list_elem_of_omap. by exists (PromiseAll n). }
  destruct (pc σ) as [| | |r|t n].
  - destruct Hpc as [Hnone|(t & n & Hcb & Hrd' & Hjn' & Hful)].
    + rewrite Hnone. repeat split; [|done..]. intros r Hr. elem_cases Hr.
    + repeat split.
      * intros r Hr. rewrite Hcb in Hr. elem_cases Hr. by exists t.
      * intros error Hin. apply Hrd in Hin. rewrite Hrd' in Hin. elem_cases Hin.
      * intros m i error Hm Hi Hin. apply Hjn in Hm. rewrite Hjn' in Hm.
        elem_cases Hm. subst m. destruct (Hful i Hi) as [path Hpath].
        apply Hrej in Hin. congruence.
  - done.
  - destruct Hpc as (-> & _). repeat split; [|done..]. intros r Hr. elem_cases Hr.
  - destruct Hpc as (-> & _). repeat split; [|done..]. intros r' Hr. elem_cases Hr.
  - destruct Hpc as (-> & _). repeat split; [|done..]. intros r Hr. elem_cases Hr.
Qed.

(** A step that calls the callback ends the invocation. *)
Lemma callback_ends σ ev σ' :
  step σ ev = Some σ' →
  pc σ' = Done ∨ callbacks (trace σ') = callbacks (trace σ).
Proof.
  intros Hstep%step_transition.
  destruct Hstep as [parts key nm r Hp|r Hp|t Hp|e Hp|t n Hp Hall|t n i e Hp Hi Hlt
                    |event name from|i name from path Hi|i name from e Hi];
    try (by left).
  - left. by rewrite reaction_explicit.
  - right. cbn [goto trace]. by rewrite callbacks_app, app_nil_r.
  - right. cbn [goto trace]. by rewrite callbacks_app, app_nil_r.
  - right. destruct (emit_effect event name from σ) as (k & -> & _).
    cbn [trace]. by rewrite callbacks_app, callbacks_resolves, app_nil_r.
  - right. cbn [trace]. by rewrite callbacks_app, app_nil_r.
  - right. cbn [trace]. by rewrite callbacks_app, app_nil_r.
Qed.

(** In a finished invocation the two revisions take the same steps, and
    none calls the callback. *)
Lemma finished_step σ ev σ' :
  pc σ = Done → Part001.step σ ev = Some σ' →
  step σ ev = Some σ' ∧ pc σ' = Done ∧ callbacks (trace σ') = callbacks (trace σ).
Proof.
  intros Hp Hstep.
  destruct ev as [r|r| | |i|event name from|i r]; cbn [Part001.step step] in Hstep |- *;
    rewrite ?Hp in Hstep; try done.
  - simplify_eq. split; [done|].
    destruct (emit_effect event name from σ) as (k & -> & _). cbn [pc trace].
    split; [done|]. by rewrite callbacks_app, callbacks_resolves, app_nil_r.
  - split; [done|]. unfold resolve_settle in Hstep.
    destruct (addDependencyTasks σ !! i) as [[name from| |]|]; try done.
    destruct r; simplify_eq; cbn [pc trace]; (split; [done|]);
      by rewrite callbacks_app, app_nil_r.
Qed.

Lemma finished_run σ evs σ' :
  pc σ = Done → Part001.run σ evs = Some σ' →
  run σ evs = Some σ' ∧ callbacks (trace σ') = callbacks (trace σ).
Proof.
  revert σ. induction evs as [|ev evs IH]; intros σ Hp Hrun.
  - by simplify_eq/=.
  - cbn [Part001.run run] in Hrun |- *.
    destruct (Part001.step σ ev) as [σ1|] eqn:Hstep; [|done].
    destruct (finished_step _ _ _ Hp Hstep) as (-> & Hp1 & <-). by apply IH.
Qed.

(** A step of the earlier revision is one of the current one, or a lost
    failure, which ends the invocation without a call, or the call with the
    module, where nothing catches what the callback throws. *)
Lemma part001_step_cases σ ev σ' :
  Part001.step σ ev = Some σ' →
  step σ ev = Some σ'
  ∨ (σ' = goto σ Done []
     ∧ ((∃ error, pc σ = RenderSettled (Throw error))
        ∨ ∃ renderedTemplate n, pc σ = Joining renderedTemplate n))
  ∨ ∃ renderedTemplate,
      σ' = goto σ Done [Callback (Ok (rendered_module renderedTemplate))]
      ∧ step σ ev
        = Some (goto σ Done (calls 2 (Ok (rendered_module renderedTemplate)))).
Proof.
  intros Hstep.
  destruct ev as [r|r| | |i|event name from|i r]; cbn [Part001.step step] in Hstep |- *;
    try by left.
  - destruct (pc σ) as [| | |[t|e]|]; simplify_eq; [by left|right; left; eauto].
  - destruct (pc σ) as [| | | |t n]; try done.
    destruct (forallb _ _); simplify_eq. right; right. by exists t.
  - destruct (pc σ) as [| | | |t n]; try done.
    destruct (addDependencyTasks σ !! i) as [[| |e]|]; try done.
    case_bool_decide; simplify_eq. right; left; eauto.
Qed.

Lemma part001_run_agrees σ evs σ' :
  Part001.run σ evs = Some σ' →
  (∀ r, r ∈ callbacks (trace σ') → callback r = Ok ()) →
  callbacks (trace σ') ≠ callbacks (trace σ) → run σ evs = Some σ'.
Proof.
  revert σ. induction evs as [|ev evs IH]; intros σ Hrun Hok Hne.
  - by simplify_eq/=.
  - cbn [Part001.run run] in Hrun |- *.
    destruct (Part001.step σ ev) as [σ1|] eqn:Hstep; [|done].
    cbn [mbind option_bind] in Hrun.
    destruct (part001_step_cases _ _ _ Hstep) as [Hsame|[[-> _]|(t & -> & Hcur)]].
    + rewrite Hsame. cbn [mbind option_bind].
      destruct (callback_ends _ _ _ Hsame) as [Hdone|Heq].
      * by apply finished_run.
      * apply IH; [done..|]. by rewrite Heq.
    + destruct (finished_run (goto σ Done []) evs σ' eq_refl Hrun) as [_ Heq].
      destruct Hne. rewrite Heq. cbn [goto trace]. by rewrite app_nil_r.
    + destruct (finished_run (goto σ Done [Callback (Ok (rendered_module t))])
                  evs σ' eq_refl Hrun) as [Hrun' Heq].
      rewrite Hcur, calls_returns; [done|].
      apply Hok. rewrite Heq. cbn [goto trace]. rewrite callbacks_app.
      apply elem_of_app; right. apply list_elem_of_here.
Qed.

(** X19. The current revision lost no history of the earlier one that
    reached the host and that the host accepted: with a render context, if
    the earlier revision returns, its run on some events calls the callback
    and the callback returns from each call, then the current revision
    returns in the same state and its run on these events ends in the same
    state, which is one of its reachable states. (When the callback throws,
    the current revision calls it again with what it has thrown; the
    earlier one does not.) *)
Theorem part001_results_kept this source env0 options renderContext' σ0 evs σ :
  getOptions this = Ok options → renderContext options = Some renderContext' →
  Part001.loader this source env0 = Part001.Returned σ0 →
  Part001.run σ0 evs = Some σ →
  callbacks (trace σ) ≠ [] →
  (∀ r, r ∈ callbacks (trace σ) → callback r = Ok ()) →
  loader this source env0 = σ0 ∧ run σ0 evs = Some σ
  ∧ reachable this source env0 σ.
Proof.
  intros Hopt Hctx Hinit Hrun Hcalled Hok.
  destruct (part001_invariant_init _ _ _ _ _ _ Hopt Hctx Hinit) as [[_ Hpc] Hsame].
  assert (pc σ0 = AwaitRender ∧ callbacks (trace σ0) = []) as [Hp0 Hnone].
  { revert Hinit. unfold Part001.loader, Part001.render. rewrite Hopt, Hctx.
    repeat match goal with
           | |- context [match ?x with _ => _ end] => destruct x; try done
           end.
    by intros [= <-]. }
  assert (run σ0 evs = Some σ) as Hrun'.
  { apply part001_run_agrees; [done..|]. by rewrite Hnone. }
  split; [done|]. split; [done|]. exists evs. by rewrite Hsame.
Qed.

End Part001.

(** * The listener and the notifications *)

Section Notifications.
Context {E : Externals}.

Lemma foldl_not_subscribed (newLoader : TwingLoaderInterface) event id name from
    (subs : list (jsstring * nat)) (σ : State) :
  (event, id) ∉ subs →
  foldl (λ σ (sub : jsstring * nat),
           if bool_decide (sub = (event, id))
           then template_listener newLoader name from σ else σ) σ subs
  = σ.
Proof.
  revert σ. induction subs as [|sub subs IH]; intros σ Hnot; [done|].
  cbn [foldl]. rewrite bool_decide_eq_false_2.
  - apply IH. intros Hin. apply Hnot. by right.
  - intros ->. apply Hnot. by left.
Qed.

(** X20. Once the set-up with a render context has succeeded, each
    ['template'] notification adds exactly one task to the invocation, the
    one of its own listener, whatever listeners the environment had before;
    a notification of another event adds none and leaves the invocation as
    it is. *)
Theorem one_task_per_notification this source env0 options renderContext' σ
    event name from :
  getOptions this = Ok options → validateOptions options = Ok () →
  require (slash (environmentModulePath options)) = Ok () →
  environment_getLoader = Ok () →
  renderContext options = Some renderContext' →
  environment_setLoader
    (TwingLoaderChain
       [PathSupportingArrayLoader {[ slash (resourcePath this) := source ]};
        getLoader env0]) = Ok () →
  environment_on (js "template") = Ok () →
  reachable this source env0 σ →
  emit event name from σ
  = if bool_decide (event = js "template")
    then {| pc := pc σ; environment := environment σ; listener := listener σ;
            addDependencyTasks := addDependencyTasks σ ++ [Resolving name from];
            trace := trace σ ++ [Resolve name from] |}
    else σ.
Proof.
  intros Hopt Hvalid Hreq Hget Hctx Hset Hon Hreach.
  destruct (reachable_frame _ _ _ _ Hreach) as [Henv Hl].
  destruct (loader_render_setup _ source env0 _ _ Hopt Hvalid Hreq Hget Hctx Hset)
    as [_ Hsetup].
  destruct (Hsetup Hon) as [Hsubs Hlistener].
  assert (emit event name from σ
          = if bool_decide (event = js "template")
            then template_listener
                   (TwingLoaderChain
                      [PathSupportingArrayLoader {[ slash (resourcePath this) := source ]};
                       getLoader env0]) name from σ
            else σ) as ->.
  { unfold emit. rewrite Hl, Hlistener, Henv, Hsubs, foldl_app.
    rewrite (foldl_not_subscribed _ _ _ _ _ (listeners env0))
      by apply fresh_not_subscribed.
    cbn [foldl]. repeat case_bool_decide; try done; congruence. }
  by case_bool_decide.
Qed.

End Notifications.

(** * The text of the first revision *)

Section Nesting.
Context {E : Externals}.

Lemma nesting_app s t : nesting (s ++ t) = nesting s + nesting t.
Proof.
  unfold nesting. induction s as [|c s IH]; [done|]. cbn [app foldr].
  rewrite IH. lia.
Qed.

Lemma nesting_join (parts : list jsstring) :
  nesting (join nl parts) = foldr (λ p d, nesting p + d) 0 parts.
Proof.
  induction parts as [|p [|q parts] IH]; [done| |].
  - cbn [join foldr]. lia.
  - change (join nl (p :: q :: parts)) with (p ++ nl ++ join nl (q :: parts)).
    rewrite !nesting_app, IH. cbn [foldr]. change (nesting nl) with 0. lia.
Qed.

Lemma nesting_requires (names : list jsstring) d :
  foldr (λ p d, nesting p + d) d (require_part <$> names)
  = nesting (concat (slash <$> names)) + d.
Proof.
  induction names as [|name names IH]; [done|].
  cbn [fmap list_fmap foldr concat]. rewrite IH. unfold require_part.
  rewrite !nesting_app. change (nesting (js "require('")) with 1.
  change (nesting (js "');")) with (-1). lia.
Qed.

(** X21. The module the first revision generates closes one parenthesis
    more than it opens, whenever the texts put into it are balanced: its
    function [renderTemplate] reads [get(name));]. The module of the
    current revision opens and closes as many as these texts do. *)
Theorem part000_closes_one_more
    (environmentModulePath precompiledTemplate : jsstring)
    (foundTemplateNames : list jsstring) (key : jsstring) :
  let current :=
    join nl
      ([environment_part environmentModulePath;
        templatesModule_part precompiledTemplate]
         ++ (require_part <$> foundTemplateNames)
         ++ [register_part key; renderTemplate_part key]) in
  nesting current
  = nesting (slash environmentModulePath) + nesting precompiledTemplate
    + nesting (concat (slash <$> foundTemplateNames)) + 2 * nesting key
  ∧ nesting
      (Part000.generated environmentModulePath precompiledTemplate
         foundTemplateNames key)
    = nesting current - 1.
Proof.
  cbn zeta. unfold Part000.generated. rewrite !nesting_join.
  cbn [app foldr]. rewrite !foldr_app, !nesting_requires. cbn [foldr].
  unfold environment_part, register_part, renderTemplate_part, templatesModule_part,
    Part000.renderTemplate_part, Part000.templatesModule_part, line.
  rewrite !nesting_join. cbn [foldr]. rewrite !nesting_app.
  repeat match goal with
         | |- context [nesting (js ?s)] =>
             let v := eval vm_compute in (nesting (js s)) in
             change (nesting (js s)) with v
         | |- context [nesting (blanks ?n)] =>
             let v := eval vm_compute in (nesting (blanks n)) in
             change (nesting (blanks n)) with v
         end.
  change (nesting []) with 0. lia.
Qed.

End Nesting.

(** * The precompile branch in both revisions *)

Section Part001Precompile.
Context {E : Externals}.

Lemma without_pushes_app tr acts :
  without_pushes (tr ++ acts) = without_pushes tr ++ without_pushes acts.
Proof. apply List.filter_app. Qed.

Lemma precompile_alike_step σ σ' ev σ1 :
  precompile_alike σ σ' → Part001.step σ ev = Some σ1 →
  ∃ σ1', step σ' ev = Some σ1' ∧ precompile_alike σ1 σ1'.
Proof.
  intros Halike Hstep.
  pose proof Halike as (Hpc & Hat & Henv & Hl & Hl' & Ht & Ht' & Hc & Hd & Hw).
  destruct ev as [r|r| | |i|event name from|i r];
    cbn [Part001.step step] in Hstep |- *; rewrite <- ?Hpc.
  - destruct (pc σ) as [|parts key nm| | |] eqn:Hp; simplify_eq.
    eexists. split; [done|]. rewrite !reaction_explicit.
    unfold precompile_alike. cbn [goto pc environment listener addDependencyTasks trace].
    rewrite !callbacks_app, !dependencies_app, !without_pushes_app, Hc, Hd, Hw.
    repeat split; try done. by left.
  - by destruct Hat as [Hp|(? & ? & ? & Hp)]; rewrite Hp in Hstep.
  - by destruct Hat as [Hp|(? & ? & ? & Hp)]; rewrite Hp in Hstep.
  - by destruct Hat as [Hp|(? & ? & ? & Hp)]; rewrite Hp in Hstep.
  - by destruct Hat as [Hp|(? & ? & ? & Hp)]; rewrite Hp in Hstep.
  - simplify_eq. exists σ'. unfold emit. rewrite Hl, Hl'. done.
  - unfold resolve_settle in Hstep. by rewrite Ht, lookup_nil in Hstep.
Qed.

Lemma precompile_alike_run σ σ' evs σ1 :
  precompile_alike σ σ' → Part001.run σ evs = Some σ1 →
  ∃ σ1', run σ' evs = Some σ1' ∧ precompile_alike σ1 σ1'.
Proof.
  revert σ σ'. induction evs as [|ev evs IH]; intros σ σ' Halike Hrun.
  - simplify_eq/=. by exists σ'.
  - cbn [Part001.run run] in Hrun |- *.
    destruct (Part001.step σ ev) as [σ2|] eqn:Hstep; [|done].
    destruct (precompile_alike_step _ _ _ _ Halike Hstep) as (σ2' & -> & Halike2).
    by apply (IH σ2).
Qed.

(** X22. Without a render context the two revisions cannot be told apart
    by the host: whatever the events, a run of the earlier revision is
    matched by a run of the current one that is at the same point, has
    called the callback with the same results (the same module text or the
    same error), has declared the same dependencies and has done the same
    actions, the calls of [parts.push] apart. *)
Theorem part001_precompile_agrees this source env0 options σ0 evs σ :
  getOptions this = Ok options → renderContext options = None →
  Part001.loader this source env0 = Part001.Returned σ0 →
  Part001.run σ0 evs = Some σ →
  ∃ σ', run (loader this source env0) evs = Some σ'
    ∧ pc σ' = pc σ
    ∧ callbacks (trace σ') = callbacks (trace σ)
    ∧ dependencies (trace σ') = dependencies (trace σ)
    ∧ without_pushes (trace σ') = without_pushes (trace σ).
Proof.
  intros Hopt Hctx Hinit Hrun.
  assert (precompile_alike σ0 (loader this source env0)) as Halike.
  { revert Hinit. unfold Part001.loader, Part001.precompile, loader, precompile,
      finish, push. rewrite Hopt, Hctx.
    destruct (validateOptions options) as [[]|?]; [|done].
    destruct (require _) as [[]|?]; [|done].
    destruct environment_getLoader as [[]|?]; [|done].
    cbn [fst snd].
    destruct (getTemplateHash this (slash (resourcePath this))) as [key|?]; [|done].
    destruct (tokenize _) as [tokenStream|?].
    - destruct (parse tokenStream) as [nodeModule|?]; intros [= <-];
        unfold precompile_alike; cbn [pc environment listener addDependencyTasks trace];
        repeat split; eauto.
    - intros [= <-]. unfold precompile_alike.
      cbn [pc environment listener addDependencyTasks trace]. repeat split; eauto. }
  destruct (precompile_alike_run _ _ _ _ Halike Hrun)
    as (σ' & Hrun' & Hpc & _ & _ & _ & _ & _ & _ & Hc & Hd & Hw).
  exists σ'. by repeat split.
Qed.

End Part001Precompile.

(** * The further properties on the demonstration *)

Lemma after_reachable (options : OptionObject) (mode : string) source evs :
  match run (loader (E := Demo.externals options) (Demo.this mode) source
               Demo.environment) evs
  with Some _ => true | None => false end = true →
  reachable (E := Demo.externals options) (Demo.this mode) source Demo.environment
    (Demo.after options mode source evs).
Proof. intros Hruns. exists evs. by apply @run_default. Qed.

Lemma failing_reachable (E : Externals) source evs :
  match run (loader (Demo.this "development") source Demo.environment) evs
  with Some _ => true | None => false end = true →
  reachable (Demo.this "development") source Demo.environment
    (Failing.after E source evs).
Proof. intros Hruns. exists evs. by apply @run_default. Qed.

Lemma part001_start_returned :
  Part001.loader (E := Demo.render_externals) (Demo.this "development")
    Demo.source Demo.environment
  = Part001.Returned Runs.part001_start.
Proof.
  unfold Runs.part001_start.
  destruct (Part001.loader _ _ _) eqn:Hloader; [done|].
  exfalso. revert Hloader. unfold Part001.loader, Part001.render. cbn. done.
Qed.

Lemma part001_after_reachable evs :
  match Part001.run Runs.part001_start evs with Some _ => true | None => false end
  = true →
  Part001.reachable (E := Demo.render_externals) (Demo.this "development")
    Demo.source Demo.environment (Runs.part001_after evs).
Proof.
  intros Hruns. exists Runs.part001_start, evs. split; [apply part001_start_returned|].
  unfold Runs.part001_after. by destruct (Part001.run _ _).
Qed.

(** The host of [Failing.hostile] is called three times: by the reaction,
    by its [catch] and by the [.catch] of the promise. *)
Lemma hostile_rendered_calls :
  callbacks (trace Runs.hostile_rendered)
  = [Ok (rendered_module Demo.awkward); Throw Failing.host_error;
     Throw Failing.host_error_again].
Proof. vm_compute. reflexivity. Qed.

Lemma callback_once_witness :
  (pc Runs.hostile_rendered = Done ↔ callbacks (trace Runs.hostile_rendered) ≠ [])
  ∧ (length (callbacks (trace Runs.hostile_rendered)) ≤ 3)%nat
  ∧ (∀ i r r', callbacks (trace Runs.hostile_rendered) !! i = Some r →
       callbacks (trace Runs.hostile_rendered) !! S i = Some r' →
       ∃ error, callback (Externals := Failing.hostile_render) r = Throw error
                ∧ r' = Throw error)
  ∧ (∀ r, head (callbacks (trace Runs.hostile_rendered)) = Some r →
       callback (Externals := Failing.hostile_render) r = Ok () →
       callbacks (trace Runs.hostile_rendered) = [r]).
Proof.
  apply (callback_once (E := Failing.hostile_render) (Demo.this "development")
           Demo.source Demo.environment Runs.hostile_rendered).
  apply failing_reachable. vm_compute. reflexivity.
Defined.

Lemma options_failure_witness :
  trace Runs.without_options = [Callback (Throw Failing.error)]
  ∧ pc Runs.without_options = Done
  ∧ environment Runs.without_options = Demo.environment.
Proof.
  apply (options_failure (E := Failing.no_options) (Demo.this "development")
           Demo.source Demo.environment Failing.error Runs.without_options).
  - left. reflexivity.
  - apply failing_reachable. vm_compute. reflexivity.
Defined.

Lemma environment_failure_witness :
  trace Runs.without_environment
  = [AddDependency (js "/app/env.js"); Require (js "/app/env.js");
     Callback (Throw Failing.error)]
  ∧ dependencies (trace Runs.without_environment) = [js "/app/env.js"]
  ∧ environment Runs.without_environment = Demo.environment.
Proof.
  apply (environment_failure (E := Failing.no_environment) (Demo.this "development")
           Demo.source Demo.environment Demo.precompile_options Failing.error
           Runs.without_environment).
  - reflexivity.
  - reflexivity.
  - left. reflexivity.
  - apply failing_reachable. vm_compute. reflexivity.
Defined.

Lemma precompile_declares_environment_only_witness :
  dependencies (trace Demo.precompiled) = [js "/app/env.js"]
  ∧ environment Demo.precompiled = Demo.environment
  ∧ listener Demo.precompiled = None
  ∧ addDependencyTasks Demo.precompiled = [].
Proof.
  exact (precompile_declares_environment_only (E := Demo.precompile_externals)
           (Demo.this "production") Demo.source Demo.environment
           Demo.precompile_options Demo.precompiled
           eq_refl eq_refl eq_refl precompiled_reachable).
Defined.

Lemma visitor_rejected_witness :
  pc Runs.names_rejected = Done
  ∧ callbacks (trace Runs.names_rejected) = [Throw Failing.error]
  ∧ (Compile ∉ trace Runs.names_rejected)
  ∧ ∀ part, Push part ∈ trace Runs.names_rejected →
      part = environment_part (E := Demo.precompile_externals) (js "/app/env.js").
Proof.
  apply (visitor_rejected (E := Demo.precompile_externals) (Demo.this "development")
           Demo.source Demo.environment Demo.precompile_options Failing.error
           Runs.names_rejected).
  - reflexivity.
  - reflexivity.
  - apply after_reachable. vm_compute. reflexivity.
  - in_evaluated.
Defined.

Lemma compile_failure_witness :
  pc Runs.compile_failed = Done
  ∧ callbacks (trace Runs.compile_failed) = [Throw Failing.error]
  ∧ ∀ part, Push part ∈ trace Runs.compile_failed →
      part = environment_part (E := Failing.no_compile) (js "/app/env.js").
Proof.
  apply (compile_failure (E := Failing.no_compile) (Demo.this "development")
           Demo.source Demo.environment Demo.precompile_options
           (js "C:/app/index.twig")
           Demo.source Demo.source Failing.error [] Runs.compile_failed).
  - reflexivity.
  - reflexivity.
  - vm_compute. reflexivity.
  - vm_compute. reflexivity.
  - reflexivity.
  - reflexivity.
  - apply failing_reachable. vm_compute. reflexivity.
  - in_evaluated.
Defined.

Lemma dependencies_of_tasks_witness :
  dependencies (trace Demo.rendered)
  ≡ₚ js "/app/env.js" :: omap declared (addDependencyTasks Demo.rendered).
Proof.
  exact (dependencies_of_tasks (E := Demo.render_externals) (Demo.this "development")
           Demo.source Demo.environment Demo.render_options ∅ Demo.rendered
           eq_refl eq_refl eq_refl rendered_reachable).
Defined.

Lemma render_failure_cause_witness :
  trace Runs.hostile_rendered
  = take 14 (trace Runs.hostile_rendered)
      ++ Callback (Throw Failing.host_error)
      :: [Callback (Throw Failing.host_error_again)]
  ∧ ((∀ name context, Render name context ∉ take 14 (trace Runs.hostile_rendered))
     ∨ Rendered (Throw Failing.host_error) ∈ take 14 (trace Runs.hostile_rendered)
     ∨ (∃ renderedTemplate n i,
          Rendered (Ok renderedTemplate) ∈ take 14 (trace Runs.hostile_rendered)
          ∧ PromiseAll n ∈ take 14 (trace Runs.hostile_rendered)
          ∧ (i < n)%nat
          ∧ Resolved i (Throw Failing.host_error)
              ∈ take 14 (trace Runs.hostile_rendered))
     ∨ ∃ before r,
         take 14 (trace Runs.hostile_rendered) = before ++ [Callback r]
         ∧ callback (Externals := Failing.hostile_render) r
           = Throw Failing.host_error).
Proof.
  assert (trace Runs.hostile_rendered
          = take 14 (trace Runs.hostile_rendered)
              ++ Callback (Throw Failing.host_error)
              :: [Callback (Throw Failing.host_error_again)])
    as Hcut by (vm_compute; reflexivity).
  split; [exact Hcut|].
  refine (render_failure_cause (E := Failing.hostile_render) (Demo.this "development")
            Demo.source Demo.environment Demo.render_options ∅ Runs.hostile_rendered
            _ _ _ eq_refl eq_refl _ Hcut).
  apply failing_reachable. vm_compute. reflexivity.
Defined.

Lemma branch_actions_witness :
  precompile_only (Callback (Ok (Demo.module_text (trace Demo.rendered)))) = false.
Proof.
  exact (branch_actions (E := Demo.render_externals) (Demo.this "development")
           Demo.source Demo.environment Demo.render_options Demo.rendered
           _ eq_refl rendered_reachable rendered_callback).
Defined.

Lemma can_finish_witness :
  ∃ evs σ',
    run Runs.pending evs = Some σ' ∧ pc σ' = Done
    ∧ callbacks (trace σ') ≠ []
    ∧ (∀ r, head (callbacks (trace σ')) = Some r →
         callback (Externals := Demo.render_externals) r = Ok () →
         length (callbacks (trace σ')) = 1%nat).
Proof.
  apply (can_finish (E := Demo.render_externals) (Demo.this "development")
           Demo.source Demo.environment Runs.pending).
  apply after_reachable. vm_compute. reflexivity.
Defined.

Lemma production_registered_name_witness :
  ∃ key,
    getTemplateHash (E := Demo.precompile_externals) (Demo.this "production")
      (js "/app/it's.twig") = Ok key
    ∧ registered_name (register_part key) = Some key.
Proof.
  assert (∃ key,
            getTemplateHash (E := Demo.precompile_externals) (Demo.this "production")
              (js "/app/it's.twig") = Ok key) as [key Hkey]
    by (eexists; vm_compute; reflexivity).
  exists key. split; [exact Hkey|].
  exact (production_registered_name (E := Demo.precompile_externals)
           (Demo.this "production") (js "/app/it's.twig") key eq_refl Hkey).
Defined.

Lemma development_registered_name_witness :
  SingleQuoted.eval
    (drop (length (js "env.registerTemplatesModule(templatesModule, "))
       (register_part (js "/app/it's.twig")))
  = Some (js "/app/it", js "s.twig" ++ js "');").
Proof.
  assert (mode (Demo.this "development") ≠ js "production") as Hmode
    by (intros Heq; vm_compute in Heq; discriminate Heq).
  destruct (development_registered_name (E := Demo.precompile_externals)
              (Demo.this "development") (js "/app/it's.twig") Hmode)
    as (_ & _ & _ & Hcut).
  apply (Hcut (js "/app/it") (js "s.twig")); reflexivity.
Defined.

Lemma production_key_decodes_witness :
  ∃ digest,
    sha256 (Externals := Demo.precompile_externals) (js "C:/app/index.twig")
    = Ok digest
    ∧ hex_parse
        (js "8ca3338923d32bb5389c84154cbf6ee6d42098fa45e536dd751bd55c1282ab6d")
      = Some (bytes digest)
    ∧ ∀ name' digest',
        sha256 (Externals := Demo.precompile_externals) name' = Ok digest' →
        getTemplateHash (E := Demo.precompile_externals) (Demo.this "production")
          name'
        = Ok (js "8ca3338923d32bb5389c84154cbf6ee6d42098fa45e536dd751bd55c1282ab6d") →
        bytes digest' = bytes digest.
Proof.
  apply (production_key_decodes (E := Demo.precompile_externals)
           (Demo.this "production") (js "C:/app/index.twig")).
  - reflexivity.
  - vm_compute. reflexivity.
Defined.

Lemma rendered_module_one_line_witness :
  wf_jsstring Demo.awkward
  ∧ Forall (λ u, 32 ≤ u < 65536) (rendered_module Demo.awkward)
  ∧ (10 ∉ rendered_module Demo.awkward)
  ∧ (13 ∉ rendered_module Demo.awkward)
  ∧ ∀ c, c ∈ Demo.awkward → 32 ≤ c → c ≠ 34 → c ≠ 92 →
      JSON.is_high_surrogate c = false → JSON.is_low_surrogate c = false →
      c ∈ rendered_module Demo.awkward.
Proof.
  assert (wf_jsstring Demo.awkward) as Hwf.
  { apply wf_jsstring_check. vm_compute. reflexivity. }
  split; [exact Hwf|]. exact (rendered_module_one_line Demo.awkward Hwf).
Defined.

Lemma rendered_module_injective_witness :
  wf_jsstring Demo.awkward ∧ wf_jsstring (js "say " ++ drop 4 Demo.awkward)
  ∧ Demo.awkward = js "say " ++ drop 4 Demo.awkward.
Proof.
  assert (wf_jsstring Demo.awkward) as Hwf.
  { apply wf_jsstring_check. vm_compute. reflexivity. }
  assert (wf_jsstring (js "say " ++ drop 4 Demo.awkward)) as Hwf'.
  { apply wf_jsstring_check. vm_compute. reflexivity. }
  split; [exact Hwf|]. split; [exact Hwf'|].
  apply (rendered_module_injective _ _ Hwf Hwf'). reflexivity.
Defined.

Lemma shared_environment_grows_witness :
  loader_size
    (getLoader (environment_after (E := Demo.render_externals) Demo.environment
                  Runs.build))
  = (loader_size (getLoader Demo.environment) + 2 * length Runs.build)%nat
  ∧ length (listeners (environment_after (E := Demo.render_externals)
                         Demo.environment Runs.build))
    = (length (listeners Demo.environment) + length Runs.build)%nat
  ∧ listeners Demo.environment
    `prefix_of` listeners (environment_after (E := Demo.render_externals)
                             Demo.environment Runs.build).
Proof.
  apply (shared_environment_grows (E := Demo.render_externals) Demo.environment
           Runs.build).
  - intros this source _. exists Demo.render_options, ∅. repeat split.
  - reflexivity.
  - intros newLoader. reflexivity.
  - reflexivity.
Defined.

Lemma part001_failures_lost_witness :
  Rendered (Throw (Err (js "Unclosed tag")))
    ∈ trace (Runs.part001_after Demo.render_failure_events)
  ∧ callbacks (trace (Runs.part001_after Demo.render_failure_events)) = [].
Proof.
  assert (Rendered (Throw (Err (js "Unclosed tag")))
            ∈ trace (Runs.part001_after Demo.render_failure_events)) as Hin
    by in_evaluated.
  split; [exact Hin|].
  destruct (part001_failures_lost (E := Demo.render_externals)
              (Demo.this "development") Demo.source Demo.environment
              Demo.render_options ∅ (Runs.part001_after Demo.render_failure_events)
              eq_refl eq_refl
              (part001_after_reachable Demo.render_failure_events eq_refl))
    as (_ & Hlost & _).
  exact (Hlost _ Hin).
Defined.

Lemma part001_results_kept_witness :
  loader (E := Demo.render_externals) (Demo.this "development") Demo.source
    Demo.environment = Runs.part001_start
  ∧ run Runs.part001_start Demo.render_events
    = Some (Runs.part001_after Demo.render_events)
  ∧ reachable (E := Demo.render_externals) (Demo.this "development") Demo.source
      Demo.environment (Runs.part001_after Demo.render_events).
Proof.
  apply (part001_results_kept (E := Demo.render_externals) (Demo.this "development")
           Demo.source Demo.environment Demo.render_options ∅
           Runs.part001_start Demo.render_events
           (Runs.part001_after Demo.render_events)).
  - reflexivity.
  - reflexivity.
  - apply part001_start_returned.
  - unfold Runs.part001_after.
    assert (match Part001.run Runs.part001_start Demo.render_events
            with Some _ => true | None => false end = true) as Hruns
      by (vm_compute; reflexivity).
    by destruct (Part001.run _ _).
  - intros Hnone. vm_compute in Hnone. discriminate Hnone.
  - intros r _. reflexivity.
Defined.

Lemma one_task_per_notification_witness :
  emit (E := Demo.render_externals) (js "template") (js "c.twig") Demo.from
    Runs.pending
  = if bool_decide (js "template" = js "template")
    then {| pc := pc Runs.pending; environment := environment Runs.pending;
            listener := listener Runs.pending;
            addDependencyTasks :=
              addDependencyTasks Runs.pending ++ [Resolving (js "c.twig") Demo.from];
            trace := trace Runs.pending ++ [Resolve (js "c.twig") Demo.from] |}
    else Runs.pending.
Proof.
  apply (one_task_per_notification (E := Demo.render_externals)
           (Demo.this "development") Demo.source Demo.environment
           Demo.render_options ∅ Runs.pending (js "template") (js "c.twig") Demo.from).
  - reflexivity.
  - reflexivity.
  - reflexivity.
  - reflexivity.
  - reflexivity.
  - reflexivity.
  - reflexivity.
  - apply after_reachable. vm_compute. reflexivity.
Defined.

Lemma part001_precompile_agrees_witness :
  ∃ σ', run (loader (E := Demo.precompile_externals) (Demo.this "production")
               Demo.source Demo.environment) Demo.precompile_events = Some σ'
    ∧ pc σ' = pc Runs.part001_precompiled
    ∧ callbacks (trace σ') = callbacks (trace Runs.part001_precompiled)
    ∧ dependencies (trace σ') = dependencies (trace Runs.part001_precompiled)
    ∧ without_pushes (trace σ') = without_pushes (trace Runs.part001_precompiled).
Proof.
  apply (part001_precompile_agrees (E := Demo.precompile_externals)
           (Demo.this "production") Demo.source Demo.environment
           Demo.precompile_options Runs.part001_returned Demo.precompile_events
           Runs.part001_precompiled).
  - reflexivity.
  - reflexivity.
  - unfold Runs.part001_returned.
    destruct (Part001.loader _ _ _) eqn:Hloader; [done|].
    exfalso. revert Hloader. unfold Part001.loader. cbn. done.
  - unfold Runs.part001_precompiled.
    assert (match Part001.run Runs.part001_returned Demo.precompile_events
            with Some _ => true | None => false end = true) as Hruns
      by (vm_compute; reflexivity).
    by destruct (Part001.run _ _).
Defined.
